(** * meta-tree: a shallow embedding of the text format, its parser and its
      serializer

    Sources embedded (paths relative to the repository):
    - [src/tools/tools.js]           : [getVerbFromActionName]
    - [src/tools/treeFromString.js]  : the line parser
    - [src/tree/field.js], [src/tree/section.js], [src/tree/record.js],
      [src/tree/tree.js]             : the four containers
    - [dist/meta-tree.esm.js]        : the bundled build, whose [Record]
      constructor differs from [src/tree/record.js] (module [Dist]).

    JavaScript strings are modelled as lists of 8-bit characters (code
    units below 256); [Map] objects as association lists in insertion
    order; methods that mutate [this] and may throw as functions from the
    state of the receiver to its final state and an outcome. *)

From Stdlib Require Import String Ascii List Bool Arith Lia NArith.
Import ListNotations.

Set Implicit Arguments.

(** ** Text *)

Abbreviation str := (list ascii).

(** A string literal of the source, as a list of characters. *)
Definition lit (s : string) : str := list_ascii_of_string s.

Arguments lit s%_string : simpl never.

Definition code (c : ascii) : N := N_of_ascii c.

Definition chr_eqb (a b : ascii) : bool := Ascii.eqb a b.

Fixpoint str_eqb (a b : str) : bool :=
  match a, b with
  | [], [] => true
  | x :: a', y :: b' => chr_eqb x y && str_eqb a' b'
  | _, _ => false
  end.

(** [\s] of a JavaScript regular expression, which is also the set that
    [String.prototype.trim] strips: TAB, LF, VT, FF, CR, SPACE and, among
    the code units below 256, NBSP. *)
Definition is_ws (c : ascii) : bool :=
  let n := code c in
  ((9 <=? n) && (n <=? 13) || (n =? 32) || (n =? 160))%N.

Definition is_digit (c : ascii) : bool :=
  let n := code c in ((48 <=? n) && (n <=? 57))%N.

Definition is_upper (c : ascii) : bool :=
  let n := code c in ((65 <=? n) && (n <=? 90))%N.

Definition is_lower (c : ascii) : bool :=
  let n := code c in ((97 <=? n) && (n <=? 122))%N.

(** [\w] : [A-Za-z0-9_]. *)
Definition is_word (c : ascii) : bool :=
  is_upper c || is_lower c || is_digit c || chr_eqb c "_"%char.

Definition is_chr (a : ascii) : ascii -> bool := fun c => chr_eqb c a.

Definition dquote : ascii := "034"%char.
Definition squote : ascii := "'"%char.
Definition backslash : ascii := "\"%char.
Definition newline : ascii := "010"%char.
Definition carriage : ascii := "013"%char.
Definition space : ascii := " "%char.

(** [/\s/.test(s)] *)
Definition has_ws (s : str) : bool := existsb is_ws s.

Fixpoint trimStart (s : str) : str :=
  match s with
  | c :: s' => if is_ws c then trimStart s' else s
  | [] => []
  end.

Definition trimEnd (s : str) : str := rev (trimStart (rev s)).

(** [s.trim()] *)
Definition trim (s : str) : str := trimEnd (trimStart s).

(** [s.startsWith(p)] *)
Fixpoint startsWith (p s : str) : bool :=
  match p, s with
  | [], _ => true
  | x :: p', y :: s' => chr_eqb x y && startsWith p' s'
  | _ :: _, [] => false
  end.

(** [s.endsWith(p)] *)
Definition endsWith (p s : str) : bool := startsWith (rev p) (rev s).

(** [s.indexOf(c)] for a one-character needle; [None] stands for -1. *)
Fixpoint indexOf (c : ascii) (s : str) : option nat :=
  match s with
  | [] => None
  | x :: s' => if chr_eqb x c then Some 0
               else match indexOf c s' with
                    | Some i => Some (S i)
                    | None => None
                    end
  end.

(** [s.slice(i)] and [s.slice(i, j)] for non-negative [i <= j]. *)
Definition slice_from (i : nat) (s : str) : str := skipn i s.
Definition slice (i j : nat) (s : str) : str := firstn (j - i) (skipn i s).

(** [s.slice(1, -1)] *)
Definition slice_1_m1 (s : str) : str := removelast (tl s).

(** Puts a character in front of the first piece of a split. *)
Definition cons_head (x : ascii) (ps : list str) : list str :=
  match ps with
  | p :: ps' => (x :: p) :: ps'
  | [] => [[x]]
  end.

(** [s.split(c)] for a one-character separator. *)
Fixpoint split_chr (c : ascii) (s : str) : list str :=
  match s with
  | [] => [[]]
  | x :: s' =>
      if chr_eqb x c then [] :: split_chr c s'
      else cons_head x (split_chr c s')
  end.

(** [parts.join(sep)] *)
Fixpoint join (sep : str) (parts : list str) : str :=
  match parts with
  | [] => []
  | p :: ps =>
      match ps with
      | [] => p
      | _ :: _ => p ++ sep ++ join sep ps
      end
  end.

(** [s.split(/\s+/)[0]] : the characters before the first white space. *)
Fixpoint before_ws (s : str) : str :=
  match s with
  | [] => []
  | c :: s' => if is_ws c then [] else c :: before_ws s'
  end.

(** [s.split(/\/\//)] : the pieces between the occurrences of "//", found
    from left to right without overlap. *)
Fixpoint split_slashes (s : str) : list str :=
  match s with
  | [] => [[]]
  | x :: s' =>
      match s' with
      | y :: s'' =>
          if chr_eqb x "/"%char && chr_eqb y "/"%char
          then [] :: split_slashes s''
          else cons_head x (split_slashes s')
      | [] => [[x]]
      end
  end.

(** ** Regular expressions

    A backtracking matcher in continuation-passing style, with the
    priorities of the ECMAScript matcher: the left alternative first,
    quantifiers greedy, and an iteration of a quantifier that consumes
    nothing rejected.  [rmatch r s c k] matches [r] at the start of [s]
    with captures [c] and hands the rest of the input to [k]. *)

Inductive re : Type :=
| Chr (p : ascii -> bool)
| Eps
| Eoi
| Seq (a b : re)
| Alt (a b : re)
| Opt (a : re)
| Star (a : re)
| Grp (n : nat) (a : re).

Definition Plus (a : re) : re := Seq a (Star a).

Definition caps := list (nat * str).

Fixpoint cap (n : nat) (c : caps) : option str :=
  match c with
  | [] => None
  | (m, w) :: c' => if Nat.eqb m n then Some w else cap n c'
  end.

Definition orelse {R : Type} (a b : option R) : option R :=
  match a with
  | Some x => Some x
  | None => b
  end.

Definition shorter (s' s : str) : bool := length s' <? length s.

(** The loop of a starred expression: at most [n] iterations of [body],
    as many as possible first. *)
Definition star_loop {R : Type}
    (body : str -> caps -> (str -> caps -> option R) -> option R)
    (k : str -> caps -> option R) : nat -> str -> caps -> option R :=
  fix star (n : nat) (s : str) (c : caps) {struct n} : option R :=
    match n with
    | 0 => k s c
    | S n' =>
        orelse
          (body s c (fun s' c' => if shorter s' s then star n' s' c' else None))
          (k s c)
    end.

Fixpoint rmatch {R : Type} (r : re) (s : str) (c : caps)
    (k : str -> caps -> option R) {struct r} : option R :=
  match r with
  | Chr p =>
      match s with
      | x :: s' => if p x then k s' c else None
      | [] => None
      end
  | Eps => k s c
  | Eoi =>
      match s with
      | [] => k s c
      | _ :: _ => None
      end
  | Seq a b => rmatch a s c (fun s' c' => rmatch b s' c' k)
  | Alt a b => orelse (rmatch a s c k) (rmatch b s c k)
  | Opt a =>
      orelse
        (rmatch a s c (fun s' c' => if shorter s' s then k s' c' else None))
        (k s c)
  | Star a => star_loop (rmatch a) k (length s) s c
  | Grp n a =>
      rmatch a s c
        (fun s' c' => k s' ((n, firstn (length s - length s') s) :: c'))
  end.

(** The continuation at the end of the expression. *)
Definition accept (s : str) (c : caps) : option (str * caps) := Some (s, c).

(** A match at the start of [s]: the rest of the input and the captures. *)
Definition match_here (r : re) (s : str) : option (str * caps) :=
  rmatch r s [] accept.

(** [r.exec] from a position: the leftmost position at or after the start
    of [s] where [r] matches.  The result is the input from the start of
    the match, the input after the match, and the captures. *)
Fixpoint search (r : re) (s : str) : option (str * str * caps) :=
  match match_here r s with
  | Some (rest, c) => Some (s, rest, c)
  | None =>
      match s with
      | [] => None
      | _ :: s' => search r s'
      end
  end.

(** [r.test(s)] *)
Definition test (r : re) (s : str) : bool :=
  match search r s with
  | Some _ => true
  | None => false
  end.

(** [/^r/.test(s)] *)
Definition test_start (r : re) (s : str) : bool :=
  match match_here r s with
  | Some _ => true
  | None => false
  end.

(** [s.replace(/r/g, f)] for an [r] that matches no empty string; [f] gives
    the replacement from the captures.  [skip] counts the characters of
    the current match that are still to be passed over. *)
Fixpoint replace_go (r : re) (f : caps -> str) (skip : nat) (s : str) : str :=
  match s with
  | [] => []
  | x :: s' =>
      match skip with
      | S k => replace_go r f k s'
      | 0 =>
          match match_here r s with
          | Some (rest, c) =>
              match length s - length rest with
              | 0 => x :: replace_go r f 0 s'
              | S k => f c ++ replace_go r f k s'
              end
          | None => x :: replace_go r f 0 s'
          end
      end
  end.

Definition replace_all (r : re) (f : caps -> str) (s : str) : str :=
  replace_go r f 0 s.

(** A literal as a regular expression. *)
Fixpoint Lit (cmp : ascii -> ascii -> bool) (w : str) : re :=
  match w with
  | [] => Eps
  | x :: w' => Seq (Chr (cmp x)) (Lit cmp w')
  end.

Definition to_lower (c : ascii) : ascii :=
  if is_upper c then ascii_of_N (code c + 32) else c.

(** Comparison under the [i] flag: among the code units below 256 only
    the ASCII letters have a partner of the other case that the flag
    identifies with them when the pattern is made of ASCII letters. *)
Definition chr_eqb_ci (a b : ascii) : bool := chr_eqb (to_lower a) (to_lower b).

(** ** src/tools/tools.js *)

Definition GET : str := lit "get".
Definition SET : str := lit "set".
Definition ADD : str := lit "add".
Definition DELETE : str := lit "delete".
Definition LIST : str := lit "list".
Definition CHECK : str := lit "check".

(** [/list/i] *)
Definition re_list_i : re := Lit chr_eqb_ci (lit "list").

(** [getVerbFromActionName(actionName)]; [None] is [null].  The second test,
    [!actionName], is true of the empty string. *)
Definition getVerbFromActionName (actionName : option str) : option str :=
  match actionName with
  | None => None
  | Some [] => None
  | Some a =>
      let actionName := trim a in
      if startsWith (lit "get") actionName then Some GET
      else if startsWith (lit "set") actionName then Some SET
      else if startsWith (lit "add") actionName then Some ADD
      else if startsWith (lit "delete") actionName then Some DELETE
      else if test re_list_i actionName then Some LIST
      else if startsWith (lit "check") actionName then Some CHECK
      else Some CHECK
  end.

(** ** Outcomes of calls

    A method that mutates its receiver and may throw is a function from
    the state of the receiver to its state when the call ends and the
    value returned or the error thrown. *)

Inductive error : Type :=
| EntityNameSpaces (n : str)
| EntityNameEmpty
| PropertyNameSpaces (n : str)
| PropertyNameEmpty
| VerbSpaces (n : str)
| VerbEmpty
| SectionNameSpaces (n : str)
| SectionNameEmpty
| SectionExists (n : str)
| FieldExists (n : str)
| RecordExists (n : str)
| InvalidField (line : str)
| TypeError.

Inductive result (A : Type) : Type :=
| Ok (a : A)
| Throw (e : error).

Arguments Ok {A} a.
Arguments Throw {A} e.

Definition M (S A : Type) : Type := S -> S * result A.

Definition ret {S A : Type} (a : A) : M S A := fun s => (s, Ok a).

Definition throw {S A : Type} (e : error) : M S A := fun s => (s, Throw e).

Definition bind {S A B : Type} (m : M S A) (f : A -> M S B) : M S B :=
  fun s =>
    match m s with
    | (s', Ok a) => f a s'
    | (s', Throw e) => (s', Throw e)
    end.

Notation "x <- m ;; k" := (bind m (fun x => k))
  (at level 61, m at next level, right associativity).

(** The value of a constructor call, which has no receiver. *)
Definition bindR {A B : Type} (m : result A) (f : A -> result B) : result B :=
  match m with
  | Ok a => f a
  | Throw e => Throw e
  end.

(** A constructor call inside a method. *)
Definition liftR {S A : Type} (m : result A) : M S A := fun s => (s, m).

(** ** JavaScript [Map]: keys in insertion order *)

Section JsMap.
Variable V : Type.

Definition jsmap : Type := list (str * V).

Fixpoint map_get (k : str) (m : jsmap) : option V :=
  match m with
  | [] => None
  | (k', v) :: m' => if str_eqb k' k then Some v else map_get k m'
  end.

Definition map_has (k : str) (m : jsmap) : bool :=
  match map_get k m with
  | Some _ => true
  | None => false
  end.

(** [m.set(k, v)] : a key that is present keeps its place. *)
Fixpoint map_set (k : str) (v : V) (m : jsmap) : jsmap :=
  match m with
  | [] => [(k, v)]
  | (k', v') :: m' =>
      if str_eqb k' k then (k', v) :: m' else (k', v') :: map_set k v m'
  end.

Fixpoint map_delete (k : str) (m : jsmap) : jsmap :=
  match m with
  | [] => []
  | (k', v') :: m' =>
      if str_eqb k' k then m' else (k', v') :: map_delete k m'
  end.

Definition map_keys (m : jsmap) : list str := map fst m.
Definition map_values (m : jsmap) : list V := map snd m.
End JsMap.

(** JavaScript truthiness of a [string|null]. *)
Definition truthy (o : option str) : bool :=
  match o with
  | Some (_ :: _) => true
  | _ => false
  end.

(** ** A plain object used as a dictionary ([const attributes = {}])

    Own string-keyed properties in creation order, and whether the
    prototype has been set to [null].  An assignment to ["__proto__"]
    reaches the accessor inherited from [Object.prototype] as long as the
    prototype is there: it sets the prototype when the value is [null],
    does nothing when it is a string, and in both cases creates no own
    property. *)

Record jsobj : Type := mkObj {
  proto_null : bool;
  props : jsmap (option str)
}.

Definition obj_empty : jsobj := mkObj false [].

Definition obj_set (name : str) (value : option str) (o : jsobj) : jsobj :=
  if str_eqb name (lit "__proto__") && negb (proto_null o) then
    match value with
    | None => mkObj true (props o)
    | Some _ => o
    end
  else mkObj (proto_null o) (map_set name value (props o)).

Fixpoint digits_value (acc : N) (s : str) : N :=
  match s with
  | [] => acc
  | c :: s' => digits_value (acc * 10 + (code c - 48)) s'
  end.

(** The array index a property key denotes, if any: a canonical decimal
    numeral below 2^32 - 1. *)
Definition array_index (k : str) : option N :=
  match k with
  | [] => None
  | c :: rest =>
      if forallb is_digit k &&
         (negb (chr_eqb c "0"%char) || match rest with [] => true | _ => false end)
      then
        let n := digits_value 0 k in
        if (n <? 4294967295)%N then Some n else None
      else None
  end.

Fixpoint insert_index {V : Type} (n : N) (e : str * V)
    (l : list (N * (str * V))) : list (N * (str * V)) :=
  match l with
  | [] => [(n, e)]
  | (m, e') :: l' =>
      if (n <? m)%N then (n, e) :: l else (m, e') :: insert_index n e l'
  end.

Fixpoint index_entries {V : Type} (l : list (str * V)) : list (N * (str * V)) :=
  match l with
  | [] => []
  | (k, v) :: l' =>
      match array_index k with
      | Some n => insert_index n (k, v) (index_entries l')
      | None => index_entries l'
      end
  end.

Fixpoint named_entries {V : Type} (l : list (str * V)) : list (str * V) :=
  match l with
  | [] => []
  | (k, v) :: l' =>
      match array_index k with
      | Some _ => named_entries l'
      | None => (k, v) :: named_entries l'
      end
  end.

(** [Object.entries(o)] : the array-index keys in ascending order, then
    the other keys in creation order. *)
Definition Object_entries (o : jsobj) : list (str * option str) :=
  map snd (index_entries (props o)) ++ named_entries (props o).

(** ** src/tree/field.js *)

Record field : Type := mkField {
  Field_name : str;
  Field_attributes : jsmap (option str);
  Field_isOptional : bool;
  Field_defaultValue : option str;
  Field_description : option str
}.

(** [new Field(name, isOptional = false, defaultValue = null,
    description = null)] : no argument is checked. *)
Definition Field_new (name : str) (isOptional : bool)
    (defaultValue description : option str) : field :=
  mkField name [] isOptional defaultValue description.

Definition Field_hasAttribute (name : str) (f : field) : bool :=
  map_has name (Field_attributes f).

(** [this.attributes.get(name) || null] *)
Definition Field_getAttribute (name : str) (f : field) : option str :=
  match map_get name (Field_attributes f) with
  | Some v => if truthy v then v else None
  | None => None
  end.

Definition Field_deleteAttribute (name : str) (f : field) : field :=
  mkField (Field_name f) (map_delete name (Field_attributes f))
    (Field_isOptional f) (Field_defaultValue f) (Field_description f).

(** [setAttribute(name, value = null)], for a [value] that is a string or
    [null]. *)
Definition Field_setAttribute (name : str) (value : option str) (f : field)
    : field :=
  mkField (Field_name f) (map_set name value (Field_attributes f))
    (Field_isOptional f) (Field_defaultValue f) (Field_description f).

Definition Field_set_description (d : option str) (f : field) : field :=
  mkField (Field_name f) (Field_attributes f)
    (Field_isOptional f) (Field_defaultValue f) d.

(** The patterns of the serializer: a double quote, a single quote, and
    a line feed with an optional carriage return before it. *)
Definition re_dquote : re := Chr (is_chr dquote).
Definition re_squote : re := Chr (is_chr squote).
Definition re_newline : re :=
  Seq (Opt (Chr (is_chr carriage))) (Chr (is_chr newline)).

(** The three [replace] calls of [#attrsToString]: a backslash goes in
    front of every double quote, then of every single quote, and a line
    break becomes a backslash and the letter n. *)
Definition escape_value (v : str) : str :=
  replace_all re_newline (fun _ => lit "\n")
    (replace_all re_squote (fun _ => [backslash; squote])
       (replace_all re_dquote (fun _ => [backslash; dquote]) v)).

(** The two [replace] calls of [#descriptionToString]: a double quote
    becomes the entity &quot; and a line break a backslash and the
    letter n. *)
Definition escape_description (d : str) : str :=
  replace_all re_newline (fun _ => lit "\n")
    (replace_all re_dquote (fun _ => lit "&quot;") d).

Definition attr_to_string (e : str * option str) : str :=
  let (name, value) := e in
  match value with
  | Some ((_ :: _) as v) => name ++ lit "=" ++ [dquote] ++ escape_value v ++ [dquote]
  | _ => name
  end.

(** [#attrsToString()] *)
Definition Field_attrsToString (f : field) : str :=
  join (lit " ") (map attr_to_string (Field_attributes f)).

(** [#descriptionToString()], the same in [Field] and in [Record]. *)
Definition descriptionToString (description : option str) : str :=
  match description with
  | Some ((_ :: _) as d) => trim (lit "// " ++ escape_description d)
  | _ => []
  end.

(** A [string|null] inside a template literal. *)
Definition interpolate (o : option str) : str :=
  match o with
  | Some v => v
  | None => lit "null"
  end.

Definition Field_stringify (f : field) : str :=
  let nameStr :=
    if Field_isOptional f
    then lit "[" ++ Field_name f ++ lit "=" ++ [dquote]
         ++ interpolate (Field_defaultValue f) ++ [dquote] ++ lit "]"
    else Field_name f in
  let attrs := Field_attrsToString f in
  let desc := descriptionToString (Field_description f) in
  trim (nameStr ++ lit "    " ++ attrs ++ lit " " ++ desc).

(** ** src/tree/section.js *)

Record section : Type := mkSection {
  Section_name : str;
  Section_fields : jsmap field
}.

Definition Section_new (name : str) : result section :=
  if has_ws name then Throw (SectionNameSpaces name)
  else if Nat.eqb (length name) 0 then Throw SectionNameEmpty
  else Ok (mkSection name []).

Definition Section_hasField (name : str) (s : section) : bool :=
  map_has name (Section_fields s).

Definition Section_addField (f : field) : M section unit :=
  fun s =>
    if Section_hasField (Field_name f) s
    then (s, Throw (FieldExists (Field_name f)))
    else (mkSection (Section_name s)
            (map_set (Field_name f) f (Section_fields s)), Ok tt).

Definition Section_getField (name : str) (s : section) : option field :=
  map_get name (Section_fields s).

Definition Section_setField (f : field) : M section unit :=
  fun s =>
    (mkSection (Section_name s)
       (map_set (Field_name f) f (Section_fields s)), Ok tt).

Definition Section_deleteField (name : str) : M section unit :=
  fun s =>
    (mkSection (Section_name s) (map_delete name (Section_fields s)), Ok tt).

Definition Section_getFields (s : section) : list field :=
  map_values (Section_fields s).

(** [stringify(padding = "    ")] *)
Definition Section_stringify (padding : str) (s : section) : str :=
  let fieldsArray := map Field_stringify (map_values (Section_fields s)) in
  let fields := join [newline] (map (fun f => padding ++ f) fieldsArray) in
  if str_eqb (Section_name s) (lit "main")
  then fields ++ [newline]
  else padding ++ lit "@" ++ Section_name s ++ [newline] ++ fields ++ [newline].

Definition padding4 : str := lit "    ".

(** ** src/tree/record.js

    The field [mainSection], a second reference to the section that the
    constructor stores under main, is written by the constructor alone
    and read by no method; it is left out, so that a [record] is what the
    methods read.  In the code it holds the first main section still
    after [setSection] or [deleteSection] have taken that section out of
    the map. *)

Record record : Type := mkRecord {
  Record_entityName : str;
  Record_propertyName : option str;
  Record_verb : option str;
  Record_sections : jsmap section;
  Record_description : option str
}.

Definition Record_new (entityName : str) (propertyName verb : option str)
    (description : option str) : result record :=
  if has_ws entityName then Throw (EntityNameSpaces entityName)
  else if Nat.eqb (length entityName) 0 then Throw EntityNameEmpty
  else if truthy propertyName && has_ws (interpolate propertyName)
  then Throw (PropertyNameSpaces (interpolate propertyName))
  else if truthy propertyName && Nat.eqb (length (interpolate propertyName)) 0
  then Throw PropertyNameEmpty
  else if truthy verb && has_ws (interpolate verb)
  then Throw (VerbSpaces (interpolate verb))
  else if truthy verb && Nat.eqb (length (interpolate verb)) 0
  then Throw VerbEmpty
  else
    bindR (Section_new (lit "main")) (fun mainSection =>
    Ok (mkRecord entityName propertyName verb
          [(lit "main", mainSection)] description)).

Definition Record_getFullName (r : record) : str :=
  let name := Record_entityName r in
  let name :=
    if truthy (Record_propertyName r)
    then name ++ lit "." ++ interpolate (Record_propertyName r) else name in
  let name :=
    if truthy (Record_verb r)
    then name ++ lit "." ++ interpolate (Record_verb r) else name in
  name.

Definition Record_set_sections (m : jsmap section) (r : record) : record :=
  mkRecord (Record_entityName r) (Record_propertyName r) (Record_verb r)
    m (Record_description r).

Definition Record_hasSection (name : str) (r : record) : bool :=
  map_has name (Record_sections r).

Definition Record_getSection (name : str) (r : record) : option section :=
  map_get name (Record_sections r).

(** [addSection(name)] returns the new section, which is also the one now
    stored under [name]. *)
Definition Record_addSection (name : str) : M record section :=
  fun r =>
    if Record_hasSection name r then (r, Throw (SectionExists name))
    else
      match Section_new name with
      | Throw e => (r, Throw e)
      | Ok s => (Record_set_sections (map_set name s (Record_sections r)) r, Ok s)
      end.

Definition Record_deleteSection (name : str) : M record unit :=
  fun r => (Record_set_sections (map_delete name (Record_sections r)) r, Ok tt).

Definition Record_setSection (s : section) : M record unit :=
  fun r =>
    (Record_set_sections (map_set (Section_name s) s (Record_sections r)) r,
     Ok tt).

Definition Record_getSections (r : record) : list section :=
  map_values (Record_sections r).

(** Runs a method of the section object stored under [name]: the object
    is shared with the map, so the map sees what the method did. *)
Definition on_section {A : Type} (name : str) (m : M section A) : M record A :=
  fun r =>
    match map_get name (Record_sections r) with
    | Some s =>
        let (s', out) := m s in
        (Record_set_sections (map_set name s' (Record_sections r)) r, out)
    | None => (r, Throw TypeError)
    end.

(** [addField(field, sectionName = "main")] *)
Definition Record_addField (f : field) (sectionName : str) : M record unit :=
  fun r =>
    match map_get sectionName (Record_sections r) with
    | Some _ => on_section sectionName (Section_addField f) r
    | None =>
        (_ <- Record_addSection sectionName ;;
         on_section sectionName (Section_addField f)) r
    end.

Definition Record_getField (name sectionName : str) (r : record)
    : option field :=
  match map_get sectionName (Record_sections r) with
  | Some s => Section_getField name s
  | None => None
  end.

Definition Record_hasField (name sectionName : str) (r : record) : bool :=
  match map_get sectionName (Record_sections r) with
  | Some s => Section_hasField name s
  | None => false
  end.

(** [setField(field, sectionName = "main")] *)
Definition Record_setField (f : field) (sectionName : str) : M record unit :=
  fun r =>
    match map_get sectionName (Record_sections r) with
    | Some _ => on_section sectionName (Section_setField f) r
    | None =>
        (_ <- Record_addSection sectionName ;;
         on_section sectionName (Section_setField f)) r
    end.

(** [deleteField(name, sectionName = "main")] *)
Definition Record_deleteField (name sectionName : str) : M record unit :=
  fun r =>
    match map_get sectionName (Record_sections r) with
    | Some _ => on_section sectionName (Section_deleteField name) r
    | None => (r, Ok tt)
    end.

Definition Record_stringify (r : record) : str :=
  let name := Record_getFullName r in
  let desc := descriptionToString (Record_description r) in
  join [newline]
    (trim (name ++ lit "    " ++ desc)
     :: map (Section_stringify padding4) (map_values (Record_sections r))).

(** ** src/tree/tree.js *)

Record tree : Type := mkTree {
  Tree_records : jsmap record
}.

Definition Tree_new : tree := mkTree [].

(** [addRecord(entityName, propertyName = null, verb = null,
    description = null)] *)
Definition Tree_addRecord (entityName : str) (propertyName verb : option str)
    (description : option str) : M tree record :=
  fun t =>
    match Record_new entityName propertyName verb description with
    | Throw e => (t, Throw e)
    | Ok r =>
        let fullName := Record_getFullName r in
        if map_has fullName (Tree_records t)
        then (t, Throw (RecordExists fullName))
        else (mkTree (map_set fullName r (Tree_records t)), Ok r)
    end.

Definition Tree_hasRecord (fullName : str) (t : tree) : bool :=
  map_has fullName (Tree_records t).

Definition Tree_getRecord (fullName : str) (t : tree) : option record :=
  map_get fullName (Tree_records t).

Definition Tree_deleteRecord (fullName : str) : M tree unit :=
  fun t => (mkTree (map_delete fullName (Tree_records t)), Ok tt).

Definition Tree_setRecord (r : record) : M tree unit :=
  fun t => (mkTree (map_set (Record_getFullName r) r (Tree_records t)), Ok tt).

Definition Tree_getRecords (t : tree) : list record :=
  map_values (Tree_records t).

Definition Tree_getRecordNames (t : tree) : list str :=
  map_keys (Tree_records t).

Definition Tree_stringify (t : tree) : str :=
  join [newline; newline] (map Record_stringify (map_values (Tree_records t))).

(** ** src/tools/treeFromString.js *)

(** [line.startsWith("@")] *)
Definition isSectionDeclaration (line : str) : bool :=
  startsWith (lit "@") line.

(** [!/^\s/.test(line) && !isSectionDeclaration(line)] *)
Definition isRecordDeclaration (line : str) : bool :=
  negb (test_start (Chr is_ws) line) && negb (isSectionDeclaration line).

Record declaration : Type := mkDeclaration {
  d_entityName : str;
  d_propertyName : option str;
  d_actionName : option str;
  d_description : option str
}.

(** [nameParts.join(".")] after [shift] and [pop], and the part popped. *)
Definition parseRecordDeclaration (line : str) : declaration :=
  let line := trim line in
  let fullName := before_ws line in
  let description := option_map trim (nth_error (split_slashes line) 1) in
  let nameParts := split_chr "."%char fullName in
  let entityName := hd [] nameParts in
  let nameParts := tl nameParts in
  let actionName :=
    match nameParts with
    | [] => None
    | _ :: _ => Some (last nameParts [])
    end in
  let nameParts := removelast nameParts in
  let propertyName :=
    match nameParts with
    | [] => None
    | _ :: _ => Some (join (lit ".") nameParts)
    end in
  mkDeclaration entityName propertyName actionName description.

(** The class [[\w_\.]]. *)
Definition is_section_chr (c : ascii) : bool :=
  is_word c || chr_eqb c "_"%char || chr_eqb c "."%char.

(** [/^@([\w_\.]+)/] *)
Definition re_section : re :=
  Seq (Chr (is_chr "@"%char)) (Grp 1 (Plus (Chr is_section_chr))).

Definition parseSectionDeclaration (line : str) : option str :=
  match match_here re_section line with
  | Some (_, c) => cap 1 c
  | None => None
  end.

(** The class [[^\s=]]. *)
Definition is_attr_name_chr (c : ascii) : bool :=
  negb (is_ws c) && negb (chr_eqb c "="%char).

Definition is_not (q : ascii) : ascii -> bool := fun c => negb (chr_eqb c q).

(** Inside a quoted value of [attrRegex]: a backslash and the quote [q],
    or a character other than [q]. *)
Definition re_quoted_chr (q : ascii) : re :=
  Alt (Seq (Chr (is_chr backslash)) (Chr (is_chr q))) (Chr (is_not q)).

(** A quoted value of [attrRegex]: the quote [q], any number of
    [re_quoted_chr q], and [q]. *)
Definition re_quoted (q : ascii) : re :=
  Seq (Chr (is_chr q)) (Seq (Star (re_quoted_chr q)) (Chr (is_chr q))).

(** The value part of [attrRegex]: double-quoted, single-quoted, or a
    run of characters that are not white space. *)
Definition re_attr_value : re :=
  Alt (re_quoted dquote)
    (Alt (re_quoted squote)
       (Seq (Opt (Chr (is_chr "$"%char)))
            (Star (Chr (fun c => negb (is_ws c)))))).

(** The name part of [attrRegex]: an optional dollar and one or more
    characters of [[^\s=]]. *)
Definition re_attr_name : re :=
  Seq (Opt (Chr (is_chr "$"%char))) (Plus (Chr is_attr_name_chr)).

(** What may follow the name in [attrRegex]: white space, an equals sign,
    white space and the value (group 2); or the end of the input; or
    nothing. *)
Definition re_attr_tail : re :=
  Opt (Alt
         (Seq (Star (Chr is_ws))
            (Seq (Chr (is_chr "="%char))
               (Seq (Star (Chr is_ws)) (Grp 2 re_attr_value))))
         Eoi).

(** [attrRegex] : the name is group 1. *)
Definition attrRegex : re := Seq (Grp 1 re_attr_name) re_attr_tail.

(** A backslash followed by a quote of either kind, the quote being
    group 1. *)
Definition re_escaped_quote : re :=
  Seq (Chr (is_chr backslash))
    (Grp 1 (Chr (fun c => chr_eqb c dquote || chr_eqb c squote))).

Definition group1 (c : caps) : str :=
  match cap 1 c with
  | Some w => w
  | None => []
  end.

(** The value stored for a match of [attrRegex] whose group 2 is
    [rawValue]. *)
Definition attr_value (rawValue : option str) : option str :=
  match rawValue with
  | Some ((_ :: _) as raw) =>
      if (startsWith [dquote] raw && endsWith [dquote] raw)
         || (startsWith [squote] raw && endsWith [squote] raw)
      then Some (replace_all re_escaped_quote group1 (slice_1_m1 raw))
      else Some raw
  | _ => None
  end.

(** The [while] loop of [parseHtmlAttributes] from the position where the
    rest of the input is [s].  Every match consumes a character, so
    [S (length s)] rounds are enough. *)
Fixpoint attrs_loop (fuel : nat) (s : str) (attributes : jsobj)
    : jsobj * option str :=
  match fuel with
  | 0 => (attributes, None)
  | S fuel' =>
      match search attrRegex s with
      | None => (attributes, None)
      | Some (from_match, rest, c) =>
          let name := group1 c in
          if startsWith (lit "//") name then
            let comment := trim (skipn 2 from_match) in
            (attributes,
             match comment with
             | [] => None
             | _ :: _ => Some comment
             end)
          else attrs_loop fuel' rest (obj_set name (attr_value (cap 2 c)) attributes)
      end
  end.

Definition parseHtmlAttributes (inputString : str) : jsobj * option str :=
  attrs_loop (S (length inputString)) inputString obj_empty.

(** The class [[a-zA-Z0-9_\.]]. *)
Definition is_field_name_chr (c : ascii) : bool :=
  is_lower c || is_upper c || is_digit c
  || chr_eqb c "_"%char || chr_eqb c "."%char.

(** [/^([a-zA-Z0-9_\.]+)/] *)
Definition re_field_name : re := Grp 1 (Plus (Chr is_field_name_chr)).

(** The end of [parseField], common to its two branches. *)
Definition parseField_finish (fieldName : str) (isOptional : bool)
    (defaultValue : option str) (attrsStr : str) : field :=
  let field := Field_new fieldName isOptional defaultValue None in
  let (attrs, comment) := parseHtmlAttributes attrsStr in
  let field :=
    fold_left (fun f e => Field_setAttribute (fst e) (snd e) f)
      (Object_entries attrs) field in
  Field_set_description comment field.

Definition parseField (line : str) : result field :=
  if startsWith (lit "[") line then
    match indexOf "]"%char line with
    | None => Throw (InvalidField line)
    | Some end_ =>
        let f := slice 1 end_ line in
        let (attrs, _) := parseHtmlAttributes f in
        match Object_entries attrs with
        | [] => Throw TypeError
        | (name, value) :: _ =>
            Ok (parseField_finish name true value
                  (trim (slice_from (end_ + 1) line)))
        end
    end
  else
    match match_here re_field_name line with
    | Some (_, c) =>
        match cap 1 c with
        | Some ((_ :: _) as fieldName) =>
            let isOptional :=
              match nth_error line (length fieldName) with
              | Some x => chr_eqb x "?"%char
              | None => false
              end in
            Ok (parseField_finish fieldName isOptional None
                  (trim (slice_from
                           (length fieldName + (if isOptional then 1 else 0))
                           line)))
        | _ => Throw (InvalidField line)
        end
    | None => Throw (InvalidField line)
    end.

(** The variables of [treeFromString].  [currentRecord] refers to a record
    object that is also stored in the tree; the reference is modelled by
    the key under which [addRecord] stored it, which the loop never
    deletes or overwrites. *)
Record pstate : Type := mkState {
  ps_tree : tree;
  ps_currentRecord : option str;
  ps_currentSectionName : str
}.

(** Runs a method of the record object stored under [key]. *)
Definition on_record {A : Type} (key : str) (m : M record A) : M tree A :=
  fun t =>
    match map_get key (Tree_records t) with
    | Some r =>
        let (r', out) := m r in
        (mkTree (map_set key r' (Tree_records t)), out)
    | None => (t, Throw TypeError)
    end.

(** One round of the [for] loop. *)
Definition parse_line (st : pstate) (line : str) : result pstate :=
  if str_eqb (trim line) [] then Ok st
  else if isRecordDeclaration line then
    let d := parseRecordDeclaration line in
    match Tree_addRecord (d_entityName d) (d_propertyName d)
            (d_actionName d) (d_description d) (ps_tree st) with
    | (t, Ok r) => Ok (mkState t (Some (Record_getFullName r)) (lit "main"))
    | (_, Throw e) => Throw e
    end
  else
    match ps_currentRecord st with
    | None => Ok st
    | Some key =>
        let line := trim line in
        if isSectionDeclaration line then
          match parseSectionDeclaration line with
          | Some ((_ :: _) as sectionName) =>
              match on_record key (Record_addSection sectionName)
                      (ps_tree st) with
              | (t, Ok _) => Ok (mkState t (Some key) sectionName)
              | (_, Throw e) => Throw e
              end
          | _ => Ok st
          end
        else if str_eqb line [] then Ok st
        else
          match parseField line with
          | Throw e => Throw e
          | Ok field =>
              match on_record key
                      (Record_addField field (ps_currentSectionName st))
                      (ps_tree st) with
              | (t, Ok _) =>
                  Ok (mkState t (Some key) (ps_currentSectionName st))
              | (_, Throw e) => Throw e
              end
          end
    end.

Fixpoint parse_lines (st : pstate) (lines : list str) : result pstate :=
  match lines with
  | [] => Ok st
  | line :: lines' =>
      match parse_line st line with
      | Ok st' => parse_lines st' lines'
      | Throw e => Throw e
      end
  end.

Definition treeFromString (treeString : str) : result tree :=
  let lines := split_chr newline treeString in
  match parse_lines (mkState Tree_new None (lit "main")) lines with
  | Ok st => Ok (ps_tree st)
  | Throw e => Throw e
  end.

(** ** dist/meta-tree.esm.js : the [Record] of the bundled build

    The bundle was built from a [record.js] whose constructor takes the
    action name, keeps it in [actionName], and computes [verb] from it. *)

Module Dist.

Record record : Type := mkRecord {
  Record_entityName : str;
  Record_propertyName : option str;
  Record_actionName : option str;
  Record_verb : option str;
  Record_sections : jsmap section;
  Record_description : option str
}.

Definition Record_new (entityName : str) (propertyName actionName : option str)
    (description : option str) : result record :=
  let verb := getVerbFromActionName actionName in
  if has_ws entityName then Throw (EntityNameSpaces entityName)
  else if Nat.eqb (length entityName) 0 then Throw EntityNameEmpty
  else if truthy propertyName && has_ws (interpolate propertyName)
  then Throw (PropertyNameSpaces (interpolate propertyName))
  else if truthy propertyName && Nat.eqb (length (interpolate propertyName)) 0
  then Throw PropertyNameEmpty
  else
    bindR (Section_new (lit "main")) (fun mainSection =>
    Ok (mkRecord entityName propertyName actionName verb
          [(lit "main", mainSection)] description)).

Definition Record_getFullName (r : record) : str :=
  let name := Record_entityName r in
  let name :=
    if truthy (Record_propertyName r)
    then name ++ lit "." ++ interpolate (Record_propertyName r) else name in
  let name :=
    if truthy (Record_actionName r)
    then name ++ lit "." ++ interpolate (Record_actionName r) else name in
  name.

(** What [Tree.addRecord] builds for a declaration line. *)
Definition record_of_line (line : str) : result record :=
  let d := parseRecordDeclaration line in
  Record_new (d_entityName d) (d_propertyName d) (d_actionName d)
    (d_description d).

End Dist.

(** ** The statements of the specification, as definitions *)

(** A double-quoted literal. *)
Definition dq (s : string) : str := [dquote] ++ lit s ++ [dquote].

(** [p] is a prefix of [s] when the case of ASCII letters is ignored. *)
Fixpoint prefix_ci (p s : str) : bool :=
  match p, s with
  | [], _ => true
  | x :: p', y :: s' => chr_eqb_ci x y && prefix_ci p' s'
  | _ :: _, [] => false
  end.

(** [p] occurs in [s] when the case of ASCII letters is ignored. *)
Fixpoint contains_ci (p s : str) : bool :=
  prefix_ci p s ||
  match s with
  | [] => false
  | _ :: s' => contains_ci p s'
  end.

(** The rules of the verb classifier on a name, first match first. *)
Definition verb_rules (name : str) : str :=
  if startsWith (lit "get") name then GET
  else if startsWith (lit "set") name then SET
  else if startsWith (lit "add") name then ADD
  else if startsWith (lit "delete") name then DELETE
  else if contains_ci (lit "list") name then LIST
  else if startsWith (lit "check") name then CHECK
  else CHECK.

(** The classifier as the specification words it: the rules are read on
    the input as it is given. *)
Definition classifyVerb_spec (actionName : option str) : option str :=
  match actionName with
  | None => None
  | Some [] => None
  | Some name => Some (verb_rules name)
  end.

(** [if (part) name += "." + part], in closed form: the test is the
    truthiness of the part, so that a part is written, after a dot, when
    it is neither [null] nor the empty string. *)
Definition dotted (part : option str) : str :=
  match part with
  | Some ((_ :: _) as p) => lit "." ++ p
  | _ => []
  end.

(** The full name that [getFullName] builds, in closed form. *)
Definition fullName_truthy (entityName : str) (propertyName actionName : option str)
    : str :=
  entityName ++ dotted propertyName ++ dotted actionName.



(** The text after the first "//" of a line, if there is one. *)
Fixpoint after_slashes (s : str) : option str :=
  match s with
  | [] => None
  | x :: s' =>
      match s' with
      | y :: s'' =>
          if chr_eqb x "/"%char && chr_eqb y "/"%char then Some s''
          else after_slashes s'
      | [] => None
      end
  end.

(** The description of a declaration line as the specification words
    it: all the text after the first "//", trimmed. *)
Definition description_spec (line : str) : option str :=
  option_map trim (after_slashes (trim line)).

(** The operations on a record that change it.  The field operations take
    an optional section name, which defaults to "main". *)
Inductive record_op : Type :=
| OpAddSection (name : str)
| OpDeleteSection (name : str)
| OpSetSection (s : section)
| OpAddField (f : field) (sectionName : option str)
| OpSetField (f : field) (sectionName : option str)
| OpDeleteField (name : str) (sectionName : option str).

Definition default_main (sectionName : option str) : str :=
  match sectionName with
  | Some n => n
  | None => lit "main"
  end.

Definition run_op (op : record_op) : M record unit :=
  match op with
  | OpAddSection name => _ <- Record_addSection name ;; ret tt
  | OpDeleteSection name => Record_deleteSection name
  | OpSetSection s => Record_setSection s
  | OpAddField f o => Record_addField f (default_main o)
  | OpSetField f o => Record_setField f (default_main o)
  | OpDeleteField name o => Record_deleteField name (default_main o)
  end.

(** The record after a sequence of calls, each one carried on after
    whatever the call before left, thrown error or not. *)
Fixpoint run_ops (ops : list record_op) (r : record) : record :=
  match ops with
  | [] => r
  | op :: ops' => run_ops ops' (fst (run_op op r))
  end.

Definition deletes_main (op : record_op) : bool :=
  match op with
  | OpDeleteSection name => str_eqb name (lit "main")
  | _ => false
  end.

(** The end-to-end example of the specification: a declaration line and
    two field lines. *)
Definition example_update : str :=
  lit "user.profile.update    // Updates a profile" ++ [newline]
  ++ lit "    username    maxLength=" ++ dq "32" ++ [newline]
  ++ lit "    password?" ++ [newline].

Definition example_port_line : str :=
  lit "[port=" ++ dq "8080" ++ lit "] min=" ++ dq "1" ++ lit " max="
  ++ dq "65535" ++ lit " // Port number".

(** The record that the constructor builds from valid names. *)
Definition fresh_record (e : str) (p v d : option str) : record :=
  mkRecord e p v [(lit "main", mkSection (lit "main") [])] d.

(** The matches of a regular expression, without the priorities:
    [mrel r s c s' c'] says that [r] can match at the start of [s], with
    captures [c], leaving the input [s'] and the captures [c']. *)
Inductive iter (P : str -> caps -> str -> caps -> Prop)
    : str -> caps -> str -> caps -> Prop :=
| iter_nil (s : str) (c : caps) : iter P s c s c
| iter_cons (s : str) (c : caps) (s1 : str) (c1 : caps) (s2 : str) (c2 : caps) :
    P s c s1 c1 -> iter P s1 c1 s2 c2 -> iter P s c s2 c2.

Fixpoint mrel (r : re) (s : str) (c : caps) (s' : str) (c' : caps) : Prop :=
  match r with
  | Chr p => exists x, s = x :: s' /\ p x = true /\ c' = c
  | Eps => s' = s /\ c' = c
  | Eoi => s = [] /\ s' = [] /\ c' = c
  | Seq a b => exists s1 c1, mrel a s c s1 c1 /\ mrel b s1 c1 s' c'
  | Alt a b => mrel a s c s' c' \/ mrel b s c s' c'
  | Opt a => (s' = s /\ c' = c) \/ mrel a s c s' c'
  | Star a => iter (mrel a) s c s' c'
  | Grp n a =>
      exists c1, mrel a s c s' c1
                 /\ c' = (n, firstn (length s - length s') s) :: c1
  end.

(** A regular expression without capture groups. *)
Fixpoint nogrp (r : re) : bool :=
  match r with
  | Chr _ | Eps | Eoi => true
  | Seq a b | Alt a b => nogrp a && nogrp b
  | Opt a | Star a => nogrp a
  | Grp _ _ => false
  end.

(** A name without white space that is not empty. *)
Definition good_name (n : str) : Prop := n <> [] /\ has_ws n = false.

(** A map all of whose keys are such names. *)
Definition good_keys (V : Type) (m : jsmap V) : Prop :=
  Forall (fun e => good_name (fst e)) m.

(** The head of [s] is not in the class [p]. *)
Definition stops (p : ascii -> bool) (s : str) : Prop :=
  match s with
  | [] => True
  | x :: _ => p x = false
  end.

(** ** Trees that the text format can carry *)

Definition has_chr (x : ascii) (s : str) : bool := existsb (is_chr x) s.

(** The last character of [s] is a backslash. *)
Fixpoint ends_bs (s : str) : bool :=
  match s with
  | [] => false
  | x :: s' =>
      match s' with
      | [] => chr_eqb x backslash
      | _ :: _ => ends_bs s'
      end
  end.

(** [s] has a backslash right before a quote of either kind. *)
Fixpoint has_escaped_quote (s : str) : bool :=
  match s with
  | [] => false
  | x :: s' =>
      match s' with
      | [] => false
      | y :: _ =>
          (chr_eqb x backslash && (chr_eqb y dquote || chr_eqb y squote))
          || has_escaped_quote s'
      end
  end.

(** The longest prefix of [s] in the class [p], and what follows it. *)
Fixpoint span (p : ascii -> bool) (s : str) : str * str :=
  match s with
  | [] => ([], [])
  | x :: s' =>
      if p x then let (w, r) := span p s' in (x :: w, r) else ([], s)
  end.

Fixpoint nodup_keys {V : Type} (m : jsmap V) : bool :=
  match m with
  | [] => true
  | (k, _) :: m' => negb (map_has k m') && nodup_keys m'
  end.

Definition nonempty (s : str) : bool :=
  match s with
  | [] => false
  | _ :: _ => true
  end.

Definition is_none {A : Type} (o : option A) : bool :=
  match o with
  | None => true
  | Some _ => false
  end.

(** An attribute name that the scanner reads back as one name, and that
    the dictionary of the scanner keeps in its place: no white space and
    no equals sign, not a comment marker, not [__proto__], not an array
    index. *)
Definition attr_name_ok (n : str) : bool :=
  nonempty n && forallb is_attr_name_chr n
  && negb (startsWith (lit "//") n)
  && negb (str_eqb n (lit "__proto__"))
  && is_none (array_index n).

(** An attribute value that is written and read back as it is: [null],
    or a string that is not empty, has no double quote and no line feed,
    and does not end with a backslash. *)
Definition attr_value_ok (v : option str) : bool :=
  match v with
  | None => true
  | Some v =>
      nonempty v && negb (has_chr dquote v) && negb (has_chr newline v)
      && negb (ends_bs v)
  end.

Definition description_ok (d : option str) : bool :=
  match d with
  | None => true
  | Some d => negb (has_chr dquote d) && negb (has_chr newline d)
  end.

(** A default value that is written and read back as it is. *)
Definition default_ok (d : str) : bool :=
  negb (has_chr dquote d) && negb (has_chr newline d)
  && negb (has_chr "]"%char d) && negb (has_escaped_quote d).

(** The name of an optional field, which is written between brackets. *)
Definition optional_name_ok (n : str) : bool :=
  nonempty n && forallb is_attr_name_chr n
  && negb (has_chr "]"%char n)
  && negb (startsWith (lit "//") n)
  && negb (str_eqb n (lit "__proto__")).

Definition field_ok (f : field) : bool :=
  nodup_keys (Field_attributes f)
  && forallb (fun e => attr_name_ok (fst e) && attr_value_ok (snd e))
       (Field_attributes f)
  && description_ok (Field_description f)
  && if Field_isOptional f
     then match Field_defaultValue f with
          | Some d => default_ok d
          | None => false
          end
          && optional_name_ok (Field_name f)
     else is_none (Field_defaultValue f)
          && nonempty (Field_name f)
          && forallb is_field_name_chr (Field_name f).

Definition section_ok (e : str * section) : bool :=
  let (k, s) := e in
  str_eqb k (Section_name s)
  && nonempty k && forallb is_section_chr k
  && nodup_keys (Section_fields s)
  && forallb (fun e => str_eqb (fst e) (Field_name (snd e)) && field_ok (snd e))
       (Section_fields s).

(** A full name that is one token, is not taken for a section header,
    and whose parts between dots are not empty. *)
Definition full_name_ok (n : str) : bool :=
  negb (has_ws n) && negb (startsWith (lit "@") n)
  && forallb nonempty (split_chr "."%char n).

Definition record_ok (e : str * record) : bool :=
  let (k, r) := e in
  str_eqb k (Record_getFullName r)
  && full_name_ok k
  && description_ok (Record_description r)
  && match Record_sections r with
     | (k0, _) :: _ => str_eqb k0 (lit "main")
     | [] => false
     end
  && nodup_keys (Record_sections r)
  && forallb section_ok (Record_sections r).

Definition tree_ok (t : tree) : bool :=
  nodup_keys (Tree_records t) && forallb record_ok (Tree_records t).

(** What the round trip keeps of a tree: the full names of the records,
    the names of the sections, and for each field its name, whether it is
    optional, its default value and its attributes, all in order. *)
Definition field_shape (f : field)
    : str * bool * option str * jsmap (option str) :=
  (Field_name f, Field_isOptional f, Field_defaultValue f, Field_attributes f).

Definition section_shape (s : section) :=
  (Section_name s,
   map (fun e => (fst e, field_shape (snd e))) (Section_fields s)).

Definition record_shape (r : record) :=
  (Record_getFullName r,
   map (fun e => (fst e, section_shape (snd e))) (Record_sections r)).

Definition tree_shape (t : tree) :=
  map (fun e => (fst e, record_shape (snd e))) (Tree_records t).

(** A backslash in front of every single quote. *)
Definition esc_squote (v : str) : str :=
  flat_map (fun x => if is_chr squote x then [backslash; squote] else [x]) v.

(** A text that is not empty and has no white space at either end. *)
Definition tight (s : str) : Prop :=
  s <> [] /\ is_ws (hd space s) = false /\ is_ws (last s space) = false.

(** A text made of white space only. *)
Definition blank (w : str) : Prop := forallb is_ws w = true.

(** What may follow the attributes in the text of a field: nothing, or
    a space and a comment. *)
Definition comment_tail (tail : str) : Prop :=
  tail = [] \/ exists d, tail = space :: "/"%char :: "/"%char :: d.

(** The dictionary of [parseHtmlAttributes] after the attributes [l]. *)
Definition set_all (l : jsmap (option str)) (o : jsobj) : jsobj :=
  fold_left (fun o e => obj_set (fst e) (snd e) o) l o.

(** The first part of the text of a field: its name, or for an optional
    field its name and default value between brackets. *)
Definition field_nameStr (f : field) : str :=
  if Field_isOptional f
  then lit "[" ++ Field_name f ++ lit "=" ++ [dquote]
       ++ interpolate (Field_defaultValue f) ++ [dquote] ++ lit "]"
  else Field_name f.

(** ** The parser along the text of a tree *)

(** The loop of [treeFromString] on a text, from a given state. *)
Definition parse_text (st : pstate) (text : str) : result pstate :=
  parse_lines st (split_chr newline text).

(** The state of the parser inside a record: the records before it, the
    record with the sections before the current one, and the current
    section with the fields read so far. *)
Definition cur_state (done : jsmap record) (key : str) (e : str)
    (p v d : option str) (sdone : jsmap section) (sn : str)
    (fields : jsmap field) : pstate :=
  mkState
    (mkTree
       (done ++ [(key, mkRecord e p v (sdone ++ [(sn, mkSection sn fields)]) d)]))
    (Some key) sn.

Definition fields_shape (l : jsmap field) :=
  map (fun e => (fst e, field_shape (snd e))) l.

Definition sections_shape (l : jsmap section) :=
  map (fun e => (fst e, section_shape (snd e))) l.

Definition records_shape (l : jsmap record) :=
  map (fun e => (fst e, record_shape (snd e))) l.

(** The three names that [parseRecordDeclaration] takes from the parts
    of a full name between dots. *)
Definition decl_entity (parts : list str) : str := hd [] parts.

Definition decl_action (parts : list str) : option str :=
  match tl parts with
  | [] => None
  | _ :: _ => Some (last (tl parts) [])
  end.

Definition decl_property (parts : list str) : option str :=
  match removelast (tl parts) with
  | [] => None
  | _ :: _ => Some (join (lit ".") (removelast (tl parts)))
  end.

(** The hypothesis of the round trip as the specification words it: no
    value of a field (default value or attribute value) and no
    description contains a double quote or a line feed. *)
Definition plain_text (o : option str) : bool :=
  match o with
  | None => true
  | Some s => negb (has_chr dquote s) && negb (has_chr newline s)
  end.

Definition plain_field (f : field) : bool :=
  plain_text (Field_defaultValue f) && plain_text (Field_description f)
  && forallb (fun e => plain_text (snd e)) (Field_attributes f).

Definition plain_tree (t : tree) : bool :=
  forallb
    (fun r =>
       plain_text (Record_description (snd r))
       && forallb
            (fun s => forallb (fun f => plain_field (snd f))
                        (Section_fields (snd s)))
            (Record_sections (snd r)))
    (Tree_records t).

(** The tree that the parser builds from the end-to-end example. *)
Definition example_update_tree : tree :=
  mkTree
    [(lit "user.profile.update",
      mkRecord (lit "user") (Some (lit "profile")) (Some (lit "update"))
        [(lit "main",
          mkSection (lit "main")
            [(lit "username",
              mkField (lit "username") [(lit "maxLength", Some (lit "32"))]
                false None None);
             (lit "password", mkField (lit "password") [] true None None)])]
        (Some (lit "Updates a profile")))].

(** A tree with two records, a named section, an optional field with a
    default value, attributes with and without a value, and comments. *)
Definition example_tree : tree :=
  mkTree
    [(lit "user.profile.update",
      mkRecord (lit "user") (Some (lit "profile")) (Some (lit "update"))
        [(lit "main",
          mkSection (lit "main")
            [(lit "username",
              mkField (lit "username") [(lit "maxLength", Some (lit "32"))]
                false None (Some (lit "The display name")));
             (lit "port",
              mkField (lit "port")
                [(lit "min", Some (lit "1")); (lit "max", Some (lit "65535"))]
                true (Some (lit "8080")) (Some (lit "Port number")))]);
         (lit "returns",
          mkSection (lit "returns")
            [(lit "result",
              mkField (lit "result") [(lit "boolean", None)] false None
                (Some (lit "boolean is attribute")))])]
        (Some (lit "Updates a profile")));
     (lit "ping",
      mkRecord (lit "ping") None None
        [(lit "main", mkSection (lit "main") [])] None)].

(** ** More of the sources *)

(** [getFields(sectionName = "main")] of [src/tree/record.js]; [None] is
    [null]. *)
Definition Record_getFields (sectionName : str) (r : record)
    : option (list field) :=
  match map_get sectionName (Record_sections r) with
  | Some s => Some (Section_getFields s)
  | None => None
  end.

(** The second bundle of [dist/], built from a [tools.js] whose test for
    list is a test of the prefix, like the tests around it. *)
Module Bundle.

Definition getVerbFromActionName (actionName : option str) : option str :=
  match actionName with
  | None => None
  | Some [] => None
  | Some a =>
      let actionName := trim a in
      if startsWith (lit "get") actionName then Some GET
      else if startsWith (lit "set") actionName then Some SET
      else if startsWith (lit "add") actionName then Some ADD
      else if startsWith (lit "delete") actionName then Some DELETE
      else if startsWith (lit "list") actionName then Some LIST
      else if startsWith (lit "check") actionName then Some CHECK
      else Some CHECK
  end.

End Bundle.

(** The six verbs. *)
Definition verbs : list str := [GET; SET; ADD; DELETE; LIST; CHECK].

(** The values that [toJSON] builds: plain objects with their properties
    in creation order, arrays, strings, booleans and [null]. *)
Unset Elimination Schemes.

Inductive json : Type :=
| JNull
| JBool (b : bool)
| JString (s : str)
| JArray (l : list json)
| JObject (l : list (str * json)).

Set Elimination Schemes.

Definition json_of (o : option str) : json :=
  match o with
  | Some s => JString s
  | None => JNull
  end.

(** [toJSON()] of [src/tree/field.js]: the attributes are the array of
    the entries of the map, each a pair. *)
Definition Field_toJSON (f : field) : json :=
  JObject
    [(lit "name", JString (Field_name f));
     (lit "isOptional", JBool (Field_isOptional f));
     (lit "defaultValue", json_of (Field_defaultValue f));
     (lit "description", json_of (Field_description f));
     (lit "attributes",
      JArray (map (fun e => JArray [JString (fst e); json_of (snd e)])
                (Field_attributes f)))].

(** [toJSON()] of [src/tree/section.js] *)
Definition Section_toJSON (s : section) : json :=
  JObject
    [(lit "name", JString (Section_name s));
     (lit "fields", JArray (map Field_toJSON (map_values (Section_fields s))))].

(** [toJSON()] of [src/tree/record.js] *)
Definition Record_toJSON (r : record) : json :=
  JObject
    [(lit "name", JString (Record_getFullName r));
     (lit "entityName", JString (Record_entityName r));
     (lit "propertyName", json_of (Record_propertyName r));
     (lit "verb", json_of (Record_verb r));
     (lit "description", json_of (Record_description r));
     (lit "sections",
      JArray (map Section_toJSON (map_values (Record_sections r))))].

(** [toJSON()] of [src/tree/tree.js] *)
Definition Tree_toJSON (t : tree) : json :=
  JObject
    [(lit "records",
      JArray (map Record_toJSON (map_values (Tree_records t))))].

(** ** Containers whose keys are the names of what they hold

    The methods store a field under [field.name], a section under its
    name and a record under its full name, and a [Map] has no key twice. *)

Definition field_keyed (f : field) : bool :=
  nodup_keys (Field_attributes f).

Definition section_keyed (e : str * section) : bool :=
  str_eqb (fst e) (Section_name (snd e))
  && nodup_keys (Section_fields (snd e))
  && forallb (fun e => str_eqb (fst e) (Field_name (snd e))
                       && field_keyed (snd e))
       (Section_fields (snd e)).

Definition record_keyed (e : str * record) : bool :=
  str_eqb (fst e) (Record_getFullName (snd e))
  && nodup_keys (Record_sections (snd e))
  && forallb section_keyed (Record_sections (snd e)).

Definition tree_keyed (t : tree) : bool :=
  nodup_keys (Tree_records t) && forallb record_keyed (Tree_records t).

(** [name && /\s/.test(name)] for a [string|null]. *)
Definition opt_has_ws (o : option str) : bool :=
  match o with
  | Some s => has_ws s
  | None => false
  end.

(** A backslash in front of every quote of either kind. *)
Definition esc_quotes (v : str) : str :=
  flat_map
    (fun x => if chr_eqb x dquote || chr_eqb x squote then [backslash; x]
              else [x]) v.

(** A field whose attribute value and description have line feeds and
    double quotes. *)
Definition example_noisy_field : field :=
  mkField (lit "note")
    [(lit "text", Some (lit "a" ++ [newline] ++ dq "b" ++ lit "'c'"))]
    false None (Some (lit "two" ++ [carriage; newline] ++ dq "lines")).

(** ** What every tree built by the parser satisfies *)

(** A name that is not empty and has no white space. *)
Definition name_ok (n : str) : bool := nonempty n && negb (has_ws n).

(** A section name as the parser reads it: one or more characters of
    [[\w_\.]]. *)
Definition section_name_ok (n : str) : bool :=
  nonempty n && forallb is_section_chr n.

Definition field_parsed (f : field) : bool :=
  name_ok (Field_name f)
  && (Field_isOptional f || is_none (Field_defaultValue f))
  && nodup_keys (Field_attributes f)
  && forallb (fun e => name_ok (fst e)) (Field_attributes f).

Definition section_parsed (e : str * section) : bool :=
  str_eqb (fst e) (Section_name (snd e))
  && section_name_ok (fst e)
  && nodup_keys (Section_fields (snd e))
  && forallb (fun e => str_eqb (fst e) (Field_name (snd e))
                       && field_parsed (snd e))
       (Section_fields (snd e)).

Definition record_parsed (e : str * record) : bool :=
  str_eqb (fst e) (Record_getFullName (snd e))
  && name_ok (fst e)
  && match Record_sections (snd e) with
     | (k, _) :: _ => str_eqb k (lit "main")
     | [] => false
     end
  && nodup_keys (Record_sections (snd e))
  && forallb section_parsed (Record_sections (snd e)).

Definition tree_parsed (t : tree) : bool :=
  nodup_keys (Tree_records t) && forallb record_parsed (Tree_records t).

(** ** Trees that are written and read back as they are *)

(** [comment == "" ? null : comment] *)
Definition opt_text (s : str) : option str :=
  match s with
  | [] => None
  | _ :: _ => Some s
  end.

(** A description that is written and read back as it is: [null], or a
    text that is not empty, has no white space at either end, no double
    quote and no line feed. *)
Definition desc_exact (d : option str) : bool :=
  match d with
  | None => true
  | Some d =>
      nonempty d && negb (is_ws (hd space d)) && negb (is_ws (last d space))
      && negb (has_chr dquote d) && negb (has_chr newline d)
  end.

(** [s] has two slashes in a row. *)
Fixpoint has_slashes (s : str) : bool :=
  match s with
  | [] => false
  | x :: s' =>
      match s' with
      | [] => false
      | y :: _ =>
          (chr_eqb x "/"%char && chr_eqb y "/"%char) || has_slashes s'
      end
  end.

Definition opt_has_slashes (o : option str) : bool :=
  match o with
  | Some s => has_slashes s
  | None => false
  end.

Definition field_exact (f : field) : bool :=
  field_ok f && desc_exact (Field_description f).

Definition section_exact (e : str * section) : bool :=
  let (k, s) := e in
  str_eqb k (Section_name s)
  && nonempty k && forallb is_section_chr k
  && nodup_keys (Section_fields s)
  && forallb (fun e => str_eqb (fst e) (Field_name (snd e))
                       && field_exact (snd e))
       (Section_fields s).

(** The three names of a record are the ones that a declaration line
    gives for its full name: the entity name has no dot; a verb is not
    empty and has no dot; a property name is not empty and comes with a
    verb. *)
Definition names_exact (r : record) : bool :=
  negb (has_chr "."%char (Record_entityName r))
  && match Record_propertyName r with
     | Some p => nonempty p
     | None => true
     end
  && match Record_verb r with
     | Some v => nonempty v && negb (has_chr "."%char v)
     | None => is_none (Record_propertyName r)
     end.

Definition record_exact (e : str * record) : bool :=
  let (k, r) := e in
  str_eqb k (Record_getFullName r)
  && full_name_ok k && negb (has_slashes k)
  && names_exact r
  && desc_exact (Record_description r)
  && negb (opt_has_slashes (Record_description r))
  && match Record_sections r with
     | (k0, _) :: _ => str_eqb k0 (lit "main")
     | [] => false
     end
  && nodup_keys (Record_sections r)
  && forallb section_exact (Record_sections r).

Definition tree_exact (t : tree) : bool :=
  nodup_keys (Tree_records t) && forallb record_exact (Tree_records t).

(** What follows the attributes in a line, and the comment read from it:
    nothing, or a space and a comment marker and the text of the comment. *)
Definition comment_tail_of (tail : str) (cm : option str) : Prop :=
  (tail = [] /\ cm = None)
  \/ exists d,
       tail = space :: "/"%char :: "/"%char :: d /\ cm = opt_text (trim d).

(** The first line of the text of a record after the full name. *)
Definition record_line_tail (desc : option str) : str :=
  match desc with
  | Some d => lit "    // " ++ d
  | None => []
  end.

(** A tree that is written and read back as it is: two records, a named
    section, an optional field with a default value, attributes with and
    without a value, and comments. *)
Definition example_exact_tree : tree :=
  mkTree
    [(lit "user.profile.update",
      mkRecord (lit "user") (Some (lit "profile")) (Some (lit "update"))
        [(lit "main",
          mkSection (lit "main")
            [(lit "username",
              mkField (lit "username") [(lit "maxLength", Some (lit "32"))]
                false None (Some (lit "The display name")));
             (lit "port",
              mkField (lit "port")
                [(lit "min", Some (lit "1")); (lit "max", Some (lit "65535"))]
                true (Some (lit "8080")) (Some (lit "Port // number")))]);
         (lit "returns",
          mkSection (lit "returns")
            [(lit "result",
              mkField (lit "result") [(lit "boolean", None)] false None
                None)])]
        (Some (lit "Updates a profile")));
     (lit "ping",
      mkRecord (lit "ping") None None
        [(lit "main", mkSection (lit "main") [])] None)].

(** The errors that the parser can end with. *)
Definition parser_error (e : error) : bool :=
  match e with
  | EntityNameEmpty | RecordExists _ | SectionExists _ | FieldExists _
  | InvalidField _ | TypeError => true
  | _ => false
  end.

(** What a call on a record is given, when it is given a section or a
    field: one that has its own fields, or attributes, under their names. *)
Definition op_keyed (op : record_op) : bool :=
  match op with
  | OpSetSection s => section_keyed (Section_name s, s)
  | OpAddField f _ | OpSetField f _ => field_keyed f
  | _ => true
  end.

(** * Properties *)

Unset Implicit Arguments.

(** ** Characters and text *)

Lemma chr_eqb_eq (a b : ascii) : chr_eqb a b = true <-> a = b.
Proof. apply Ascii.eqb_eq. Qed.

Lemma chr_eqb_refl (a : ascii) : chr_eqb a a = true.
Proof. apply Ascii.eqb_refl. Qed.

Lemma str_eqb_eq (a b : str) : str_eqb a b = true <-> a = b.
Proof.
  revert b; induction a as [|x a IH]; intros [|y b]; simpl; split;
    try congruence; try discriminate.
  - intros H. apply andb_true_iff in H as [H1 H2].
    apply chr_eqb_eq in H1. apply IH in H2. congruence.
  - intros H. injection H as -> ->. rewrite chr_eqb_refl. simpl.
    now apply IH.
Qed.

Lemma str_eqb_refl (a : str) : str_eqb a a = true.
Proof. now apply str_eqb_eq. Qed.

Lemma str_eqb_neq (a b : str) : str_eqb a b = false <-> a <> b.
Proof.
  split.
  - intros H E. apply str_eqb_eq in E. congruence.
  - intros H. destruct (str_eqb a b) eqn:E; trivial.
    apply str_eqb_eq in E. contradiction.
Qed.

Lemma str_eqb_sym (a b : str) : str_eqb a b = str_eqb b a.
Proof.
  destruct (str_eqb a b) eqn:E.
  - apply str_eqb_eq in E. subst. now rewrite str_eqb_refl.
  - symmetry. apply str_eqb_neq. apply str_eqb_neq in E. congruence.
Qed.

(** ** The verb classifier *)

Lemma rmatch_Lit_ci (R : Type) (p s : str) (c : caps)
    (k : str -> caps -> option R) :
  rmatch (Lit chr_eqb_ci p) s c k
  = if prefix_ci p s then k (skipn (length p) s) c else None.
Proof.
  revert s; induction p as [|x p IH]; intros s; simpl.
  - reflexivity.
  - destruct s as [|y s]; simpl; trivial.
    destruct (chr_eqb_ci x y); simpl; auto.
Qed.

Lemma test_Lit_ci (p s : str) :
  test (Lit chr_eqb_ci p) s = contains_ci p s.
Proof.
  unfold test. induction s as [|y s IH].
  - simpl. unfold match_here. rewrite rmatch_Lit_ci.
    destruct (prefix_ci p []); reflexivity.
  - simpl. unfold match_here in *. rewrite rmatch_Lit_ci.
    destruct (prefix_ci p (y :: s)); simpl; trivial.
Qed.

(** C4, as the code has it: the rules of the classifier, first match
    first, are read on the action name after [trim]; [null] and the empty
    string give [null] before any trimming.  The four examples of the
    specification hold. *)
Theorem getVerbFromActionName_rules :
  (forall a : option str,
      getVerbFromActionName a =
      match a with
      | None => None
      | Some [] => None
      | Some s => Some (verb_rules (trim s))
      end)
  /\ getVerbFromActionName (Some (lit "getUser")) = Some GET
  /\ getVerbFromActionName (Some (lit "listAll")) = Some LIST
  /\ getVerbFromActionName (Some (lit "frobnicate")) = Some CHECK
  /\ getVerbFromActionName None = None.
Proof.
  split; [|repeat split; reflexivity].
  intros [[|x s]|]; trivial.
  unfold getVerbFromActionName, verb_rules, re_list_i.
  rewrite test_Lit_ci.
  repeat match goal with
         | |- context [if ?b then _ else _] => destruct b
         end; reflexivity.
Qed.

(** C4, as the specification words it, fails on a name with white space
    in front: the code trims it and finds the prefix, the rules read on
    the input as given do not. *)
Lemma getVerbFromActionName_trims :
  getVerbFromActionName (Some (lit " getUser")) = Some GET
  /\ classifyVerb_spec (Some (lit " getUser")) = Some CHECK
  /\ getVerbFromActionName (Some (lit " getUser"))
     <> classifyVerb_spec (Some (lit " getUser")).
Proof.
  repeat split; try reflexivity. vm_compute. discriminate.
Qed.

(** ** Full names *)

Lemma truthy_dotted (o : option str) :
  (if truthy o then lit "." ++ interpolate o else []) = dotted o.
Proof. destruct o as [[|x w]|]; reflexivity. Qed.

Lemma Record_getFullName_spec (r : record) :
  Record_getFullName r
  = fullName_truthy (Record_entityName r) (Record_propertyName r) (Record_verb r).
Proof.
  unfold Record_getFullName, fullName_truthy.
  rewrite <- !truthy_dotted.
  destruct (truthy (Record_propertyName r)), (truthy (Record_verb r));
    simpl; rewrite ?app_nil_r, <- ?app_assoc; reflexivity.
Qed.

Lemma Record_new_fields (e : str) (p v d : option str) (r : record) :
  Record_new e p v d = Ok r ->
  Record_entityName r = e /\ Record_propertyName r = p /\ Record_verb r = v
  /\ Record_description r = d
  /\ Record_sections r = [(lit "main", mkSection (lit "main") [])].
Proof.
  unfold Record_new.
  repeat match goal with
         | |- context [if ?b then _ else _] => destruct b; try discriminate
         end.
  simpl. intros H; injection H as <-. repeat split.
Qed.

Lemma Dist_Record_new_fields (e : str) (p a d : option str) (r : Dist.record) :
  Dist.Record_new e p a d = Ok r ->
  Dist.Record_entityName r = e /\ Dist.Record_propertyName r = p
  /\ Dist.Record_actionName r = a
  /\ Dist.Record_verb r = getVerbFromActionName a
  /\ Dist.Record_description r = d.
Proof.
  unfold Dist.Record_new.
  repeat match goal with
         | |- context [if ?b then _ else _] => destruct b; try discriminate
         end.
  simpl. intros H; injection H as <-. repeat split.
Qed.




(** ** Verbs of records *)

(** C2, as the code has it: the constructor of [src/tree/record.js] keeps
    its third argument as the verb, unclassified; the constructor of the
    bundled build keeps it as the action name and takes the verb from
    the classifier.  Parsing the example gives one record with entity
    name user, property name profile, description Updates a profile and
    the two fields; its third name part, update, is the verb itself for
    [src/tree/record.js], and is the action name with verb CHECK for the
    bundled build. *)
Theorem record_verb_from_action_name :
  (forall (e : str) (p v d : option str) (r : record),
      Record_new e p v d = Ok r -> Record_verb r = v)
  /\ (forall (e : str) (p a d : option str) (r : Dist.record),
      Dist.Record_new e p a d = Ok r ->
      Dist.Record_actionName r = a
      /\ Dist.Record_verb r = getVerbFromActionName a)
  /\ treeFromString example_update
     = Ok (mkTree
             [(lit "user.profile.update",
               mkRecord (lit "user") (Some (lit "profile"))
                 (Some (lit "update"))
                 [(lit "main",
                   mkSection (lit "main")
                     [(lit "username",
                       mkField (lit "username")
                         [(lit "maxLength", Some (lit "32"))] false None None);
                      (lit "password",
                       mkField (lit "password") [] true None None)])]
                 (Some (lit "Updates a profile")))])
  /\ Dist.record_of_line (lit "user.profile.update    // Updates a profile")
     = Ok (Dist.mkRecord (lit "user") (Some (lit "profile"))
             (Some (lit "update")) (Some CHECK)
             [(lit "main", mkSection (lit "main") [])]
             (Some (lit "Updates a profile"))).
Proof.
  split.
  { intros e p v d r H. now apply Record_new_fields in H. }
  split.
  { intros e p a d r H. now apply Dist_Record_new_fields in H. }
  split; vm_compute; reflexivity.
Qed.

Lemma record_verb_from_action_name_witness :
  Record_new (lit "user") (Some (lit "profile")) (Some (lit "update")) None
  = Ok (fresh_record (lit "user") (Some (lit "profile"))
          (Some (lit "update")) None)
  /\ Record_verb (fresh_record (lit "user") (Some (lit "profile"))
                    (Some (lit "update")) None)
     = Some (lit "update").
Proof.
  assert (H : Record_new (lit "user") (Some (lit "profile"))
                (Some (lit "update")) None
              = Ok (fresh_record (lit "user") (Some (lit "profile"))
                      (Some (lit "update")) None))
    by reflexivity.
  split; [exact H|].
  destruct record_verb_from_action_name as (F & _).
  exact (F _ _ _ _ _ H).
Defined.

(** C2, as the specification words it, fails on its own example: the
    record parsed from the declaration line has the verb update, and the
    classifier sends update to CHECK; neither is SET. *)
Lemma update_is_not_SET :
  ~ (exists t r,
        treeFromString example_update = Ok t
        /\ Tree_getRecord (lit "user.profile.update") t = Some r
        /\ Record_verb r = Some SET)
  /\ getVerbFromActionName (Some (lit "update")) <> Some SET.
Proof.
  split.
  - intros (t & r & Ht & Hr & Hv).
    vm_compute in Ht. injection Ht as <-.
    vm_compute in Hr. injection Hr as <-. vm_compute in Hv. discriminate.
  - vm_compute. discriminate.
Qed.

(** ** Field lines *)

(** C7: the two field lines of the specification parse to the fields it
    gives, the attributes of the first in the order min, max. *)
Theorem parseField_examples :
  parseField example_port_line
  = Ok (mkField (lit "port")
          [(lit "min", Some (lit "1")); (lit "max", Some (lit "65535"))]
          true (Some (lit "8080")) (Some (lit "Port number")))
  /\ parseField (lit "name? // optional field")
     = Ok (mkField (lit "name") [] true None (Some (lit "optional field"))).
Proof. split; vm_compute; reflexivity. Qed.

(** ** Descriptions of records *)

(** C8 at a line with two comment markers: the code keeps the text
    between the first and the second marker, the specification all the
    text after the first. *)
Theorem record_description_stops_at_second_marker :
  d_description (parseRecordDeclaration (lit "a // b // c")) = Some (lit "b")
  /\ description_spec (lit "a // b // c") = Some (lit "b // c")
  /\ d_description (parseRecordDeclaration (lit "a // b // c"))
     <> description_spec (lit "a // b // c").
Proof. repeat split; try reflexivity. vm_compute. discriminate. Qed.

(** ** Maps *)

Section MapFacts.
Variable V : Type.
Implicit Types (m : jsmap V) (k : str) (v : V).

Lemma map_get_set_same k v m : map_get k (map_set k v m) = Some v.
Proof.
  induction m as [|[k' v'] m IH]; simpl.
  - now rewrite str_eqb_refl.
  - destruct (str_eqb k' k) eqn:E; simpl; rewrite E; auto.
Qed.

Lemma map_get_set_other k k' v m :
  k <> k' -> map_get k (map_set k' v m) = map_get k m.
Proof.
  intros N. induction m as [|[k0 v0] m IH]; simpl.
  - apply str_eqb_neq in N. now rewrite str_eqb_sym, N.
  - destruct (str_eqb k0 k') eqn:E; simpl.
    + apply str_eqb_eq in E. subst k0.
      apply str_eqb_neq in N. now rewrite str_eqb_sym, N.
    + now rewrite IH.
Qed.

Lemma map_set_get_id k v m : map_get k m = Some v -> map_set k v m = m.
Proof.
  induction m as [|[k' v'] m IH]; simpl; [discriminate|].
  destruct (str_eqb k' k) eqn:E.
  - now intros [= ->].
  - intros H. now rewrite IH.
Qed.

Lemma map_get_delete_other k k' m :
  k <> k' -> map_get k (map_delete k' m) = map_get k m.
Proof.
  intros N. induction m as [|[k0 v0] m IH]; simpl; trivial.
  destruct (str_eqb k0 k') eqn:E; simpl.
  - apply str_eqb_eq in E. subst k0.
    apply str_eqb_neq in N. now rewrite str_eqb_sym, N.
  - now rewrite IH.
Qed.

Lemma map_has_set k k' v m :
  map_has k m = true -> map_has k (map_set k' v m) = true.
Proof.
  unfold map_has. intros H.
  destruct (str_eqb k k') eqn:E.
  - apply str_eqb_eq in E. subst. now rewrite map_get_set_same.
  - apply str_eqb_neq in E. now rewrite map_get_set_other.
Qed.

Lemma map_has_set_same k v m : map_has k (map_set k v m) = true.
Proof. unfold map_has. now rewrite map_get_set_same. Qed.

End MapFacts.

(** ** Duplicates *)



(** A second [addRecord] with the same arguments throws and leaves the
    tree as the first call left it. *)
Lemma Tree_addRecord_twice (t t' : tree) (e : str) (p v d : option str)
    (r : record) :
  Tree_addRecord e p v d t = (t', Ok r) ->
  Tree_addRecord e p v d t' = (t', Throw (RecordExists (Record_getFullName r))).
Proof.
  unfold Tree_addRecord.
  destruct (Record_new e p v d) as [r0|err]; [|discriminate].
  destruct (map_has (Record_getFullName r0) (Tree_records t)); [discriminate|].
  intros [= <- <-]. simpl. now rewrite map_has_set_same.
Qed.

(** ** The main section *)

Lemma run_op_keeps_main (op : record_op) (r : record) :
  deletes_main op = false ->
  Record_hasSection (lit "main") r = true ->
  Record_hasSection (lit "main") (fst (run_op op r)) = true.
Proof.
  unfold Record_hasSection.
  assert (OS : forall (A : Type) n (m : M section A) r1,
             map_has (lit "main") (Record_sections r1) = true ->
             map_has (lit "main") (Record_sections (fst (on_section n m r1)))
             = true).
  { intros A n m r1 H. unfold on_section.
    destruct (map_get n (Record_sections r1)); trivial.
    destruct (m s) as [s' out]. simpl. now apply map_has_set. }
  assert (AS : forall n r1,
             map_has (lit "main") (Record_sections r1) = true ->
             map_has (lit "main")
               (Record_sections (fst (Record_addSection n r1))) = true).
  { intros n r1 H. unfold Record_addSection.
    destruct (Record_hasSection n r1); trivial.
    destruct (Section_new n); trivial. simpl. now apply map_has_set. }
  destruct op as [n|n|s|f o|f o|n o]; simpl; intros D H.
  - unfold bind. specialize (AS n r H).
    destruct (Record_addSection n r) as [r1 [a|err]]; exact AS.
  - unfold map_has in *. rewrite map_get_delete_other; trivial.
    intros E. apply str_eqb_neq in D. congruence.
  - now apply map_has_set.
  - unfold Record_addField.
    destruct (map_get (default_main o) (Record_sections r)); [now apply OS|].
    unfold bind. specialize (AS (default_main o) r H).
    destruct (Record_addSection (default_main o) r) as [r1 [a|err]]; trivial.
    now apply OS.
  - unfold Record_setField.
    destruct (map_get (default_main o) (Record_sections r)); [now apply OS|].
    unfold bind. specialize (AS (default_main o) r H).
    destruct (Record_addSection (default_main o) r) as [r1 [a|err]]; trivial.
    now apply OS.
  - unfold Record_deleteField.
    destruct (map_get (default_main o) (Record_sections r)); [now apply OS|].
    exact H.
Qed.

Lemma run_ops_keep_main (ops : list record_op) (r : record) :
  existsb deletes_main ops = false ->
  Record_hasSection (lit "main") r = true ->
  Record_hasSection (lit "main") (run_ops ops r) = true.
Proof.
  revert r; induction ops as [|op ops IH]; intros r; simpl; trivial.
  intros D H. apply orb_false_iff in D as [D1 D2].
  apply IH; trivial. now apply run_op_keeps_main.
Qed.

Lemma on_section_main_field (f : field) (m : M section unit) (r r' : record) :
  (forall s s', m s = (s', Ok tt) ->
                Section_getField (Field_name f) s' = Some f) ->
  on_section (lit "main") m r = (r', Ok tt) ->
  Record_getField (Field_name f) (lit "main") r' = Some f.
Proof.
  intros Hm. unfold on_section, Record_getField.
  destruct (map_get (lit "main") (Record_sections r)) as [s|]; [|discriminate].
  destruct (m s) as [s' out] eqn:E. intros [= <- ->].
  simpl. rewrite map_get_set_same. eauto.
Qed.

Lemma field_ops_default_to_main (f : field) (r r' : record) :
  (run_op (OpAddField f None) r = (r', Ok tt)
   \/ run_op (OpSetField f None) r = (r', Ok tt)) ->
  Record_getField (Field_name f) (lit "main") r' = Some f.
Proof.
  assert (A : forall s s', Section_addField f s = (s', Ok tt) ->
                           Section_getField (Field_name f) s' = Some f).
  { intros s s'. unfold Section_addField, Section_getField.
    destruct (Section_hasField (Field_name f) s); [discriminate|].
    intros [= <-]. simpl. apply map_get_set_same. }
  assert (B : forall s s', Section_setField f s = (s', Ok tt) ->
                           Section_getField (Field_name f) s' = Some f).
  { intros s s'. unfold Section_setField, Section_getField.
    intros [= <-]. simpl. apply map_get_set_same. }
  unfold run_op, default_main, Record_addField, Record_setField, bind.
  intros [H|H]; revert H;
    (destruct (map_get (lit "main") (Record_sections r));
     [apply on_section_main_field; assumption|]);
    (destruct (Record_addSection (lit "main") r) as [r1 [a|err]];
     [apply on_section_main_field; assumption|discriminate]).
Qed.

Lemma on_section_main_others (A : Type) (m : M section A) (r : record)
    (k : str) :
  k <> lit "main" ->
  Record_getSection k (fst (on_section (lit "main") m r))
  = Record_getSection k r.
Proof.
  intros N. unfold on_section, Record_getSection.
  destruct (map_get (lit "main") (Record_sections r)) as [s|]; trivial.
  destruct (m s) as [s' out]. simpl. now apply map_get_set_other.
Qed.

Lemma with_main_others (A : Type) (m : M section A) (r : record) (k : str) :
  k <> lit "main" ->
  Record_getSection k
    (fst ((_ <- Record_addSection (lit "main") ;;
           on_section (lit "main") m) r))
  = Record_getSection k r.
Proof.
  intros N. unfold bind.
  assert (AS : Record_getSection k (fst (Record_addSection (lit "main") r))
               = Record_getSection k r).
  { unfold Record_addSection, Record_getSection.
    destruct (Record_hasSection (lit "main") r); trivial.
    destruct (Section_new (lit "main")); trivial.
    simpl. now apply map_get_set_other. }
  destruct (Record_addSection (lit "main") r) as [r1 [a|err]]; simpl in *;
    trivial.
  now rewrite on_section_main_others.
Qed.

Lemma field_writers_keep_others (f : field) (n k : str) (r : record) :
  k <> lit "main" ->
  Record_getSection k (fst (run_op (OpAddField f None) r))
  = Record_getSection k r
  /\ Record_getSection k (fst (run_op (OpSetField f None) r))
     = Record_getSection k r
  /\ Record_getSection k (fst (run_op (OpDeleteField n None) r))
     = Record_getSection k r.
Proof.
  intros N.
  unfold run_op, default_main, Record_addField, Record_setField,
    Record_deleteField.
  destruct (map_get (lit "main") (Record_sections r)).
  - repeat split; now apply on_section_main_others.
  - repeat split; trivial; now apply with_main_others.
Qed.

Lemma deleteField_in_main (n : str) (r : record) (s : section) :
  Record_getSection (lit "main") r = Some s ->
  snd (run_op (OpDeleteField n None) r) = Ok tt
  /\ Record_getSection (lit "main") (fst (run_op (OpDeleteField n None) r))
     = Some (fst (Section_deleteField n s)).
Proof.
  unfold Record_getSection, run_op, default_main, Record_deleteField,
    on_section.
  intros ->. unfold Section_deleteField. simpl.
  split; [reflexivity|]. apply map_get_set_same.
Qed.

(** C6, as the code has it: a record has a section named main when it is
    built, and still has one after any sequence of [addSection],
    [deleteSection], [setSection], [addField], [setField] and
    [deleteField] in which no call is [deleteSection("main")].  The field
    operations that are given no section name work on the section stored
    under main: [addField] and [setField] that return leave their field
    in main; [deleteField] returns and leaves in main the section without
    that name; none of the three touches a section of another name; and
    [getField], [hasField] and [getFields] answer from the section stored
    under main. *)
Theorem main_section_kept
    (e : str) (p v d : option str) (r : record) (ops : list record_op)
    (Hnew : Record_new e p v d = Ok r)
    (Hops : existsb deletes_main ops = false) :
  Record_hasSection (lit "main") r = true
  /\ Record_hasSection (lit "main") (run_ops ops r) = true
  /\ (forall (f : field) (r1 r2 : record),
         run_op (OpAddField f None) r1 = (r2, Ok tt)
         \/ run_op (OpSetField f None) r1 = (r2, Ok tt) ->
         Record_getField (Field_name f) (lit "main") r2 = Some f)
  /\ (forall (n : str) (r1 : record) (s : section),
         Record_getSection (lit "main") r1 = Some s ->
         snd (run_op (OpDeleteField n None) r1) = Ok tt
         /\ Record_getSection (lit "main")
              (fst (run_op (OpDeleteField n None) r1))
            = Some (fst (Section_deleteField n s)))
  /\ (forall (f : field) (n k : str) (r1 : record),
         k <> lit "main" ->
         Record_getSection k (fst (run_op (OpAddField f None) r1))
         = Record_getSection k r1
         /\ Record_getSection k (fst (run_op (OpSetField f None) r1))
            = Record_getSection k r1
         /\ Record_getSection k (fst (run_op (OpDeleteField n None) r1))
            = Record_getSection k r1)
  /\ (forall (n : str) (r1 : record) (s : section),
         Record_getSection (lit "main") r1 = Some s ->
         Record_getField n (default_main None) r1 = Section_getField n s
         /\ Record_hasField n (default_main None) r1 = Section_hasField n s
         /\ Record_getFields (default_main None) r1
            = Some (Section_getFields s)).
Proof.
  assert (H0 : Record_hasSection (lit "main") r = true).
  { apply Record_new_fields in Hnew as (_ & _ & _ & _ & E).
    unfold Record_hasSection. now rewrite E. }
  split; [exact H0|]. split; [now apply run_ops_keep_main|].
  split; [intros f r1 r2; apply field_ops_default_to_main|].
  split; [exact deleteField_in_main|].
  split; [exact field_writers_keep_others|].
  intros n r1 s. unfold Record_getSection, Record_getField, Record_hasField,
    Record_getFields, default_main.
  intros ->. repeat split.
Qed.

Lemma main_section_kept_witness :
  Record_new (lit "user") None None None
  = Ok (fresh_record (lit "user") None None None)
  /\ existsb deletes_main
       [OpAddSection (lit "returns"); OpDeleteSection (lit "returns");
        OpAddField (Field_new (lit "id") false None None) None] = false
  /\ Record_hasSection (lit "main")
       (run_ops
          [OpAddSection (lit "returns"); OpDeleteSection (lit "returns");
           OpAddField (Field_new (lit "id") false None None) None]
          (fresh_record (lit "user") None None None)) = true.
Proof.
  split; [reflexivity|]. split; [reflexivity|].
  exact (proj1 (proj2 (main_section_kept (lit "user") None None None
                         (fresh_record (lit "user") None None None)
                         [OpAddSection (lit "returns");
                          OpDeleteSection (lit "returns");
                          OpAddField (Field_new (lit "id") false None None) None]
                         eq_refl eq_refl))).
Defined.

(** C6, as the specification words it, fails: [deleteSection("main")]
    removes the main section. *)
Lemma main_section_can_be_deleted :
  Record_new (lit "user") None None None
  = Ok (fresh_record (lit "user") None None None)
  /\ Record_hasSection (lit "main")
       (run_ops [OpDeleteSection (lit "main")]
          (fresh_record (lit "user") None None None)) = false.
Proof. split; reflexivity. Qed.

(** ** The matcher *)

Lemma rmatch_sound (r : re) :
  forall (R : Type) (s : str) (c : caps) (k : str -> caps -> option R) (x : R),
    rmatch r s c k = Some x ->
    exists s' c', mrel r s c s' c' /\ k s' c' = Some x.
Proof.
  induction r as [p| | |a IHa b IHb|a IHa b IHb|a IHa|a IHa|n a IHa];
    intros R s c k x H; simpl in H.
  - destruct s as [|y s]; [discriminate|].
    destruct (p y) eqn:E; [|discriminate].
    exists s, c. split; trivial. simpl. now exists y.
  - exists s, c. now split.
  - destruct s; [|discriminate]. exists [], c. now split.
  - apply IHa in H as (s1 & c1 & M1 & H).
    apply IHb in H as (s2 & c2 & M2 & H).
    exists s2, c2. split; trivial. simpl. now exists s1, c1.
  - destruct (rmatch a s c k) eqn:E; simpl in H.
    + injection H as <-. apply IHa in E as (s1 & c1 & M & E).
      exists s1, c1. split; trivial. now left.
    + apply IHb in H as (s1 & c1 & M & H).
      exists s1, c1. split; trivial. now right.
  - match type of H with orelse ?m _ = _ => destruct m eqn:E end; simpl in H.
    + injection H as <-. apply IHa in E as (s1 & c1 & M & E).
      destruct (shorter s1 s); [|discriminate].
      exists s1, c1. split; trivial. now right.
    + exists s, c. split; trivial. now left.
  - revert H. generalize (length s). intros n. revert s c.
    induction n as [|n IHn]; intros s c H; simpl in H.
    + exists s, c. split; trivial. constructor.
    + match type of H with orelse ?m _ = _ => destruct m eqn:E end;
        simpl in H.
      * injection H as <-. apply IHa in E as (s1 & c1 & M & E).
        destruct (shorter s1 s); [|discriminate].
        apply IHn in E as (s2 & c2 & M2 & E).
        exists s2, c2. split; trivial. simpl. econstructor; eauto.
      * exists s, c. split; trivial. constructor.
  - apply IHa in H as (s1 & c1 & M & H).
    eexists _, _. split; [|exact H]. simpl. now exists c1.
Qed.

Lemma mrel_suffix (r : re) :
  forall s c s' c', mrel r s c s' c' -> exists w, s = w ++ s'.
Proof.
  induction r as [p| | |a IHa b IHb|a IHa b IHb|a IHa|a IHa|n a IHa];
    intros s c s' c'; simpl.
  - intros (x & -> & _). now exists [x].
  - intros [-> _]. now exists [].
  - intros (-> & -> & _). now exists [].
  - intros (s1 & c1 & M1 & M2).
    apply IHa in M1 as [u ->]. apply IHb in M2 as [v ->].
    exists (u ++ v). now rewrite app_assoc.
  - intros [M|M]; eauto.
  - intros [[-> _]|M]; [now exists []|eauto].
  - induction 1 as [|s c s1 c1 s2 c2 M _ [v ->]]; [now exists []|].
    apply IHa in M as [u ->]. exists (u ++ v). now rewrite app_assoc.
  - intros (c1 & M & _). eauto.
Qed.

(** A run of a character class. *)
Lemma iter_chr (p : ascii -> bool) s c s' c' :
  iter (mrel (Chr p)) s c s' c' ->
  c' = c /\ exists w, s = w ++ s' /\ forallb p w = true.
Proof.
  induction 1 as [|s c s1 c1 s2 c2 M _ (-> & w & -> & F)].
  - split; trivial. now exists [].
  - destruct M as (x & -> & Px & ->). split; trivial.
    exists (x :: w). split; trivial. simpl. now rewrite Px.
Qed.

Lemma firstn_app_length (w s : str) :
  firstn (length (w ++ s) - length s) (w ++ s) = w.
Proof.
  rewrite length_app, Nat.add_sub.
  rewrite firstn_app, Nat.sub_diag, firstn_all. simpl. apply app_nil_r.
Qed.

Lemma mrel_nogrp (r : re) :
  nogrp r = true -> forall s c s' c', mrel r s c s' c' -> c' = c.
Proof.
  induction r as [p| | |a IHa b IHb|a IHa b IHb|a IHa|a IHa|n a IHa];
    simpl; intros G s c s' c'; try discriminate.
  - now intros (x & _ & _ & ->).
  - now intros [_ ->].
  - now intros (_ & _ & ->).
  - apply andb_true_iff in G as [Ga Gb].
    intros (s1 & c1 & M1 & M2).
    apply (IHa Ga) in M1. apply (IHb Gb) in M2. congruence.
  - apply andb_true_iff in G as [Ga Gb]. intros [M|M]; eauto.
  - intros [[_ ->]|M]; eauto.
  - induction 1 as [|s c s1 c1 s2 c2 M _ IH]; trivial.
    apply (IHa G) in M. congruence.
Qed.

Lemma search_inv (r : re) (s from rest : str) (c : caps) :
  search r s = Some (from, rest, c) ->
  match_here r from = Some (rest, c) /\ exists u, s = u ++ from.
Proof.
  induction s as [|x s IH]; simpl.
  - destruct (match_here r []) as [[rest' c']|] eqn:E; [|discriminate].
    intros [= <- <- <-]. split; trivial. now exists [].
  - destruct (match_here r (x :: s)) as [[rest' c']|] eqn:E.
    + intros [= <- <- <-]. split; trivial. now exists [].
    + intros H. apply IH in H as [H [u ->]]. split; trivial.
      now exists (x :: u).
Qed.

(** ** Names of parsed fields *)

Lemma field_name_chr_not_ws (c : ascii) :
  is_field_name_chr c = true -> is_ws c = false.
Proof.
  destruct c as [[|] [|] [|] [|] [|] [|] [|] [|]]; vm_compute; congruence.
Qed.

Lemma attr_name_chr_not_ws (c : ascii) :
  is_attr_name_chr c = true -> is_ws c = false.
Proof.
  unfold is_attr_name_chr. destruct (is_ws c); simpl; congruence.
Qed.

Lemma forallb_not_ws (p : ascii -> bool) (w : str) :
  (forall c, p c = true -> is_ws c = false) ->
  forallb p w = true -> has_ws w = false.
Proof.
  intros Hp. induction w as [|x w IH]; simpl; trivial.
  intros H. apply andb_true_iff in H as [H1 H2].
  now rewrite (Hp _ H1), IH.
Qed.

(** What a match of [attrRegex] at the start of [s] looks like: a name,
    which is group 1, and possibly a value, which is group 2. *)
Lemma attrRegex_match (s rest : str) (c : caps) :
  match_here attrRegex s = Some (rest, c) ->
  exists name s1,
    s = name ++ s1 /\ good_name name /\ (exists u, s1 = u ++ rest)
    /\ (c = [(1, name)] \/ exists v, c = [(2, v); (1, name)]).
Proof.
  intros H. apply rmatch_sound in H as (s' & c' & M & [= -> ->]).
  destruct M as (s1 & c1 & (c0 & Mn & ->) & Mo).
  assert (N : c0 = [] /\ exists name, s = name ++ s1 /\ good_name name).
  { destruct Mn as (s2 & c2 & Md & (s3 & c3 & (x & -> & Px & ->) & Mi)).
    apply iter_chr in Mi as (-> & w & -> & F).
    assert (G : good_name (x :: w)).
    { split; [discriminate|]. simpl.
      rewrite (attr_name_chr_not_ws _ Px). simpl.
      apply (forallb_not_ws _ _ attr_name_chr_not_ws F). }
    destruct Md as [[E ->]|(y & -> & Py & ->)].
    - split; trivial. exists (x :: w). subst s. now split.
    - split; trivial. exists (y :: x :: w). split; trivial.
      destruct G as [_ G]. split; [discriminate|].
      unfold is_chr in Py. apply chr_eqb_eq in Py. subst y.
      simpl. exact G. }
  destruct N as (-> & name & -> & G).
  rewrite firstn_app_length in Mo.
  exists name, s1. split; trivial. split; trivial.
  destruct Mo as [[-> ->]|[Mv|(-> & -> & ->)]].
  - split; [now exists []|now left].
  - destruct Mv as (s2 & c2 & M1 & s3 & c3 & (x & -> & _ & ->)
                    & s4 & c4 & M2 & c5 & M3 & ->).
    apply iter_chr in M1 as (-> & w1 & -> & _).
    apply iter_chr in M2 as (-> & w2 & -> & _).
    assert (E : c5 = [(1, name)]) by (eapply mrel_nogrp; [|exact M3]; reflexivity).
    apply mrel_suffix in M3 as [w3 ->]. subst c5.
    split; [|right; eauto].
    exists (w1 ++ x :: w2 ++ w3).
    rewrite <- !app_assoc. simpl. now rewrite <- !app_assoc.
  - split; [now exists []|now left].
Qed.

Lemma attrRegex_group1 (name : str) (c : caps) :
  c = [(1, name)] \/ (exists v, c = [(2, v); (1, name)]) -> group1 c = name.
Proof. intros [->|[v ->]]; reflexivity. Qed.

Lemma map_set_good_keys (V : Type) (k : str) (v : V) (m : jsmap V) :
  good_name k -> good_keys m -> good_keys (map_set k v m).
Proof.
  intros G H. induction m as [|[k' v'] m IH]; simpl.
  - constructor; [exact G|constructor].
  - inversion H as [|? ? H1 H2]; subst.
    destruct (str_eqb k' k); constructor; auto. now apply IH.
Qed.

Lemma attrs_loop_good_keys (fuel : nat) :
  forall s o, good_keys (props o) ->
              good_keys (props (fst (attrs_loop fuel s o))).
Proof.
  induction fuel as [|fuel IH]; intros s o G; cbn [attrs_loop]; trivial.
  destruct (search attrRegex s) as [[[from rest] c]|] eqn:E; trivial.
  apply search_inv in E as [E _].
  apply attrRegex_match in E as (name & s1 & _ & Gn & _ & C).
  rewrite (attrRegex_group1 _ _ C).
  destruct (startsWith (lit "//") name); trivial.
  apply IH. unfold obj_set.
  destruct (str_eqb name (lit "__proto__") && negb (proto_null o)).
  - destruct (attr_value (cap 2 c)); trivial.
  - simpl. now apply map_set_good_keys.
Qed.

Lemma insert_index_In (V : Type) (n : N) (e : str * V) l x :
  In x (insert_index n e l) -> x = (n, e) \/ In x l.
Proof.
  induction l as [|[m e'] l IH]; simpl.
  - intros [<-|[]]. now left.
  - destruct (n <? m)%N; simpl.
    + intros [<-|H]; auto.
    + intros [<-|H]; auto. apply IH in H as [H|H]; auto.
Qed.

Lemma Object_entries_In (o : jsobj) (e : str * option str) :
  In e (Object_entries o) -> In e (props o).
Proof.
  unfold Object_entries. intros H. apply in_app_or in H as [H|H].
  - apply in_map_iff in H as ([n e'] & <- & H). simpl.
    induction (props o) as [|[k v] m IH]; simpl in *; [contradiction|].
    destruct (array_index k).
    + apply insert_index_In in H as [[= _ <-]|H]; auto.
    + auto.
  - induction (props o) as [|[k v] m IH]; simpl in *; [contradiction|].
    destruct (array_index k); simpl in H; intuition.
Qed.

Lemma parseField_finish_name (n : str) (o : bool) (d : option str) (a : str) :
  Field_name (parseField_finish n o d a) = n.
Proof.
  unfold parseField_finish.
  destruct (parseHtmlAttributes a) as [attrs comment]. simpl.
  assert (F : forall l f,
             Field_name
               (fold_left (fun f e => Field_setAttribute (fst e) (snd e) f) l f)
             = Field_name f).
  { induction l as [|e l IH]; simpl; intros f; trivial. now rewrite IH. }
  now rewrite F.
Qed.

Lemma re_field_name_match (line rest : str) (c : caps) :
  match_here re_field_name line = Some (rest, c) ->
  exists name,
    line = name ++ rest /\ c = [(1, name)] /\ name <> []
    /\ forallb is_field_name_chr name = true.
Proof.
  intros E. apply rmatch_sound in E as (s' & c' & M & [= -> ->]).
  destruct M as (c1 & (s1 & c2 & (x & E & Px & ->) & Mi) & ->).
  apply iter_chr in Mi as (-> & w & -> & F).
  exists (x :: w). subst line.
  change (x :: w ++ rest) with ((x :: w) ++ rest).
  rewrite firstn_app_length.
  repeat split; try discriminate. simpl. now rewrite Px.
Qed.

(** C9, as the code has it: the constructor keeps whatever name it is
    given, and every field that [parseField] returns has a name that is
    not empty and contains no white space. *)
Theorem parsed_field_name
    (line : str) (f : field) (name : str) (o : bool) (d ds : option str)
    (Hparse : parseField line = Ok f) :
  Field_name (Field_new name o d ds) = name
  /\ Field_name f <> [] /\ has_ws (Field_name f) = false.
Proof.
  split; [reflexivity|]. fold (good_name (Field_name f)).
  revert Hparse. unfold parseField.
  destruct (startsWith (lit "[") line).
  - destruct (indexOf "]" line) as [end_|]; [|discriminate].
    destruct (parseHtmlAttributes (slice 1 end_ line)) as [attrs cm] eqn:E.
    destruct (Object_entries attrs) as [|[n v] l] eqn:Eo; [discriminate|].
    intros [= <-]. rewrite parseField_finish_name.
    assert (G : good_keys (props attrs)).
    { change attrs with (fst (attrs, cm)). rewrite <- E.
      apply attrs_loop_good_keys. constructor. }
    assert (I : In (n, v) (props attrs)).
    { apply Object_entries_In. rewrite Eo. now left. }
    unfold good_keys in G. rewrite Forall_forall in G. exact (G _ I).
  - destruct (match_here re_field_name line) as [[rest c]|] eqn:E;
      [|discriminate].
    apply re_field_name_match in E as (n & _ & -> & N & F).
    cbn [cap Nat.eqb]. destruct n as [|x w]; [contradiction|].
    intros [= <-]. rewrite parseField_finish_name.
    split; [discriminate|].
    apply (forallb_not_ws _ _ field_name_chr_not_ws F).
Qed.

Lemma parsed_field_name_witness :
  parseField (lit "name? // optional field")
  = Ok (mkField (lit "name") [] true None (Some (lit "optional field")))
  /\ lit "name" <> [] /\ has_ws (lit "name") = false.
Proof.
  split; [vm_compute; reflexivity|].
  exact (proj2 (parsed_field_name (lit "name? // optional field")
                  (mkField (lit "name") [] true None
                     (Some (lit "optional field")))
                  [] false None None
                  ltac:(vm_compute; reflexivity))).
Defined.

(** C9, as the specification words it, fails for a field built by a
    caller: the constructor takes a name with a space, and the empty
    name. *)
Lemma Field_new_takes_any_name :
  has_ws (Field_name (Field_new (lit "first name") false None None)) = true
  /\ Field_name (Field_new [] false None None) = [].
Proof. split; reflexivity. Qed.

(** ** Trimming *)

Lemma trimStart_app_ws (w s : str) :
  forallb is_ws w = true -> trimStart (w ++ s) = trimStart s.
Proof.
  induction w as [|x w IH]; simpl; trivial.
  intros H. apply andb_true_iff in H as [-> H]. auto.
Qed.

Lemma trimStart_head (x : ascii) (s : str) :
  is_ws x = false -> trimStart (x :: s) = x :: s.
Proof. intros H. simpl. now rewrite H. Qed.

Lemma trimStart_suffix (s : str) :
  exists w, s = w ++ trimStart s /\ forallb is_ws w = true.
Proof.
  induction s as [|x s (w & E & F)]; simpl.
  - now exists [].
  - destruct (is_ws x) eqn:W.
    + exists (x :: w). simpl. rewrite W, F. split; trivial. now f_equal.
    + now exists [].
Qed.

Lemma forallb_rev (p : ascii -> bool) (w : str) :
  forallb p (rev w) = forallb p w.
Proof.
  induction w as [|x w IH]; simpl; trivial.
  rewrite forallb_app, IH. simpl. rewrite andb_true_r. apply andb_comm.
Qed.

Lemma trimEnd_prefix (s : str) :
  exists w, s = trimEnd s ++ w /\ forallb is_ws w = true.
Proof.
  unfold trimEnd. destruct (trimStart_suffix (rev s)) as (w & E & F).
  exists (rev w). rewrite forallb_rev. split; trivial.
  rewrite <- rev_app_distr, <- E. symmetry. apply rev_involutive.
Qed.

Lemma trimEnd_app_ws (s w : str) :
  forallb is_ws w = true -> trimEnd (s ++ w) = trimEnd s.
Proof.
  intros F. unfold trimEnd. rewrite rev_app_distr.
  rewrite trimStart_app_ws; trivial. now rewrite forallb_rev.
Qed.

Lemma trimEnd_snoc (s : str) (x : ascii) :
  is_ws x = false -> trimEnd (s ++ [x]) = s ++ [x].
Proof.
  intros W. unfold trimEnd. rewrite rev_app_distr. simpl.
  rewrite W. simpl. now rewrite rev_involutive.
Qed.

Lemma trimEnd_nil : trimEnd [] = [].
Proof. reflexivity. Qed.

(** The first character of a line whose trimmed form is not empty is
    white space or the first character of the trimmed form. *)
Lemma trim_head (line : str) (x : ascii) (rest : str) :
  trim line = x :: rest ->
  exists y l, line = y :: l /\ (is_ws y = true \/ y = x).
Proof.
  destruct line as [|y l]; [discriminate|].
  intros H. exists y, l. split; trivial.
  destruct (is_ws y) eqn:W; [now left|right].
  unfold trim in H. rewrite trimStart_head in H; trivial.
  destruct (trimEnd_prefix (y :: l)) as (w & E & _).
  rewrite H in E. now injection E.
Qed.

(** ** Section lines without a name *)

(** C10: while a record is open, a line that starts with @ once trimmed,
    and has no word character, underscore or dot right after it, leaves
    the state of the parser as it is: no error, no new section, and the
    same current section. *)
Theorem nameless_section_line_skipped
    (st : pstate) (line : str) (key : str) (rest : str)
    (Hopen : ps_currentRecord st = Some key)
    (Hat : trim line = "@"%char :: rest)
    (Hname : match rest with
             | [] => True
             | c :: _ => is_section_chr c = false
             end) :
  parse_line st line = Ok st.
Proof.
  unfold parse_line. rewrite Hat. cbn [str_eqb].
  assert (R : isRecordDeclaration line = false).
  { destruct (trim_head _ _ _ Hat) as (y & l & -> & [W| ->]).
    - unfold isRecordDeclaration, test_start, match_here. simpl. now rewrite W.
    - unfold isRecordDeclaration. apply andb_false_iff. right. reflexivity. }
  rewrite R, Hopen.
  change (isSectionDeclaration ("@"%char :: rest)) with true. cbv iota.
  assert (P : parseSectionDeclaration ("@"%char :: rest) = None).
  { unfold parseSectionDeclaration, match_here. simpl.
    destruct rest as [|c rest']; trivial. now rewrite Hname. }
  now rewrite P.
Qed.

Lemma nameless_section_line_skipped_witness :
  ps_currentRecord
    (mkState (mkTree [(lit "user", fresh_record (lit "user") None None None)])
       (Some (lit "user")) (lit "returns"))
  = Some (lit "user")
  /\ trim (lit "   @-x  ") = "@"%char :: lit "-x"
  /\ is_section_chr "-"%char = false
  /\ parse_line
       (mkState (mkTree [(lit "user", fresh_record (lit "user") None None None)])
          (Some (lit "user")) (lit "returns"))
       (lit "   @-x  ")
     = Ok (mkState
             (mkTree [(lit "user", fresh_record (lit "user") None None None)])
             (Some (lit "user")) (lit "returns")).
Proof.
  split; [reflexivity|]. split; [reflexivity|]. split; [reflexivity|].
  exact (nameless_section_line_skipped
           (mkState
              (mkTree [(lit "user", fresh_record (lit "user") None None None)])
              (Some (lit "user")) (lit "returns"))
           (lit "   @-x  ") (lit "user") (lit "-x")
           eq_refl eq_refl eq_refl).
Defined.

(** ** Running the matcher forwards *)

Lemma rmatch_ext (r : re) :
  forall (R : Type) (s : str) (c : caps) (k1 k2 : str -> caps -> option R),
    (forall s' c', k1 s' c' = k2 s' c') ->
    rmatch r s c k1 = rmatch r s c k2.
Proof.
  induction r as [p| | |a IHa b IHb|a IHa b IHb|a IHa|a IHa|n a IHa];
    intros R s c k1 k2 E; simpl.
  - destruct s as [|x s]; trivial. now rewrite E.
  - apply E.
  - destruct s; trivial.
  - apply IHa. intros s' c'. now apply IHb.
  - now rewrite (IHa _ _ _ k1 k2 E), (IHb _ _ _ k1 k2 E).
  - rewrite E. f_equal. apply IHa. intros s' c'. now rewrite E.
  - generalize (length s). intros n. revert s c.
    induction n as [|n IHn]; intros s c; simpl; [apply E|].
    rewrite E. f_equal. apply IHa. intros s' c'. now rewrite IHn.
  - apply IHa. intros s' c'. apply E.
Qed.

Lemma rmatch_fail (r : re) (R : Type) (s : str) (c : caps)
    (k : str -> caps -> option R) :
  (forall s' c', mrel r s c s' c' -> k s' c' = None) ->
  rmatch r s c k = None.
Proof.
  intros F. destruct (rmatch r s c k) as [x|] eqn:E; trivial.
  apply rmatch_sound in E as (s' & c' & M & E).
  rewrite (F _ _ M) in E. discriminate.
Qed.

Lemma shorter_nil (s : str) : shorter s [] = false.
Proof. reflexivity. Qed.

Lemma shorter_cons (x : ascii) (s : str) : shorter s (x :: s) = true.
Proof. unfold shorter. simpl. apply Nat.ltb_lt. lia. Qed.

Lemma shorter_app (w s : str) : w <> [] -> shorter s (w ++ s) = true.
Proof.
  intros N. unfold shorter. apply Nat.ltb_lt. rewrite length_app.
  destruct w; [contradiction|]. simpl. lia.
Qed.

Lemma shorter_length (s' s : str) : shorter s' s = true -> length s' < length s.
Proof. apply Nat.ltb_lt. Qed.

Lemma star_loop_fuel (R : Type) (a : re) (k : str -> caps -> option R) :
  forall n m s c,
    length s <= n -> length s <= m ->
    star_loop (rmatch a) k n s c = star_loop (rmatch a) k m s c.
Proof.
  assert (Z : forall m s c, length s <= 0 ->
                star_loop (rmatch a) k m s c = k s c).
  { intros [|m] s c L; simpl; trivial.
    destruct s; [|simpl in L; lia].
    rewrite rmatch_fail; trivial. }
  induction n as [|n IH]; intros m s c Ln Lm.
  - rewrite (Z m) by trivial. reflexivity.
  - destruct m as [|m].
    + rewrite (Z (S n)) by trivial. reflexivity.
    + simpl. f_equal. apply rmatch_ext. intros s' c'.
      destruct (shorter s' s) eqn:Sh; trivial.
      apply shorter_length in Sh. apply IH; lia.
Qed.

(** The equation of a starred expression. *)
Lemma star_unfold (R : Type) (a : re) (s : str) (c : caps)
    (k : str -> caps -> option R) :
  rmatch (Star a) s c k
  = orelse
      (rmatch a s c
         (fun s' c' => if shorter s' s then rmatch (Star a) s' c' k else None))
      (k s c).
Proof.
  simpl. destruct s as [|x s].
  - simpl. rewrite rmatch_fail; trivial.
  - simpl. f_equal. apply rmatch_ext. intros s' c'.
    destruct (shorter s' (x :: s)) eqn:Sh; trivial.
    apply shorter_length in Sh. simpl in Sh.
    apply star_loop_fuel; lia.
Qed.

(** One step of the matcher for each form of expression but the star. *)
Lemma rmatch_Chr_cons (R : Type) p x s c (k : str -> caps -> option R) :
  rmatch (Chr p) (x :: s) c k = if p x then k s c else None.
Proof. reflexivity. Qed.

Lemma rmatch_Chr_nil (R : Type) p c (k : str -> caps -> option R) :
  rmatch (Chr p) [] c k = None.
Proof. reflexivity. Qed.

Lemma rmatch_Seq (R : Type) a b s c (k : str -> caps -> option R) :
  rmatch (Seq a b) s c k = rmatch a s c (fun s' c' => rmatch b s' c' k).
Proof. reflexivity. Qed.

Lemma rmatch_Alt (R : Type) a b s c (k : str -> caps -> option R) :
  rmatch (Alt a b) s c k = orelse (rmatch a s c k) (rmatch b s c k).
Proof. reflexivity. Qed.

Lemma rmatch_Opt (R : Type) a s c (k : str -> caps -> option R) :
  rmatch (Opt a) s c k
  = orelse (rmatch a s c (fun s' c' => if shorter s' s then k s' c' else None))
      (k s c).
Proof. reflexivity. Qed.

Lemma rmatch_Grp (R : Type) n a s c (k : str -> caps -> option R) :
  rmatch (Grp n a) s c k
  = rmatch a s c
      (fun s' c' => k s' ((n, firstn (length s - length s') s) :: c')).
Proof. reflexivity. Qed.

Lemma rmatch_Eoi_nil (R : Type) c (k : str -> caps -> option R) :
  rmatch Eoi [] c k = k [] c.
Proof. reflexivity. Qed.

Lemma rmatch_Eoi_cons (R : Type) x s c (k : str -> caps -> option R) :
  rmatch Eoi (x :: s) c k = None.
Proof. reflexivity. Qed.

Lemma orelse_Some (R : Type) (a b : option R) : a <> None -> orelse a b = a.
Proof. destruct a; [reflexivity|contradiction]. Qed.

Lemma orelse_None (R : Type) (b : option R) : orelse None b = b.
Proof. reflexivity. Qed.

Ltac rstep :=
  repeat (rewrite ?rmatch_Seq, ?rmatch_Alt, ?rmatch_Opt, ?rmatch_Grp,
            ?rmatch_Chr_cons, ?rmatch_Chr_nil, ?rmatch_Eoi_nil,
            ?rmatch_Eoi_cons, ?orelse_None;
          cbv beta).

(** A starred class takes the whole run when the rest of the match goes
    through after it. *)
Lemma star_chr_greedy (R : Type) (p : ascii -> bool) (w s : str) (c : caps)
    (k : str -> caps -> option R) :
  forallb p w = true -> stops p s -> k s c <> None ->
  rmatch (Star (Chr p)) (w ++ s) c k = k s c.
Proof.
  intros F St K. induction w as [|x w IH].
  - rewrite star_unfold. change ([] ++ s) with s.
    destruct s as [|y s]; [reflexivity|].
    rewrite rmatch_Chr_cons. simpl in St. now rewrite St.
  - simpl in F. apply andb_true_iff in F as [Px F].
    rewrite star_unfold. change ((x :: w) ++ s) with (x :: w ++ s).
    rewrite rmatch_Chr_cons, Px, shorter_cons, (IH F).
    now apply orelse_Some.
Qed.

(** A starred class followed by something that cannot start anywhere in
    the run or after it. *)
Lemma star_chr_fail (R : Type) (p : ascii -> bool) (s : str) (c : caps)
    (k : str -> caps -> option R) :
  (forall w s', s = w ++ s' -> forallb p w = true -> k s' c = None) ->
  rmatch (Star (Chr p)) s c k = None.
Proof.
  intros F. apply rmatch_fail. intros s' c' M.
  apply iter_chr in M as (-> & w & E & Fw). eauto.
Qed.

Lemma span_spec (p : ascii -> bool) (s : str) :
  s = fst (span p s) ++ snd (span p s)
  /\ forallb p (fst (span p s)) = true
  /\ stops p (snd (span p s)).
Proof.
  induction s as [|x s (E & F & St)]; simpl.
  - repeat split.
  - destruct (p x) eqn:Px.
    + destruct (span p s) as [w r]. simpl in *. rewrite Px, F.
      repeat split; trivial. now f_equal.
    + simpl. repeat split; trivial.
Qed.

Lemma plus_chr_greedy (R : Type) (p : ascii -> bool) (w s : str) (c : caps)
    (k : str -> caps -> option R) :
  w <> [] -> forallb p w = true -> stops p s -> k s c <> None ->
  rmatch (Plus (Chr p)) (w ++ s) c k = k s c.
Proof.
  intros N F St K. destruct w as [|x w]; [contradiction|].
  simpl in F. apply andb_true_iff in F as [Px F].
  unfold Plus. rewrite rmatch_Seq. change ((x :: w) ++ s) with (x :: w ++ s).
  rewrite rmatch_Chr_cons, Px. now apply star_chr_greedy.
Qed.

Lemma plus_chr_stops (R : Type) (p : ascii -> bool) (s : str) (c : caps)
    (k : str -> caps -> option R) :
  stops p s -> rmatch (Plus (Chr p)) s c k = None.
Proof.
  intros St. unfold Plus. rewrite rmatch_Seq.
  destruct s as [|x s]; [reflexivity|].
  rewrite rmatch_Chr_cons. simpl in St. now rewrite St.
Qed.

(** ** [attrRegex] on what the serializer writes *)

(** The name: the longest run of name characters is group 1. *)
Lemma attr_name_forward (R : Type) (name rest : str) (c : caps)
    (k : str -> caps -> option R) :
  name <> [] -> forallb is_attr_name_chr name = true ->
  stops is_attr_name_chr rest ->
  k rest ((1, name) :: c) <> None ->
  rmatch (Grp 1 re_attr_name) (name ++ rest) c k = k rest ((1, name) :: c).
Proof.
  intros N F St K. rewrite rmatch_Grp. unfold re_attr_name.
  rewrite rmatch_Seq, rmatch_Opt.
  set (K' := fun (s' : str) (c' : caps) =>
               k s' ((1, firstn (length (name ++ rest) - length s')
                           (name ++ rest)) :: c')).
  assert (E : K' rest c = k rest ((1, name) :: c)).
  { unfold K'. now rewrite firstn_app_length. }
  assert (P : rmatch (Plus (Chr is_attr_name_chr)) (name ++ rest) c K'
              = k rest ((1, name) :: c)).
  { rewrite <- E. apply plus_chr_greedy; trivial. now rewrite E. }
  destruct name as [|x n]; [contradiction|].
  change ((x :: n) ++ rest) with (x :: n ++ rest) in *.
  rewrite rmatch_Chr_cons.
  destruct (is_chr "$" x) eqn:D; [|now rewrite orelse_None].
  rewrite shorter_cons.
  destruct n as [|y n].
  - rewrite plus_chr_stops by exact St. now rewrite orelse_None.
  - simpl in F. apply andb_true_iff in F as [_ F].
    rewrite plus_chr_greedy; trivial; try discriminate.
    + rewrite E. now apply orelse_Some.
    + now rewrite E.
Qed.

(** The captures after the tail are those before it, with the value in
    front when there is one. *)
Lemma attr_tail_caps (s : str) (c : caps) (s' : str) (c' : caps) :
  mrel re_attr_tail s c s' c' -> c' = c \/ exists v, c' = (2, v) :: c.
Proof.
  intros [[_ ->]|[Mv|(_ & _ & ->)]]; auto.
  destruct Mv as (s2 & c2 & M1 & s3 & c3 & (x & -> & _ & ->)
                  & s4 & c4 & M2 & c5 & M3 & ->).
  apply iter_chr in M1 as (-> & _). apply iter_chr in M2 as (-> & _).
  assert (E : c5 = c) by (eapply mrel_nogrp; [|exact M3]; reflexivity).
  subst c5. right. eauto.
Qed.

Lemma attr_tail_total (s : str) (c : caps) :
  exists s' c', rmatch re_attr_tail s c accept = Some (s', c')
                /\ (c' = c \/ exists v, c' = (2, v) :: c).
Proof.
  destruct (rmatch re_attr_tail s c accept) as [[s' c']|] eqn:E.
  - exists s', c'. split; trivial.
    apply rmatch_sound in E as (s1 & c1 & M & [= -> ->]).
    eapply attr_tail_caps; eauto.
  - unfold re_attr_tail in E. rewrite rmatch_Opt in E.
    match type of E with orelse ?a _ = _ => destruct a end; discriminate.
Qed.

(** After a bare name: nothing more is matched when no equals sign
    follows, white space apart. *)
Lemma attr_tail_bare (rest : str) (c : caps) :
  startsWith (lit "=") (trimStart rest) = false ->
  rmatch re_attr_tail rest c accept = Some (rest, c).
Proof.
  intros Hn. unfold re_attr_tail. rewrite rmatch_Opt, rmatch_Alt, rmatch_Seq.
  rewrite star_chr_fail.
  - rewrite orelse_None. destruct rest as [|x rest]; reflexivity.
  - intros w s' -> F. rewrite trimStart_app_ws in Hn by exact F.
    rewrite rmatch_Seq. destruct s' as [|y s']; [reflexivity|].
    rewrite rmatch_Chr_cons. unfold is_chr.
    destruct (chr_eqb y "=") eqn:Ey; trivial.
    apply chr_eqb_eq in Ey. subst y. discriminate Hn.
Qed.

(** Inside double quotes: the characters of a value without a double
    quote are taken one by one up to the closing quote, when the value
    does not end with a backslash or no quote can close it later. *)
Lemma quoted_star (R : Type) (ev rest : str) (c : caps)
    (k : str -> caps -> option R) :
  has_chr dquote ev = false ->
  ends_bs ev = false \/ rmatch (Star (re_quoted_chr dquote)) rest c k = None ->
  k (dquote :: rest) c <> None ->
  rmatch (Star (re_quoted_chr dquote)) (ev ++ dquote :: rest) c k
  = k (dquote :: rest) c.
Proof.
  intros Hq Hb K. induction ev as [|x ev IH].
  - rewrite star_unfold. unfold re_quoted_chr at 1.
    change ([] ++ dquote :: rest) with (dquote :: rest).
    now rewrite rmatch_Alt, rmatch_Seq, !rmatch_Chr_cons.
  - simpl in Hq. apply orb_false_iff in Hq as [Hx Hq].
    assert (Hb' : ends_bs ev = false
                  \/ rmatch (Star (re_quoted_chr dquote)) rest c k = None).
    { destruct Hb as [Hb|Hb]; auto. left. simpl in Hb.
      destruct ev; trivial. }
    specialize (IH Hq Hb').
    rewrite star_unfold. unfold re_quoted_chr at 1.
    change ((x :: ev) ++ dquote :: rest) with (x :: ev ++ dquote :: rest).
    rewrite rmatch_Alt, rmatch_Seq, !rmatch_Chr_cons.
    assert (Nq : is_not dquote x = true).
    { unfold is_not. unfold is_chr in Hx. now rewrite Hx. }
    rewrite Nq, shorter_cons, IH.
    assert (A1 : (if is_chr backslash x
                  then rmatch (Chr (is_chr dquote)) (ev ++ dquote :: rest) c
                         (fun s' c' =>
                            if shorter s' (x :: ev ++ dquote :: rest)
                            then rmatch (Star (re_quoted_chr dquote)) s' c' k
                            else None)
                  else None) = None).
    { destruct (is_chr backslash x) eqn:Bx; trivial.
      destruct ev as [|y ev].
      - change ([] ++ dquote :: rest) with (dquote :: rest).
        rewrite rmatch_Chr_cons. change (is_chr dquote dquote) with true.
        cbv iota beta.
        destruct Hb as [Hb|Hb].
        + simpl in Hb. unfold is_chr in Bx. congruence.
        + destruct (shorter rest (x :: dquote :: rest)); [exact Hb|reflexivity].
      - simpl in Hq. apply orb_false_iff in Hq as [Hy _].
        change ((y :: ev) ++ dquote :: rest) with (y :: ev ++ dquote :: rest).
        rewrite rmatch_Chr_cons. now rewrite Hy. }
    rewrite A1, orelse_None. now apply orelse_Some.
Qed.

Lemma chr_dquote_fails (R : Type) (s : str) (c : caps)
    (k : str -> caps -> option R) :
  has_chr dquote s = false -> rmatch (Chr (is_chr dquote)) s c k = None.
Proof.
  destruct s as [|x s]; [reflexivity|]. simpl.
  intros H. apply orb_false_iff in H as [H _]. now rewrite H.
Qed.

Lemma has_chr_app (x : ascii) (a b : str) :
  has_chr x (a ++ b) = has_chr x a || has_chr x b.
Proof. apply existsb_app. Qed.

(** No quote closes a value in a text without a double quote. *)
Lemma quoted_star_unclosed (R : Type) (rest : str) (c : caps)
    (k : str -> caps -> option R) :
  has_chr dquote rest = false ->
  rmatch (Star (re_quoted_chr dquote)) rest c
    (fun s' c' => rmatch (Chr (is_chr dquote)) s' c' k) = None.
Proof.
  intros H. apply rmatch_fail. intros s' c' M.
  apply mrel_suffix in M as [w ->].
  apply chr_dquote_fails. rewrite has_chr_app in H.
  now apply orb_false_iff in H.
Qed.

(** After a name: an equals sign and a double-quoted value are matched,
    and the value with its quotes is group 2. *)
Lemma attr_tail_quoted (ev rest : str) (c : caps) :
  has_chr dquote ev = false ->
  ends_bs ev = false \/ has_chr dquote rest = false ->
  rmatch re_attr_tail ("="%char :: dquote :: ev ++ dquote :: rest) c accept
  = Some (rest, (2, dquote :: ev ++ [dquote]) :: c).
Proof.
  intros Hq Hb. unfold re_attr_tail.
  rewrite rmatch_Opt, rmatch_Alt, rmatch_Seq.
  set (s0 := "="%char :: dquote :: ev ++ dquote :: rest).
  set (kf := fun (s' : str) (c' : caps) =>
               if shorter s' s0 then accept s' c' else None).
  set (s1 := dquote :: ev ++ dquote :: rest).
  assert (E1 : s1 = (dquote :: ev ++ [dquote]) ++ rest).
  { unfold s1. simpl. now rewrite <- app_assoc. }
  assert (Sh : shorter rest s0 = true).
  { unfold s0. fold s1. rewrite E1.
    change ("="%char :: (dquote :: ev ++ [dquote]) ++ rest)
      with (("="%char :: dquote :: ev ++ [dquote]) ++ rest).
    apply shorter_app. discriminate. }
  assert (A : rmatch (Grp 2 re_attr_value) s1 c kf
              = Some (rest, (2, dquote :: ev ++ [dquote]) :: c)).
  { rewrite rmatch_Grp. unfold re_attr_value. rewrite rmatch_Alt.
    set (K2 := fun (s' : str) (c' : caps) =>
                 kf s' ((2, firstn (length s1 - length s') s1) :: c')).
    assert (E2 : K2 rest c = Some (rest, (2, dquote :: ev ++ [dquote]) :: c)).
    { unfold K2, kf. rewrite Sh, E1, firstn_app_length. reflexivity. }
    assert (E3 : rmatch (re_quoted dquote) s1 c K2
                 = Some (rest, (2, dquote :: ev ++ [dquote]) :: c)).
    { unfold re_quoted, s1.
      rewrite rmatch_Seq, rmatch_Chr_cons.
      change (is_chr dquote dquote) with true. cbv iota beta.
      rewrite rmatch_Seq. rewrite quoted_star; [exact E2|exact Hq| |].
      - destruct Hb as [Hb|Hb]; auto. right.
        now apply quoted_star_unclosed.
      - cbv beta. rewrite rmatch_Chr_cons.
        change (is_chr dquote dquote) with true. cbv iota.
        rewrite E2. discriminate. }
    now rewrite E3. }
  assert (B : rmatch (Star (Chr is_ws)) s1 c
                (fun s' c' => rmatch (Grp 2 re_attr_value) s' c' kf)
              = Some (rest, (2, dquote :: ev ++ [dquote]) :: c)).
  { rewrite <- A. apply (star_chr_greedy _ is_ws [] s1).
    - reflexivity.
    - reflexivity.
    - rewrite A. discriminate. }
  assert (C : rmatch (Star (Chr is_ws)) s0 c
                (fun s' c' =>
                   rmatch (Seq (Chr (is_chr "="))
                             (Seq (Star (Chr is_ws)) (Grp 2 re_attr_value)))
                     s' c' kf)
              = Some (rest, (2, dquote :: ev ++ [dquote]) :: c)).
  { assert (C1 : rmatch (Seq (Chr (is_chr "="))
                           (Seq (Star (Chr is_ws)) (Grp 2 re_attr_value)))
                   s0 c kf
                 = Some (rest, (2, dquote :: ev ++ [dquote]) :: c)).
    { unfold s0. rewrite rmatch_Seq, rmatch_Chr_cons.
      change (is_chr "=" "=") with true. cbv iota beta.
      rewrite rmatch_Seq. exact B. }
    rewrite <- C1. apply (star_chr_greedy _ is_ws [] s0).
    - reflexivity.
    - reflexivity.
    - rewrite C1. discriminate. }
  fold kf. rewrite C. reflexivity.
Qed.

(** A bare name written by the serializer is one match. *)
Lemma match_bare (name rest : str) :
  name <> [] -> forallb is_attr_name_chr name = true ->
  stops is_attr_name_chr rest ->
  startsWith (lit "=") (trimStart rest) = false ->
  match_here attrRegex (name ++ rest) = Some (rest, [(1, name)]).
Proof.
  intros N F St E. unfold match_here, attrRegex. rewrite rmatch_Seq.
  rewrite attr_name_forward; trivial.
  - now apply attr_tail_bare.
  - rewrite attr_tail_bare by exact E. discriminate.
Qed.

(** A name with a double-quoted value written by the serializer is one
    match. *)
Lemma match_quoted (name ev rest : str) :
  name <> [] -> forallb is_attr_name_chr name = true ->
  has_chr dquote ev = false ->
  ends_bs ev = false \/ has_chr dquote rest = false ->
  match_here attrRegex (name ++ "="%char :: dquote :: ev ++ dquote :: rest)
  = Some (rest, [(2, dquote :: ev ++ [dquote]); (1, name)]).
Proof.
  intros N F Hq Hb. unfold match_here, attrRegex. rewrite rmatch_Seq.
  rewrite attr_name_forward; trivial.
  - now apply attr_tail_quoted.
  - reflexivity.
  - rewrite attr_tail_quoted by assumption. discriminate.
Qed.

(** A comment marker starts a match whose name begins with it. *)
Lemma match_comment (d : str) :
  exists rest c,
    match_here attrRegex ("/"%char :: "/"%char :: d) = Some (rest, c)
    /\ startsWith (lit "//") (group1 c) = true.
Proof.
  destruct (span_spec is_attr_name_chr d) as (E & F & St).
  set (w := fst (span is_attr_name_chr d)) in *.
  set (r := snd (span is_attr_name_chr d)) in *.
  destruct (attr_tail_total r [(1, "/"%char :: "/"%char :: w)])
    as (s' & c' & T & C).
  exists s', c'. split.
  - unfold match_here, attrRegex. rewrite rmatch_Seq.
    replace ("/"%char :: "/"%char :: d)
      with (("/"%char :: "/"%char :: w) ++ r)
      by (simpl; now rewrite <- E).
    rewrite attr_name_forward.
    + exact T.
    + discriminate.
    + exact F.
    + exact St.
    + rewrite T. discriminate.
  - destruct C as [->|[v ->]]; reflexivity.
Qed.

Lemma match_ws_none (x : ascii) (s : str) :
  is_ws x = true -> match_here attrRegex (x :: s) = None.
Proof.
  intros W. unfold match_here, attrRegex, re_attr_name, Plus.
  rewrite rmatch_Seq, rmatch_Grp, rmatch_Seq, rmatch_Opt, rmatch_Chr_cons.
  assert (D : is_chr "$" x = false).
  { destruct (is_chr "$" x) eqn:D; trivial.
    unfold is_chr in D. apply chr_eqb_eq in D. subst x. discriminate W. }
  rewrite D, orelse_None, rmatch_Seq, rmatch_Chr_cons.
  unfold is_attr_name_chr. now rewrite W.
Qed.

Lemma match_nil_none : match_here attrRegex [] = None.
Proof. reflexivity. Qed.

(** ** Replacing *)

Lemma replace_go_match (r : re) (f : caps -> str) (x : ascii) (s rest : str)
    (c : caps) (n : nat) :
  match_here r (x :: s) = Some (rest, c) ->
  length (x :: s) - length rest = S n ->
  replace_go r f 0 (x :: s) = f c ++ replace_go r f n s.
Proof. intros M L. cbn [replace_go]. now rewrite M, L. Qed.

Lemma replace_go_nomatch (r : re) (f : caps -> str) (x : ascii) (s : str) :
  match_here r (x :: s) = None ->
  replace_go r f 0 (x :: s) = x :: replace_go r f 0 s.
Proof. intros M. cbn [replace_go]. now rewrite M. Qed.

Lemma replace_all_chr_absent (p : ascii -> bool) (f : caps -> str) (s : str) :
  existsb p s = false -> replace_all (Chr p) f s = s.
Proof.
  unfold replace_all. induction s as [|x s IH]; [reflexivity|].
  simpl existsb. intros H. apply orb_false_iff in H as [Px H].
  rewrite replace_go_nomatch.
  - now rewrite IH.
  - unfold match_here. now rewrite rmatch_Chr_cons, Px.
Qed.

Lemma replace_all_squote (v : str) :
  replace_all re_squote (fun _ => [backslash; squote]) v = esc_squote v.
Proof.
  unfold replace_all, re_squote. induction v as [|x v IH]; [reflexivity|].
  unfold esc_squote. cbn [flat_map]. fold (esc_squote v).
  destruct (is_chr squote x) eqn:Px.
  - rewrite (replace_go_match _ _ x v v [] 0).
    + now rewrite IH.
    + unfold match_here. now rewrite rmatch_Chr_cons, Px.
    + cbn [length]. lia.
  - rewrite replace_go_nomatch.
    + now rewrite IH.
    + unfold match_here. now rewrite rmatch_Chr_cons, Px.
Qed.

Lemma match_newline_absent (s : str) :
  stops (is_chr newline) s ->
  stops (is_chr newline) (tl s) ->
  match_here re_newline s = None.
Proof.
  intros H1 H2. unfold match_here, re_newline.
  rewrite rmatch_Seq, rmatch_Opt.
  destruct s as [|x s]; [reflexivity|].
  rewrite !rmatch_Chr_cons. simpl in H1, H2. rewrite H1.
  destruct (is_chr carriage x); [|reflexivity].
  rewrite shorter_cons. destruct s as [|y s]; [reflexivity|].
  rewrite rmatch_Chr_cons. simpl in H2. now rewrite H2.
Qed.

Lemma replace_all_newline_absent (f : caps -> str) (s : str) :
  has_chr newline s = false -> replace_all re_newline f s = s.
Proof.
  unfold replace_all. induction s as [|x s IH]; [reflexivity|].
  unfold has_chr. simpl existsb. intros H.
  apply orb_false_iff in H as [Px H].
  rewrite replace_go_nomatch.
  - now rewrite IH.
  - apply match_newline_absent; simpl; trivial.
    destruct s as [|y s]; simpl; trivial.
    simpl in H. now apply orb_false_iff in H.
Qed.

Lemma has_chr_esc_squote (x : ascii) (v : str) :
  x <> backslash -> x <> squote ->
  has_chr x (esc_squote v) = has_chr x v.
Proof.
  intros N1 N2. induction v as [|y v IH]; [reflexivity|].
  unfold esc_squote. cbn [flat_map]. fold (esc_squote v).
  unfold has_chr in *. rewrite existsb_app. simpl existsb at 2. rewrite IH.
  f_equal. destruct (is_chr squote y) eqn:Py.
  - unfold is_chr in Py. apply chr_eqb_eq in Py. subst y.
    cbn [existsb]. unfold is_chr.
    assert (A : chr_eqb backslash x = false).
    { destruct (chr_eqb backslash x) eqn:E; trivial.
      apply chr_eqb_eq in E. congruence. }
    assert (B : chr_eqb squote x = false).
    { destruct (chr_eqb squote x) eqn:E; trivial.
      apply chr_eqb_eq in E. congruence. }
    now rewrite A, B.
  - cbn [existsb]. now rewrite orb_false_r.
Qed.

(** The serializer writes a value without double quotes and line feeds
    with a backslash in front of every single quote, and nothing else. *)
Lemma escape_value_plain (v : str) :
  has_chr dquote v = false -> has_chr newline v = false ->
  escape_value v = esc_squote v.
Proof.
  intros Hq Hn. unfold escape_value, re_dquote.
  rewrite (replace_all_chr_absent _ _ v) by exact Hq.
  rewrite replace_all_squote.
  apply replace_all_newline_absent.
  rewrite has_chr_esc_squote; trivial; discriminate.
Qed.

Lemma escape_description_plain (d : str) :
  has_chr dquote d = false -> has_chr newline d = false ->
  escape_description d = d.
Proof.
  intros Hq Hn. unfold escape_description, re_dquote.
  rewrite (replace_all_chr_absent _ _ d) by exact Hq.
  now apply replace_all_newline_absent.
Qed.

Lemma ends_bs_esc_squote (v : str) : ends_bs (esc_squote v) = ends_bs v.
Proof.
  induction v as [|x v IH]; [reflexivity|].
  unfold esc_squote. cbn [flat_map]. fold (esc_squote v).
  destruct v as [|y v].
  - simpl. destruct (is_chr squote x) eqn:Px; simpl; trivial.
    unfold is_chr in Px. apply chr_eqb_eq in Px. now subst x.
  - assert (N : esc_squote (y :: v) <> []).
    { unfold esc_squote. cbn [flat_map].
      destruct (is_chr squote y); discriminate. }
    change (ends_bs (x :: y :: v)) with (ends_bs (y :: v)). rewrite <- IH.
    destruct (esc_squote (y :: v)) as [|z e]; [contradiction|].
    destruct (is_chr squote x); reflexivity.
Qed.

(** The parser takes the backslashes in front of the quotes away. *)
Lemma unescape_esc_squote (v : str) :
  has_chr dquote v = false ->
  replace_all re_escaped_quote group1 (esc_squote v) = v.
Proof.
  unfold replace_all. induction v as [|x v IH]; [reflexivity|].
  unfold has_chr. simpl existsb. intros H.
  apply orb_false_iff in H as [Hx H]. specialize (IH H).
  unfold esc_squote. cbn [flat_map]. fold (esc_squote v).
  destruct (is_chr squote x) eqn:Px.
  - unfold is_chr in Px. apply chr_eqb_eq in Px. subst x.
    change ([backslash; squote] ++ esc_squote v)
      with (backslash :: squote :: esc_squote v).
    rewrite (replace_go_match _ _ _ _ (esc_squote v) [(1, [squote])] 1).
    + cbn [replace_go]. change (group1 [(1, [squote])]) with [squote].
      simpl. now rewrite IH.
    + unfold match_here, re_escaped_quote.
      rewrite rmatch_Seq, rmatch_Chr_cons. change (is_chr backslash backslash) with true.
      cbv iota beta. rewrite rmatch_Grp, rmatch_Chr_cons.
      change (chr_eqb squote dquote || chr_eqb squote squote) with true.
      cbv iota beta. unfold accept. do 3 f_equal.
      replace (length (squote :: esc_squote v) - length (esc_squote v)) with 1
        by (cbn [length]; lia).
      reflexivity.
    + cbn [length]. lia.
  - change ([x] ++ esc_squote v) with (x :: esc_squote v).
    rewrite replace_go_nomatch; [now rewrite IH|].
    unfold match_here, re_escaped_quote.
    rewrite rmatch_Seq, rmatch_Chr_cons.
    destruct (is_chr backslash x) eqn:Bx; [|reflexivity].
    rewrite rmatch_Grp. destruct v as [|y v]; [reflexivity|].
    unfold esc_squote. cbn [flat_map].
    destruct (is_chr squote y) eqn:Py.
    + reflexivity.
    + change ([y] ++ flat_map
                (fun x0 => if is_chr squote x0 then [backslash; squote] else [x0]) v)
        with (y :: esc_squote v).
      rewrite rmatch_Chr_cons.
      simpl in H. apply orb_false_iff in H as [Hy _].
      unfold is_chr in Hy, Py. now rewrite Hy, Py.
Qed.

(** A text without a backslash in front of a quote is read as it is. *)
Lemma unescape_plain (d : str) :
  has_escaped_quote d = false ->
  replace_all re_escaped_quote group1 d = d.
Proof.
  unfold replace_all. induction d as [|x d IH]; [reflexivity|].
  intros H. rewrite replace_go_nomatch.
  - rewrite IH; trivial. destruct d as [|y d]; [reflexivity|].
    simpl in H. now apply orb_false_iff in H.
  - unfold match_here, re_escaped_quote.
    rewrite rmatch_Seq, rmatch_Chr_cons.
    destruct (is_chr backslash x) eqn:Bx; [|reflexivity].
    rewrite rmatch_Grp. destruct d as [|y d]; [reflexivity|].
    rewrite rmatch_Chr_cons. simpl in H.
    apply orb_false_iff in H as [H _]. unfold is_chr in Bx.
    rewrite Bx in H. simpl in H. now rewrite H.
Qed.

(** ** Texts without white space at the ends *)

Lemma tight_snoc (s : str) :
  tight s -> exists s' x, s = s' ++ [x] /\ is_ws x = false.
Proof.
  intros (N & _ & L). destruct (exists_last N) as (s' & x & ->).
  exists s', x. split; trivial. now rewrite last_last in L.
Qed.

Lemma tight_cons (s : str) :
  tight s -> exists x s', s = x :: s' /\ is_ws x = false.
Proof.
  intros (N & H & _). destruct s as [|x s']; [contradiction|]. eauto.
Qed.

Lemma trimStart_tight (s : str) : tight s -> trimStart s = s.
Proof.
  intros T. destruct (tight_cons _ T) as (x & s' & -> & W).
  now apply trimStart_head.
Qed.

Lemma trimEnd_tight (s : str) : tight s -> trimEnd s = s.
Proof.
  intros T. destruct (tight_snoc _ T) as (s' & x & -> & W).
  now apply trimEnd_snoc.
Qed.

Lemma trim_core (w1 s w2 : str) :
  blank w1 -> blank w2 -> tight s -> trim (w1 ++ s ++ w2) = s.
Proof.
  intros B1 B2 T. unfold trim.
  rewrite trimStart_app_ws by exact B1.
  destruct (tight_cons _ T) as (x & s' & E & W).
  rewrite E at 1. change ((x :: s') ++ w2) with (x :: s' ++ w2).
  rewrite trimStart_head by exact W.
  change (x :: s' ++ w2) with ((x :: s') ++ w2). rewrite <- E.
  rewrite trimEnd_app_ws by exact B2. now apply trimEnd_tight.
Qed.

Lemma trim_blank (w : str) : blank w -> trim w = [].
Proof.
  intros B. unfold trim.
  rewrite <- (app_nil_r w), trimStart_app_ws by exact B. reflexivity.
Qed.

Lemma last_app_ne (a b : str) (d : ascii) :
  b <> [] -> last (a ++ b) d = last b d.
Proof.
  intros N. destruct (exists_last N) as (b' & x & ->).
  now rewrite app_assoc, !last_last.
Qed.

Lemma tight_app (a w b : str) : tight a -> tight b -> tight (a ++ w ++ b).
Proof.
  intros (Na & Ha & _) (Nb & _ & Lb). repeat split.
  - destruct a; [contradiction|discriminate].
  - destruct a; [contradiction|exact Ha].
  - rewrite app_assoc, last_app_ne; trivial.
Qed.

Lemma tight_app2 (a b : str) : tight a -> tight b -> tight (a ++ b).
Proof. intros Ta Tb. apply (tight_app a [] b Ta Tb). Qed.

(** A trimmed text is empty or has no white space at its ends. *)
Lemma trim_tight (s : str) : trim s = [] \/ tight (trim s).
Proof.
  unfold trim. set (t := trimStart s).
  assert (Ht : t = [] \/ is_ws (hd space t) = false).
  { unfold t. induction s as [|x s IH]; simpl; auto.
    destruct (is_ws x) eqn:W; auto. }
  destruct (trimEnd t) as [|y e] eqn:E; auto. right.
  destruct (trimEnd_prefix t) as (w & P & _). rewrite E in P.
  repeat split; [discriminate| |].
  - destruct Ht as [Ht|Ht]; [rewrite Ht in P; discriminate|].
    rewrite P in Ht. exact Ht.
  - unfold trimEnd in E.
    assert (R : trimStart (rev t) = rev (y :: e)).
    { rewrite <- E. now rewrite rev_involutive. }
    destruct (exists_last (l := y :: e)) as (e' & z & Ez); [discriminate|].
    rewrite Ez in *. rewrite last_last. rewrite rev_app_distr in R.
    simpl in R.
    destruct (is_ws z) eqn:W; trivial.
    clear - R W. induction (rev t) as [|a l IH]; [discriminate|].
    simpl in R. destruct (is_ws a) eqn:Wa; auto.
    injection R as -> _. congruence.
Qed.

Lemma trimEnd_app_core (a b : str) :
  tight a -> trimEnd (a ++ b) = a ++ trimEnd b.
Proof.
  intros T. destruct (tight_snoc _ T) as (a' & x & -> & W).
  unfold trimEnd.
  assert (G : forall u v, trimStart (u ++ x :: v) = trimStart u ++ x :: v).
  { induction u as [|y u IH]; intros v; simpl.
    - now rewrite W.
    - destruct (is_ws y); auto. }
  replace (rev ((a' ++ [x]) ++ b)) with (rev b ++ x :: rev a')
    by (rewrite !rev_app_distr; reflexivity).
  rewrite G.
  rewrite rev_app_distr. simpl. now rewrite rev_involutive, <- app_assoc.
Qed.

(** ** The scanner on the attributes of a field *)

Lemma search_here (r : re) (s rest : str) (c : caps) :
  match_here r s = Some (rest, c) -> search r s = Some (s, rest, c).
Proof. intros M. destruct s; simpl; now rewrite M. Qed.

Lemma search_skip (r : re) (x : ascii) (s : str) :
  match_here r (x :: s) = None -> search r (x :: s) = search r s.
Proof. intros M. simpl. now rewrite M. Qed.

Lemma search_blank (w s : str) :
  blank w -> search attrRegex (w ++ s) = search attrRegex s.
Proof.
  unfold blank. induction w as [|x w IH]; [reflexivity|].
  simpl forallb. intros H. apply andb_true_iff in H as [W H].
  change ((x :: w) ++ s) with (x :: w ++ s).
  rewrite search_skip by now apply match_ws_none. auto.
Qed.

Lemma attrs_loop_blank (n : nat) (w s : str) (o : jsobj) :
  blank w -> attrs_loop n (w ++ s) o = attrs_loop n s o.
Proof.
  intros B. destruct n; [reflexivity|].
  cbn [attrs_loop]. now rewrite search_blank.
Qed.

Lemma attrs_loop_nil (n : nat) (o : jsobj) : attrs_loop n [] o = (o, None).
Proof. destruct n; reflexivity. Qed.

Lemma attrs_loop_comment (n : nat) (d : str) (o : jsobj) :
  fst (attrs_loop n ("/"%char :: "/"%char :: d) o) = o.
Proof.
  destruct n; [reflexivity|]. cbn [attrs_loop].
  destruct (match_comment d) as (rest & c & M & C).
  rewrite (search_here _ _ _ _ M), C. reflexivity.
Qed.

Lemma endsWith_snoc (x : ascii) (s : str) : endsWith [x] (s ++ [x]) = true.
Proof.
  unfold endsWith. rewrite rev_app_distr. simpl. now rewrite chr_eqb_refl.
Qed.

Lemma attr_value_quoted (ev : str) :
  attr_value (Some (dquote :: ev ++ [dquote]))
  = Some (replace_all re_escaped_quote group1 ev).
Proof.
  unfold attr_value.
  change (dquote :: ev ++ [dquote]) with ((dquote :: ev) ++ [dquote]) at 2.
  rewrite endsWith_snoc.
  change (startsWith [dquote] (dquote :: ev ++ [dquote])) with true.
  cbn [andb orb]. unfold slice_1_m1. cbn [tl].
  now rewrite removelast_last.
Qed.

Lemma attr_name_ok_inv (n : str) :
  attr_name_ok n = true ->
  n <> [] /\ forallb is_attr_name_chr n = true
  /\ startsWith (lit "//") n = false
  /\ str_eqb n (lit "__proto__") = false
  /\ array_index n = None.
Proof.
  unfold attr_name_ok. intros H.
  repeat (apply andb_true_iff in H as [H ?]).
  repeat split.
  - destruct n; [discriminate|discriminate].
  - assumption.
  - now apply negb_true_iff.
  - now apply negb_true_iff.
  - destruct (array_index n); [discriminate|reflexivity].
Qed.

Lemma attr_value_ok_inv (v : str) :
  attr_value_ok (Some v) = true ->
  v <> [] /\ has_chr dquote v = false /\ has_chr newline v = false
  /\ ends_bs v = false.
Proof.
  unfold attr_value_ok. intros H.
  repeat (apply andb_true_iff in H as [H ?]).
  repeat split; try now apply negb_true_iff.
  destruct v; discriminate.
Qed.

(** One attribute: the scanner finds it as the serializer wrote it. *)
Lemma attrs_loop_token (e : str * option str) (n : nat) (rest : str)
    (o : jsobj) :
  attr_name_ok (fst e) = true -> attr_value_ok (snd e) = true ->
  stops is_attr_name_chr rest ->
  startsWith (lit "=") (trimStart rest) = false ->
  attrs_loop (S n) (attr_to_string e ++ rest) o
  = attrs_loop n rest (obj_set (fst e) (snd e) o).
Proof.
  destruct e as [name v]. cbn [fst snd]. intros Hn Hv St Eq.
  apply attr_name_ok_inv in Hn as (N & F & C & _ & _).
  cbn [attrs_loop]. unfold attr_to_string.
  destruct v as [[|x v]|].
  - discriminate Hv.
  - apply attr_value_ok_inv in Hv as (_ & Hq & Hl & Hb).
    rewrite escape_value_plain by assumption.
    set (ev := esc_squote (x :: v)).
    assert (Hq' : has_chr dquote ev = false).
    { unfold ev. rewrite has_chr_esc_squote; trivial; discriminate. }
    assert (Hb' : ends_bs ev = false).
    { unfold ev. now rewrite ends_bs_esc_squote. }
    replace ((name ++ lit "=" ++ [dquote] ++ ev ++ [dquote]) ++ rest)
      with (name ++ "="%char :: dquote :: ev ++ dquote :: rest)
      by (rewrite <- !app_assoc; reflexivity).
    rewrite (search_here _ _ _ _ (match_quoted name ev rest N F Hq' (or_introl Hb'))).
    change (group1 [(2, dquote :: ev ++ [dquote]); (1, name)]) with name.
    rewrite C.
    change (cap 2 [(2, dquote :: ev ++ [dquote]); (1, name)])
      with (Some (dquote :: ev ++ [dquote])).
    rewrite attr_value_quoted. unfold ev.
    now rewrite unescape_esc_squote.
  - rewrite (search_here _ _ _ _ (match_bare name rest N F St Eq)).
    change (group1 [(1, name)]) with name. rewrite C. reflexivity.
Qed.

Lemma attr_to_string_head (e : str * option str) :
  attr_name_ok (fst e) = true ->
  exists x s, attr_to_string e = x :: s /\ is_attr_name_chr x = true.
Proof.
  destruct e as [name v]. cbn [fst]. intros Hn.
  apply attr_name_ok_inv in Hn as (N & F & _).
  destruct name as [|x name]; [contradiction|].
  simpl in F. apply andb_true_iff in F as [Fx _].
  unfold attr_to_string. destruct v as [[|y v]|]; simpl; eauto.
Qed.

Lemma comment_tail_stops (tail : str) :
  comment_tail tail ->
  stops is_attr_name_chr tail
  /\ startsWith (lit "=") (trimStart tail) = false.
Proof. intros [->|[d ->]]; split; reflexivity. Qed.

Lemma comment_tail_loop (n : nat) (tail : str) (o : jsobj) :
  comment_tail tail -> fst (attrs_loop n tail o) = o.
Proof.
  intros [->|[d ->]].
  - now rewrite attrs_loop_nil.
  - change (space :: "/"%char :: "/"%char :: d)
      with ([space] ++ "/"%char :: "/"%char :: d).
    rewrite attrs_loop_blank by reflexivity. apply attrs_loop_comment.
Qed.

Lemma join_head (sep p : str) (ps : list str) :
  exists r, join sep (p :: ps) = p ++ r.
Proof.
  destruct ps as [|q ps].
  - exists []. simpl. now rewrite app_nil_r.
  - now exists (sep ++ join sep (q :: ps)).
Qed.

Lemma not_eq_after_space (x : ascii) (s r : str) :
  is_attr_name_chr x = true ->
  startsWith (lit "=") (trimStart (lit " " ++ ((x :: s) ++ r))) = false.
Proof.
  intros Fx. change (lit " " ++ ((x :: s) ++ r)) with (space :: x :: s ++ r).
  cbn [trimStart]. change (is_ws space) with true. cbv iota.
  rewrite (attr_name_chr_not_ws _ Fx).
  unfold is_attr_name_chr in Fx. apply andb_true_iff in Fx as [_ Fx].
  apply negb_true_iff in Fx.
  change (startsWith (lit "=") (x :: s ++ r)) with (chr_eqb "=" x && true).
  rewrite andb_true_r. unfold chr_eqb in *. now rewrite Ascii.eqb_sym.
Qed.

(** All the attributes, then the comment if there is one. *)
Lemma attrs_loop_list (l : jsmap (option str)) :
  forall (e : str * option str) (n : nat) (o : jsobj) (tail : str),
    forallb (fun e => attr_name_ok (fst e) && attr_value_ok (snd e)) (e :: l)
    = true ->
    comment_tail tail ->
    length (join (lit " ") (map attr_to_string (e :: l)) ++ tail) < n ->
    fst (attrs_loop n (join (lit " ") (map attr_to_string (e :: l)) ++ tail) o)
    = set_all (e :: l) o.
Proof.
  induction l as [|e2 l IH]; intros e n o tail Ok Ct Len.
  - simpl in Ok. rewrite andb_true_r in Ok.
    apply andb_true_iff in Ok as [On Ov].
    cbn [map join] in *. destruct n as [|n]; [lia|].
    destruct (comment_tail_stops _ Ct) as [St Eq].
    rewrite attrs_loop_token by assumption.
    cbn [set_all fold_left]. now apply comment_tail_loop.
  - cbn [forallb] in Ok. apply andb_true_iff in Ok as [Oe Ok].
    apply andb_true_iff in Oe as [On Ov].
    change (join (lit " ") (map attr_to_string (e :: e2 :: l)))
      with (attr_to_string e ++ lit " "
            ++ join (lit " ") (map attr_to_string (e2 :: l))) in Len |- *.
    rewrite <- !app_assoc in Len |- *.
    destruct n as [|n]; [lia|].
    assert (H2 : attr_name_ok (fst e2) = true).
    { cbn [forallb] in Ok. apply andb_true_iff in Ok as [O2 _].
      now apply andb_true_iff in O2. }
    destruct (attr_to_string_head e2 H2) as (x & s2 & E2 & Fx).
    rewrite attrs_loop_token; trivial.
    + change (lit " " ++ join (lit " ") (map attr_to_string (e2 :: l)) ++ tail)
        with ([space] ++ join (lit " ") (map attr_to_string (e2 :: l)) ++ tail).
      rewrite attrs_loop_blank by reflexivity.
      rewrite IH; trivial.
      rewrite length_app in Len.
      destruct (attr_to_string_head e On) as (y & s1 & E1 & _).
      rewrite E1 in Len. cbn [length] in Len.
      change (lit " " ++ join (lit " ") (map attr_to_string (e2 :: l)) ++ tail)
        with (space :: join (lit " ") (map attr_to_string (e2 :: l)) ++ tail)
        in Len.
      cbn [length] in Len. lia.
    + reflexivity.
    + destruct (join_head (lit " ") (attr_to_string e2) (map attr_to_string l))
        as [r Er].
      change (map attr_to_string (e2 :: l))
        with (attr_to_string e2 :: map attr_to_string l).
      rewrite Er, E2. apply not_eq_after_space. exact Fx.
Qed.

(** ** Maps with distinct keys *)

Lemma map_has_cons (V : Type) (k k' : str) (v : V) (m : jsmap V) :
  map_has k ((k', v) :: m) = str_eqb k' k || map_has k m.
Proof. unfold map_has. simpl. now destruct (str_eqb k' k). Qed.

Lemma map_has_app (V : Type) (k : str) (a b : jsmap V) :
  map_has k (a ++ b) = map_has k a || map_has k b.
Proof.
  induction a as [|[k' v] a IH]; [reflexivity|].
  change (((k', v) :: a) ++ b) with ((k', v) :: a ++ b).
  now rewrite !map_has_cons, IH, orb_assoc.
Qed.

Lemma map_set_absent (V : Type) (k : str) (v : V) (m : jsmap V) :
  map_has k m = false -> map_set k v m = m ++ [(k, v)].
Proof.
  induction m as [|[k' v'] m IH]; [reflexivity|].
  rewrite map_has_cons. intros H. apply orb_false_iff in H as [E H].
  simpl. now rewrite E, IH.
Qed.

Lemma map_get_absent_app (V : Type) (k : str) (a b : jsmap V) :
  map_has k a = false -> map_get k (a ++ b) = map_get k b.
Proof.
  induction a as [|[k' v'] a IH]; [reflexivity|].
  rewrite map_has_cons. intros H. apply orb_false_iff in H as [E H].
  simpl. now rewrite E, IH.
Qed.

Lemma nodup_keys_mid (V : Type) (k : str) (v : V) (acc l : jsmap V) :
  nodup_keys (acc ++ (k, v) :: l) = true ->
  map_has k acc = false /\ map_has k l = false.
Proof.
  induction acc as [|[k0 v0] acc IH]; simpl.
  - intros H. apply andb_true_iff in H as [H _].
    split; [reflexivity|now apply negb_true_iff].
  - intros H. apply andb_true_iff in H as [H1 H2].
    apply negb_true_iff in H1. rewrite map_has_app, map_has_cons in H1.
    apply orb_false_iff in H1 as [_ H1].
    apply orb_false_iff in H1 as [E _].
    destruct (IH H2) as [I1 I2]. split; trivial.
    rewrite map_has_cons, I1. rewrite str_eqb_sym in E. now rewrite E.
Qed.

Lemma fold_map_set (V : Type) (l : jsmap V) :
  forall acc,
    nodup_keys (acc ++ l) = true ->
    fold_left (fun m e => map_set (fst e) (snd e) m) l acc = acc ++ l.
Proof.
  induction l as [|[k v] l IH]; intros acc H; simpl.
  - now rewrite app_nil_r.
  - destruct (nodup_keys_mid _ _ _ _ _ H) as [A _].
    rewrite map_set_absent by exact A.
    rewrite IH; rewrite <- app_assoc; trivial.
Qed.

Lemma set_all_props (l : jsmap (option str)) :
  forall o,
    forallb (fun e => attr_name_ok (fst e) && attr_value_ok (snd e)) l = true ->
    props (set_all l o)
    = fold_left (fun m e => map_set (fst e) (snd e) m) l (props o).
Proof.
  induction l as [|[k v] l IH]; intros o H; [reflexivity|].
  cbn [forallb fst snd] in H. apply andb_true_iff in H as [Hk H].
  apply andb_true_iff in Hk as [Hk _].
  apply attr_name_ok_inv in Hk as (_ & _ & _ & P & _).
  unfold set_all in *. cbn [fold_left fst snd]. rewrite IH by exact H.
  unfold obj_set. now rewrite P.
Qed.

Lemma Object_entries_named (o : jsobj) :
  forallb (fun e => is_none (array_index (fst e))) (props o) = true ->
  Object_entries o = props o.
Proof.
  unfold Object_entries. intros H.
  assert (E : index_entries (props o) = []
              /\ named_entries (props o) = props o).
  { induction (props o) as [|[k v] m IH]; [split; reflexivity|].
    cbn [forallb fst] in H. apply andb_true_iff in H as [Hk H].
    simpl. destruct (array_index k); [discriminate|].
    destruct (IH H) as [I1 I2]. split; trivial. now f_equal. }
  destruct E as [-> ->]. reflexivity.
Qed.

Lemma forallb_impl (A : Type) (p q : A -> bool) (l : list A) :
  (forall x, p x = true -> q x = true) ->
  forallb p l = true -> forallb q l = true.
Proof.
  intros I. induction l as [|x l IH]; simpl; trivial.
  intros H. apply andb_true_iff in H as [H1 H2]. now rewrite (I _ H1), IH.
Qed.

Lemma Field_setAttribute_all (l : jsmap (option str)) :
  forall f,
    Field_attributes
      (fold_left (fun f e => Field_setAttribute (fst e) (snd e) f) l f)
    = fold_left (fun m e => map_set (fst e) (snd e) m) l (Field_attributes f)
    /\ Field_isOptional
         (fold_left (fun f e => Field_setAttribute (fst e) (snd e) f) l f)
       = Field_isOptional f
    /\ Field_defaultValue
         (fold_left (fun f e => Field_setAttribute (fst e) (snd e) f) l f)
       = Field_defaultValue f
    /\ Field_name
         (fold_left (fun f e => Field_setAttribute (fst e) (snd e) f) l f)
       = Field_name f.
Proof.
  induction l as [|e l IH]; intros f; simpl; [repeat split|].
  destruct (IH (Field_setAttribute (fst e) (snd e) f)) as (A & B & C & D).
  rewrite A, B, C, D. repeat split.
Qed.

(** The attributes that [parseField] gives a field are those of the
    dictionary, when none of their names is an array index. *)
Lemma parseField_finish_shape (name : str) (opt : bool) (def : option str)
    (attrsStr : str) (l : jsmap (option str)) :
  fst (parseHtmlAttributes attrsStr) = set_all l obj_empty ->
  forallb (fun e => attr_name_ok (fst e) && attr_value_ok (snd e)) l = true ->
  nodup_keys l = true ->
  field_shape (parseField_finish name opt def attrsStr) = (name, opt, def, l).
Proof.
  intros E Ok Nd. unfold parseField_finish.
  destruct (parseHtmlAttributes attrsStr) as [attrs comment].
  cbn [fst] in E. subst attrs.
  assert (P : props (set_all l obj_empty) = l).
  { rewrite set_all_props by exact Ok. now apply (fold_map_set _ l []). }
  assert (O : Object_entries (set_all l obj_empty) = l).
  { rewrite Object_entries_named; rewrite P; trivial.
    revert Ok. apply forallb_impl. intros [k v] H. cbn [fst snd] in *.
    apply andb_true_iff in H as [H _].
    apply attr_name_ok_inv in H as (_ & _ & _ & _ & ->). reflexivity. }
  rewrite O. unfold field_shape, Field_set_description. cbn.
  destruct (Field_setAttribute_all l (Field_new name opt def None))
    as (A & B & C & D).
  rewrite A, B, C, D. cbn.
  now rewrite (fold_map_set _ l []).
Qed.

(** ** The text of a field *)

Lemma forallb_hd_last (p : ascii -> bool) (s : str) (d : ascii) :
  s <> [] -> forallb p s = true -> p (hd d s) = true /\ p (last s d) = true.
Proof.
  intros N F. rewrite forallb_forall in F. split; apply F.
  - destruct s; [contradiction|now left].
  - destruct (exists_last N) as (s' & x & ->). rewrite last_last.
    apply in_or_app. right. now left.
Qed.

Lemma tight_of_class (p : ascii -> bool) (s : str) :
  (forall c, p c = true -> is_ws c = false) ->
  s <> [] -> forallb p s = true -> tight s.
Proof.
  intros I N F. destruct (forallb_hd_last p s space N F) as [H L].
  repeat split; auto.
Qed.

Lemma tight_wrap (a m : str) (z : ascii) :
  a <> [] -> is_ws (hd space a) = false -> is_ws z = false ->
  tight (a ++ m ++ [z]).
Proof.
  intros N H Z. repeat split.
  - destruct a; [contradiction|discriminate].
  - destruct a; [contradiction|exact H].
  - now rewrite !app_assoc, last_last.
Qed.

Lemma tight_attr (e : str * option str) :
  attr_name_ok (fst e) = true -> tight (attr_to_string e).
Proof.
  destruct e as [name v]. cbn [fst]. intros Hn.
  apply attr_name_ok_inv in Hn as (N & F & _).
  assert (T : tight name)
    by exact (tight_of_class _ _ attr_name_chr_not_ws N F).
  unfold attr_to_string. destruct v as [[|x v]|]; trivial.
  destruct T as (_ & H & _).
  replace (name ++ lit "=" ++ [dquote] ++ escape_value (x :: v) ++ [dquote])
    with (name ++ (lit "=" ++ [dquote] ++ escape_value (x :: v)) ++ [dquote])
    by (now rewrite <- !app_assoc).
  now apply tight_wrap.
Qed.

Lemma tight_attrs (l : jsmap (option str)) :
  forall e,
    forallb (fun e => attr_name_ok (fst e) && attr_value_ok (snd e)) (e :: l)
    = true ->
    tight (join (lit " ") (map attr_to_string (e :: l))).
Proof.
  induction l as [|e2 l IH]; intros e H; cbn [forallb] in H;
    apply andb_true_iff in H as [He H];
    apply andb_true_iff in He as [He _].
  - now apply tight_attr.
  - change (join (lit " ") (map attr_to_string (e :: e2 :: l)))
      with (attr_to_string e ++ lit " "
            ++ join (lit " ") (map attr_to_string (e2 :: l))).
    apply tight_app; [now apply tight_attr|now apply IH].
Qed.

Lemma description_ok_inv (d : str) :
  description_ok (Some d) = true ->
  has_chr dquote d = false /\ has_chr newline d = false.
Proof.
  unfold description_ok. intros H. apply andb_true_iff in H as [H1 H2].
  split; now apply negb_true_iff.
Qed.

(** The comment of a field or record: nothing, or the marker and a text
    without white space at its end. *)
Lemma descriptionToString_form (d : option str) :
  description_ok d = true ->
  descriptionToString d = []
  \/ exists d', descriptionToString d = "/"%char :: "/"%char :: d'
                /\ tight (descriptionToString d)
                /\ has_chr newline d' = false.
Proof.
  intros Ok. destruct d as [[|x d]|]; [now left| |now left]. right.
  unfold descriptionToString.
  apply description_ok_inv in Ok as [Hq Hn].
  rewrite escape_description_plain by assumption.
  assert (E : trim (lit "// " ++ x :: d)
              = "/"%char :: "/"%char :: trimEnd (space :: x :: d)).
  { unfold trim. change (lit "// " ++ x :: d)
      with ("/"%char :: "/"%char :: space :: x :: d).
    rewrite trimStart_head by reflexivity.
    change ("/"%char :: "/"%char :: space :: x :: d)
      with (lit "//" ++ space :: x :: d).
    rewrite trimEnd_app_core; [reflexivity|].
    repeat split; discriminate. }
  exists (trimEnd (space :: x :: d)). split; [exact E|]. split.
  - destruct (trim_tight (lit "// " ++ x :: d)) as [T|T]; trivial.
    rewrite E in T. discriminate.
  - destruct (trimEnd_prefix (space :: x :: d)) as (w & P & _).
    assert (H : has_chr newline (space :: x :: d) = false) by exact Hn.
    rewrite P, has_chr_app in H. now apply orb_false_iff in H.
Qed.

Lemma Field_stringify_eq (f : field) :
  Field_stringify f
  = trim (field_nameStr f ++ lit "    " ++ Field_attrsToString f
          ++ lit " " ++ descriptionToString (Field_description f)).
Proof. reflexivity. Qed.

Lemma forallb_no_chr (p : ascii -> bool) (x : ascii) (s : str) :
  p x = false -> forallb p s = true -> has_chr x s = false.
Proof.
  intros Px. induction s as [|y s IH]; [reflexivity|].
  simpl. intros H. apply andb_true_iff in H as [Py H].
  rewrite (IH H), orb_false_r. unfold is_chr.
  destruct (chr_eqb y x) eqn:E; trivial.
  apply chr_eqb_eq in E. congruence.
Qed.

Lemma attr_no_newline (e : str * option str) :
  attr_name_ok (fst e) = true -> attr_value_ok (snd e) = true ->
  has_chr newline (attr_to_string e) = false.
Proof.
  destruct e as [name v]. cbn [fst snd]. intros Hn Hv.
  apply attr_name_ok_inv in Hn as (_ & F & _).
  assert (A : has_chr newline name = false)
    by (apply (forallb_no_chr is_attr_name_chr); trivial).
  unfold attr_to_string. destruct v as [[|x v]|]; trivial.
  apply attr_value_ok_inv in Hv as (_ & Hq & Hl & _).
  rewrite escape_value_plain by assumption.
  rewrite !has_chr_app, A, has_chr_esc_squote, Hl by discriminate.
  reflexivity.
Qed.

Lemma attrs_no_newline (l : jsmap (option str)) :
  forallb (fun e => attr_name_ok (fst e) && attr_value_ok (snd e)) l = true ->
  has_chr newline (join (lit " ") (map attr_to_string l)) = false.
Proof.
  induction l as [|e l IH]; [reflexivity|].
  cbn [forallb]. intros H. apply andb_true_iff in H as [He H].
  apply andb_true_iff in He as [Hn Hv].
  destruct l as [|e2 l].
  - now apply attr_no_newline.
  - change (join (lit " ") (map attr_to_string (e :: e2 :: l)))
      with (attr_to_string e ++ lit " "
            ++ join (lit " ") (map attr_to_string (e2 :: l))).
    rewrite !has_chr_app, attr_no_newline, IH by assumption. reflexivity.
Qed.

Lemma parseHtmlAttributes_list (l : jsmap (option str)) (tail : str) :
  forallb (fun e => attr_name_ok (fst e) && attr_value_ok (snd e)) l = true ->
  comment_tail tail ->
  l <> [] ->
  fst (parseHtmlAttributes (join (lit " ") (map attr_to_string l) ++ tail))
  = set_all l obj_empty.
Proof.
  intros Ok Ct N. destruct l as [|e l]; [contradiction|].
  unfold parseHtmlAttributes. apply attrs_loop_list; trivial. lia.
Qed.

Lemma trim_core_eq (w1 s w2 t : str) :
  blank w1 -> blank w2 -> tight s -> t = w1 ++ s ++ w2 -> trim t = s.
Proof. intros B1 B2 T ->. now apply trim_core. Qed.

(** The text of a field is the first part and then, after white space,
    the attributes and the comment, which the scanner reads back. *)
Lemma field_text (f : field) :
  forallb (fun e => attr_name_ok (fst e) && attr_value_ok (snd e))
    (Field_attributes f) = true ->
  description_ok (Field_description f) = true ->
  tight (field_nameStr f) ->
  exists X,
    Field_stringify f = field_nameStr f ++ X
    /\ (X = [] \/ exists X', X = space :: X')
    /\ has_chr newline X = false
    /\ fst (parseHtmlAttributes (trim X))
       = set_all (Field_attributes f) obj_empty.
Proof.
  intros Ok Od T. rewrite Field_stringify_eq. unfold Field_attrsToString.
  set (N := field_nameStr f) in *.
  set (D := descriptionToString (Field_description f)).
  destruct (descriptionToString_form _ Od) as [E|(d' & E & Td & Nd)];
    fold D in E; try fold D in Td;
    destruct (Field_attributes f) as [|e l] eqn:El.
  - exists []. rewrite E, (app_nil_r N). cbn [map join].
    split; [|repeat split; auto].
    apply (trim_core_eq [] N (lit "     ")); trivial; reflexivity.
  - set (A := join (lit " ") (map attr_to_string (e :: l))).
    assert (Ta : tight A) by exact (tight_attrs l e Ok).
    exists (lit "    " ++ A). rewrite E.
    split; [|split; [|split]].
    + apply (trim_core_eq [] (N ++ lit "    " ++ A) (lit " ")).
      * reflexivity.
      * reflexivity.
      * now apply tight_app.
      * rewrite <- !app_assoc. reflexivity.
    + right. now eexists.
    + rewrite has_chr_app. unfold A. now rewrite attrs_no_newline.
    + rewrite (trim_core_eq (lit "    ") A [] (lit "    " ++ A));
        trivial; try reflexivity; [|now rewrite app_nil_r].
      replace A with (A ++ []) by apply app_nil_r.
      apply parseHtmlAttributes_list; trivial; [now left|discriminate].
  - exists (lit "     " ++ D). cbn [map join].
    split; [|split; [|split]].
    + apply (trim_core_eq [] (N ++ lit "     " ++ D) []).
      * reflexivity.
      * reflexivity.
      * now apply tight_app.
      * rewrite app_nil_r. reflexivity.
    + right. now eexists.
    + rewrite E. exact Nd.
    + rewrite (trim_core_eq (lit "     ") D [] (lit "     " ++ D));
        trivial; try reflexivity; [|now rewrite app_nil_r].
      rewrite E. unfold parseHtmlAttributes. apply attrs_loop_comment.
  - set (A := join (lit " ") (map attr_to_string (e :: l))).
    assert (Ta : tight A) by exact (tight_attrs l e Ok).
    assert (Tz : tight (A ++ lit " " ++ D)) by now apply tight_app.
    exists (lit "    " ++ A ++ lit " " ++ D).
    split; [|split; [|split]].
    + apply (trim_core_eq [] (N ++ lit "    " ++ A ++ lit " " ++ D) []).
      * reflexivity.
      * reflexivity.
      * now apply tight_app.
      * rewrite app_nil_r. reflexivity.
    + right. now eexists.
    + rewrite !has_chr_app. unfold A. rewrite attrs_no_newline by exact Ok.
      rewrite E. exact Nd.
    + rewrite (trim_core_eq (lit "    ") (A ++ lit " " ++ D) []
                 (lit "    " ++ A ++ lit " " ++ D));
        trivial; try reflexivity; [|now rewrite app_nil_r].
      apply parseHtmlAttributes_list; trivial; [|discriminate].
      right. exists d'. now rewrite E.
Qed.

(** ** [parseField] on the text of a field *)

Lemma re_field_name_forward (name X : str) :
  name <> [] -> forallb is_field_name_chr name = true ->
  stops is_field_name_chr X ->
  match_here re_field_name (name ++ X) = Some (X, [(1, name)]).
Proof.
  intros N F St. unfold match_here, re_field_name. rewrite rmatch_Grp.
  rewrite plus_chr_greedy; trivial.
  - unfold accept. now rewrite firstn_app_length.
  - discriminate.
Qed.

Lemma space_stops (p : ascii -> bool) (X : str) :
  p space = false -> (X = [] \/ exists X', X = space :: X') -> stops p X.
Proof. intros P [->|[X' ->]]; simpl; trivial. Qed.

Lemma parseField_required (name X : str) :
  name <> [] -> forallb is_field_name_chr name = true ->
  (X = [] \/ exists X', X = space :: X') ->
  parseField (name ++ X) = Ok (parseField_finish name false None (trim X)).
Proof.
  intros N F HX. unfold parseField.
  assert (B : startsWith (lit "[") (name ++ X) = false).
  { destruct name as [|x n]; [contradiction|].
    simpl in F. apply andb_true_iff in F as [Fx _].
    change (startsWith (lit "[") ((x :: n) ++ X)) with (chr_eqb "[" x && true).
    rewrite andb_true_r. destruct (chr_eqb "[" x) eqn:E; trivial.
    apply chr_eqb_eq in E. subst x. discriminate Fx. }
  rewrite B.
  rewrite re_field_name_forward; trivial;
    [|apply space_stops; trivial; reflexivity].
  cbn [cap Nat.eqb]. destruct name as [|x n] eqn:En; [contradiction|].
  rewrite <- En in *.
  assert (Q : nth_error (name ++ X) (length name) = nth_error X 0).
  { rewrite nth_error_app2 by lia. now rewrite Nat.sub_diag. }
  rewrite Q.
  assert (O : match nth_error X 0 with
              | Some x0 => chr_eqb x0 "?"
              | None => false
              end = false).
  { destruct HX as [->|[X' ->]]; reflexivity. }
  rewrite O. unfold slice_from. rewrite Nat.add_0_r.
  rewrite skipn_app, skipn_all, Nat.sub_diag. reflexivity.
Qed.

Lemma indexOf_app (c : ascii) (pre r : str) :
  has_chr c pre = false -> indexOf c (pre ++ c :: r) = Some (length pre).
Proof.
  induction pre as [|x pre IH]; simpl.
  - now rewrite chr_eqb_refl.
  - intros H. apply orb_false_iff in H as [Hx H].
    unfold is_chr in Hx. now rewrite Hx, IH.
Qed.

Lemma optional_name_ok_inv (n : str) :
  optional_name_ok n = true ->
  n <> [] /\ forallb is_attr_name_chr n = true
  /\ has_chr "]" n = false
  /\ startsWith (lit "//") n = false
  /\ str_eqb n (lit "__proto__") = false.
Proof.
  unfold optional_name_ok. intros H.
  repeat (apply andb_true_iff in H as [H ?]).
  repeat split; try now apply negb_true_iff.
  - destruct n; discriminate.
  - assumption.
Qed.

Lemma default_ok_inv (d : str) :
  default_ok d = true ->
  has_chr dquote d = false /\ has_chr newline d = false
  /\ has_chr "]" d = false /\ has_escaped_quote d = false.
Proof.
  unfold default_ok. intros H.
  repeat (apply andb_true_iff in H as [H ?]).
  repeat split; now apply negb_true_iff.
Qed.

(** The dictionary that the scanner builds from the inside of the
    brackets of an optional field. *)
Lemma parse_bracket (name d : str) :
  optional_name_ok name = true -> default_ok d = true ->
  Object_entries
    (fst (parseHtmlAttributes (name ++ "="%char :: dquote :: d ++ [dquote])))
  = [(name, Some d)].
Proof.
  intros Hn Hd.
  apply optional_name_ok_inv in Hn as (N & F & _ & C & P).
  apply default_ok_inv in Hd as (Hq & _ & _ & He).
  unfold parseHtmlAttributes. cbn [attrs_loop].
  rewrite (search_here _ _ _ _
             (match_quoted name d [] N F Hq (or_intror eq_refl))).
  change (group1 [(2, dquote :: d ++ [dquote]); (1, name)]) with name.
  rewrite C.
  change (cap 2 [(2, dquote :: d ++ [dquote]); (1, name)])
    with (Some (dquote :: d ++ [dquote])).
  rewrite attr_value_quoted, unescape_plain by exact He.
  rewrite attrs_loop_nil. cbn [fst]. unfold obj_set. rewrite P.
  unfold Object_entries. simpl. destruct (array_index name); reflexivity.
Qed.

Lemma parseField_optional (name d X : str) :
  optional_name_ok name = true -> default_ok d = true ->
  parseField (lit "[" ++ name ++ lit "=" ++ [dquote] ++ d ++ [dquote]
              ++ lit "]" ++ X)
  = Ok (parseField_finish name true (Some d) (trim X)).
Proof.
  intros Hn Hd. unfold parseField.
  set (body := name ++ "="%char :: dquote :: d ++ [dquote]).
  assert (E : lit "[" ++ name ++ lit "=" ++ [dquote] ++ d ++ [dquote]
              ++ lit "]" ++ X
              = ("["%char :: body) ++ "]"%char :: X).
  { unfold body. simpl. rewrite <- !app_assoc. simpl.
    now rewrite <- !app_assoc. }
  rewrite E.
  change (startsWith (lit "[") (("["%char :: body) ++ "]"%char :: X))
    with true. cbv iota.
  assert (Hb : has_chr "]" ("["%char :: body) = false).
  { apply optional_name_ok_inv in Hn as (_ & _ & Hn & _).
    apply default_ok_inv in Hd as (_ & _ & Hd & _).
    unfold body.
    change (has_chr "]" ("["%char :: name ++ "="%char :: dquote :: d ++ [dquote]))
      with (has_chr "]" (name ++ "="%char :: dquote :: d ++ [dquote])).
    rewrite has_chr_app, Hn.
    change (has_chr "]" ("="%char :: dquote :: d ++ [dquote]))
      with (has_chr "]" (d ++ [dquote])).
    now rewrite has_chr_app, Hd. }
  rewrite indexOf_app by exact Hb.
  assert (S1 : slice 1 (length ("["%char :: body))
                 (("["%char :: body) ++ "]"%char :: X) = body).
  { unfold slice.
    change (skipn 1 (("["%char :: body) ++ "]"%char :: X))
      with (body ++ "]"%char :: X).
    replace (length ("["%char :: body) - 1) with (length body)
      by (cbn [length]; lia).
    rewrite firstn_app, firstn_all, Nat.sub_diag. simpl. apply app_nil_r. }
  assert (S2 : slice_from (length ("["%char :: body) + 1)
                 (("["%char :: body) ++ "]"%char :: X) = X).
  { unfold slice_from. rewrite skipn_app, skipn_all2 by lia.
    replace (length ("["%char :: body) + 1 - length ("["%char :: body))
      with 1 by lia.
    reflexivity. }
  rewrite S1, S2.
  pose proof (parse_bracket name d Hn Hd) as PB. fold body in PB.
  destruct (parseHtmlAttributes body) as [attrs cm]. cbn [fst] in PB.
  now rewrite PB.
Qed.

Lemma field_ok_inv (f : field) :
  field_ok f = true ->
  nodup_keys (Field_attributes f) = true
  /\ forallb (fun e => attr_name_ok (fst e) && attr_value_ok (snd e))
       (Field_attributes f) = true
  /\ description_ok (Field_description f) = true
  /\ ((Field_isOptional f = true
       /\ (exists d, Field_defaultValue f = Some d /\ default_ok d = true)
       /\ optional_name_ok (Field_name f) = true)
      \/ (Field_isOptional f = false /\ Field_defaultValue f = None
          /\ Field_name f <> []
          /\ forallb is_field_name_chr (Field_name f) = true)).
Proof.
  unfold field_ok. intros H.
  apply andb_true_iff in H as [H K].
  repeat (apply andb_true_iff in H as [H ?]).
  repeat split; trivial.
  destruct (Field_isOptional f).
  - left. apply andb_true_iff in K as [K1 K2].
    destruct (Field_defaultValue f) as [d|]; [|discriminate]. eauto.
  - right. repeat (apply andb_true_iff in K as [K ?]).
    repeat split; trivial.
    + destruct (Field_defaultValue f); [discriminate|reflexivity].
    + destruct (Field_name f); discriminate.
Qed.

Lemma tight_nameStr (f : field) : field_ok f = true -> tight (field_nameStr f).
Proof.
  intros H. apply field_ok_inv in H as (_ & _ & _ & [(O & _ & _)|(O & _ & N & F)]);
    unfold field_nameStr; rewrite O.
  - replace (lit "[" ++ Field_name f ++ lit "=" ++ [dquote]
             ++ interpolate (Field_defaultValue f) ++ [dquote] ++ lit "]")
      with (lit "[" ++ (Field_name f ++ lit "=" ++ [dquote]
                        ++ interpolate (Field_defaultValue f) ++ [dquote])
            ++ lit "]")
      by (now rewrite <- !app_assoc).
    apply tight_wrap; [discriminate|reflexivity|reflexivity].
  - exact (tight_of_class _ _ field_name_chr_not_ws N F).
Qed.

(** The text of a field that the format can carry parses to a field with
    the same name, optional flag, default value and attributes. *)
Lemma parseField_stringify (f : field) :
  field_ok f = true ->
  exists f',
    parseField (Field_stringify f) = Ok f'
    /\ field_shape f' = field_shape f.
Proof.
  intros H. pose proof (tight_nameStr f H) as T.
  apply field_ok_inv in H as (Nd & Ok & Od & K).
  destruct (field_text f Ok Od T) as (X & E & HX & _ & P).
  rewrite E. unfold field_nameStr in *.
  destruct K as [(O & (d & Ed & Hd) & Hn)|(O & Ed & N & F)]; rewrite O.
  - rewrite Ed. cbn [interpolate]. rewrite <- !app_assoc.
    rewrite parseField_optional by assumption.
    eexists. split; [reflexivity|].
    rewrite (parseField_finish_shape _ _ _ _ _ P Ok Nd).
    unfold field_shape. now rewrite O, Ed.
  - rewrite parseField_required by assumption.
    eexists. split; [reflexivity|].
    rewrite (parseField_finish_shape _ _ _ _ _ P Ok Nd).
    unfold field_shape. now rewrite O, Ed.
Qed.

(** ** Lines of a text *)

Lemma split_chr_absent (c : ascii) (s : str) :
  has_chr c s = false -> split_chr c s = [s].
Proof.
  induction s as [|x s IH]; [reflexivity|].
  simpl. intros H. apply orb_false_iff in H as [Hx H].
  unfold is_chr in Hx. now rewrite Hx, IH.
Qed.

Lemma split_chr_ne (c : ascii) (a : str) : split_chr c a <> [].
Proof.
  destruct a as [|x a]; simpl; [discriminate|].
  destruct (chr_eqb x c); [discriminate|].
  destruct (split_chr c a); discriminate.
Qed.

Lemma split_chr_app (c : ascii) (a b : str) :
  split_chr c (a ++ c :: b) = split_chr c a ++ split_chr c b.
Proof.
  induction a as [|x a IH]; simpl.
  - now rewrite chr_eqb_refl.
  - destruct (chr_eqb x c); rewrite IH; [reflexivity|].
    pose proof (split_chr_ne c a) as N.
    destruct (split_chr c a); [contradiction|reflexivity].
Qed.

Lemma parse_lines_app (st : pstate) (l1 l2 : list str) :
  parse_lines st (l1 ++ l2)
  = match parse_lines st l1 with
    | Ok st' => parse_lines st' l2
    | Throw e => Throw e
    end.
Proof.
  revert st. induction l1 as [|l l1 IH]; intros st; simpl; trivial.
  destruct (parse_line st l); trivial.
Qed.

Lemma parse_text_app (st : pstate) (a b : str) :
  parse_text st (a ++ newline :: b)
  = match parse_text st a with
    | Ok st' => parse_text st' b
    | Throw e => Throw e
    end.
Proof. unfold parse_text. now rewrite split_chr_app, parse_lines_app. Qed.

Lemma parse_text_line (st : pstate) (l : str) :
  has_chr newline l = false -> parse_text st l = parse_line st l.
Proof.
  intros H. unfold parse_text. rewrite split_chr_absent by exact H.
  simpl. now destruct (parse_line st l).
Qed.

Lemma parse_text_nil (st : pstate) : parse_text st [] = Ok st.
Proof. reflexivity. Qed.

(** ** Maps whose last key is the current one *)

Lemma map_get_last (V : Type) (k : str) (v : V) (a : jsmap V) :
  map_has k a = false -> map_get k (a ++ [(k, v)]) = Some v.
Proof.
  intros H. rewrite map_get_absent_app by exact H.
  simpl. now rewrite str_eqb_refl.
Qed.

Lemma map_set_last (V : Type) (k : str) (v v0 : V) (a : jsmap V) :
  map_has k a = false -> map_set k v (a ++ [(k, v0)]) = a ++ [(k, v)].
Proof.
  induction a as [|[k' v'] a IH]; simpl.
  - now rewrite str_eqb_refl.
  - rewrite map_has_cons. intros H. apply orb_false_iff in H as [E H].
    now rewrite E, IH.
Qed.

Lemma map_has_keys (V W : Type) (k : str) (m : jsmap V) (m' : jsmap W) :
  map fst m = map fst m' -> map_has k m = map_has k m'.
Proof.
  revert m'. induction m as [|[k1 v1] m IH]; intros [|[k2 v2] m'] E;
    try discriminate; trivial.
  simpl in E. injection E as -> E.
  rewrite !map_has_cons. now rewrite (IH m').
Qed.

(** ** One field line *)

Lemma nameStr_no_newline (f : field) :
  field_ok f = true -> has_chr newline (field_nameStr f) = false.
Proof.
  intros H.
  apply field_ok_inv in H as (_ & _ & _ & [(O & (d & Ed & Hd) & Hn)|(O & _ & N & F)]);
    unfold field_nameStr; rewrite O.
  - rewrite Ed. cbn [interpolate].
    apply optional_name_ok_inv in Hn as (_ & Fn & _).
    apply default_ok_inv in Hd as (_ & Hl & _).
    assert (A : has_chr newline (Field_name f) = false)
      by (apply (forallb_no_chr is_attr_name_chr); [reflexivity|exact Fn]).
    rewrite !has_chr_app, Hl, A. reflexivity.
  - apply (forallb_no_chr is_field_name_chr); trivial.
Qed.

Lemma field_line_facts (f : field) :
  field_ok f = true ->
  has_chr newline (padding4 ++ Field_stringify f) = false
  /\ trim (padding4 ++ Field_stringify f) = Field_stringify f
  /\ str_eqb (Field_stringify f) [] = false
  /\ isSectionDeclaration (Field_stringify f) = false.
Proof.
  intros H. pose proof (tight_nameStr f H) as T.
  pose proof (nameStr_no_newline f H) as Nn.
  pose proof H as H'.
  apply field_ok_inv in H' as (_ & Ok & Od & K).
  destruct (field_text f Ok Od T) as (X & E & _ & Nx & _).
  assert (Ne : Field_stringify f <> []).
  { rewrite E. destruct T as (N & _). destruct (field_nameStr f);
      [contradiction|discriminate]. }
  assert (Ts : tight (Field_stringify f)).
  { destruct (trim_tight (field_nameStr f ++ lit "    " ++ Field_attrsToString f
                          ++ lit " " ++ descriptionToString (Field_description f)))
      as [Z|Z]; rewrite <- Field_stringify_eq in Z; [contradiction|exact Z]. }
  repeat split.
  - rewrite has_chr_app, E, has_chr_app, Nn, Nx. reflexivity.
  - apply (trim_core_eq padding4 (Field_stringify f) []); trivial;
      [reflexivity|reflexivity|now rewrite app_nil_r].
  - apply str_eqb_neq. exact Ne.
  - rewrite E. unfold field_nameStr.
    destruct K as [(O & _ & _)|(O & _ & N & F)]; rewrite O; [reflexivity|].
    destruct (Field_name f) as [|x n]; [contradiction|].
    simpl in F. apply andb_true_iff in F as [Fx _].
    change (isSectionDeclaration ((x :: n) ++ X)) with (chr_eqb "@" x && true).
    rewrite andb_true_r. destruct (chr_eqb "@" x) eqn:Ex; trivial.
    apply chr_eqb_eq in Ex. subst x. discriminate Fx.
Qed.

Lemma indent_not_record (s : str) : isRecordDeclaration (padding4 ++ s) = false.
Proof. reflexivity. Qed.

(** A field line adds the field to the current section. *)
Lemma field_step (done : jsmap record) (key e : str) (p v d : option str)
    (sdone : jsmap section) (sn : str) (fields : jsmap field) (f : field) :
  map_has key done = false -> map_has sn sdone = false ->
  field_ok f = true -> map_has (Field_name f) fields = false ->
  exists f',
    field_shape f' = field_shape f
    /\ parse_line (cur_state done key e p v d sdone sn fields)
         (padding4 ++ Field_stringify f)
       = Ok (cur_state done key e p v d sdone sn
               (fields ++ [(Field_name f, f')])).
Proof.
  intros Hk Hs Hf Hn.
  destruct (field_line_facts f Hf) as (_ & Tl & Ne & Ns).
  destruct (parseField_stringify f Hf) as (f' & Pf & Sh).
  exists f'. split; [exact Sh|].
  assert (En : Field_name f' = Field_name f).
  { unfold field_shape in Sh. now injection Sh. }
  unfold parse_line. rewrite Tl, Ne, indent_not_record.
  unfold cur_state. cbn [ps_currentRecord ps_tree ps_currentSectionName].
  rewrite Ns, Pf.
  unfold on_record. cbn [Tree_records].
  rewrite map_get_last by exact Hk.
  unfold Record_addField. cbn [Record_sections].
  rewrite map_get_last by exact Hs.
  unfold on_section. cbn [Record_sections].
  rewrite map_get_last by exact Hs.
  unfold Section_addField, Section_hasField. cbn [Section_fields Section_name].
  rewrite En, Hn.
  rewrite (map_set_absent _ (Field_name f) f' fields Hn).
  rewrite (map_set_last _ sn _ _ sdone Hs).
  unfold Record_set_sections.
  cbn [Record_entityName Record_propertyName Record_verb Record_description].
  rewrite (map_set_last _ key _ _ done Hk). reflexivity.
Qed.

(** ** The fields of a section *)

Lemma nodup_keys_keys (V W : Type) (m : jsmap V) (m' : jsmap W) :
  map fst m = map fst m' -> nodup_keys m = nodup_keys m'.
Proof.
  revert m'. induction m as [|[k1 v1] m IH]; intros [|[k2 v2] m'] E;
    try discriminate; trivial.
  simpl in E. injection E as -> E. simpl.
  now rewrite (IH m' E), (map_has_keys _ _ k2 m m' E).
Qed.

Lemma fields_shape_keys (l l' : jsmap field) :
  fields_shape l' = fields_shape l -> map fst l' = map fst l.
Proof.
  unfold fields_shape. intros E.
  apply (f_equal (map fst)) in E. rewrite !map_map in E. exact E.
Qed.

Lemma join_cons2 (sep p q : str) (ps : list str) :
  join sep (p :: q :: ps) = p ++ sep ++ join sep (q :: ps).
Proof. reflexivity. Qed.

Lemma join_cons_ne (sep p : str) (ps : list str) :
  ps <> [] -> join sep (p :: ps) = p ++ sep ++ join sep ps.
Proof. destruct ps; [contradiction|reflexivity]. Qed.

Lemma fields_steps (done : jsmap record) (key e : str) (p v d : option str)
    (sdone : jsmap section) (sn : str) (fs : jsmap field) :
  map_has key done = false -> map_has sn sdone = false ->
  forallb (fun e => str_eqb (fst e) (Field_name (snd e)) && field_ok (snd e)) fs
  = true ->
  forall fields0,
    nodup_keys (fields0 ++ fs) = true ->
    exists fs',
      fields_shape fs' = fields_shape fs
      /\ parse_text (cur_state done key e p v d sdone sn fields0)
           (join [newline]
              (map (fun f => padding4 ++ f)
                 (map Field_stringify (map_values fs))))
         = Ok (cur_state done key e p v d sdone sn (fields0 ++ fs')).
Proof.
  intros Hk Hs. induction fs as [|[k f] fs IH]; intros Ok fields0 Nd.
  - exists []. split; [reflexivity|]. now rewrite app_nil_r.
  - cbn [forallb fst snd] in Ok. apply andb_true_iff in Ok as [Ok1 Ok].
    apply andb_true_iff in Ok1 as [Ek Of].
    apply str_eqb_eq in Ek. subst k.
    destruct (nodup_keys_mid _ _ _ _ _ Nd) as [Hn _].
    destruct (field_step done key e p v d sdone sn fields0 f Hk Hs Of Hn)
      as (f' & Sh & St).
    destruct (field_line_facts f Of) as (Nl & _).
    assert (Nd' : nodup_keys ((fields0 ++ [(Field_name f, f')]) ++ fs) = true).
    { rewrite <- Nd. apply nodup_keys_keys.
      rewrite <- app_assoc, !map_app. reflexivity. }
    destruct (IH Ok _ Nd') as (fs' & Sh' & St').
    exists ((Field_name f, f') :: fs'). split.
    + unfold fields_shape in *. cbn [map fst snd]. now rewrite Sh, Sh'.
    + unfold map_values in *. cbn [map snd].
      destruct fs as [|e2 fs].
      * cbn [map join]. rewrite parse_text_line by exact Nl.
        rewrite St. f_equal.
        assert (E : fs' = []) by (destruct fs'; [trivial|discriminate]).
        now rewrite E.
      * cbn [map snd] in St' |- *. rewrite join_cons2.
        change ([newline] ++ ?x) with (newline :: x).
        rewrite parse_text_app, parse_text_line by exact Nl.
        rewrite St, St'. now rewrite <- app_assoc.
Qed.

(** ** The sections of a record *)

Lemma section_chr_not_ws (c : ascii) :
  is_section_chr c = true -> is_ws c = false.
Proof.
  destruct c as [[|] [|] [|] [|] [|] [|] [|] [|]]; vm_compute; congruence.
Qed.

Lemma section_decl_forward (k : str) :
  k <> [] -> forallb is_section_chr k = true ->
  parseSectionDeclaration ("@"%char :: k) = Some k.
Proof.
  intros N F. unfold parseSectionDeclaration, match_here, re_section.
  rewrite rmatch_Seq, rmatch_Chr_cons.
  change (is_chr "@" "@") with true. cbv iota beta.
  rewrite rmatch_Grp.
  rewrite <- (app_nil_r k) at 1.
  rewrite plus_chr_greedy; trivial.
  - unfold accept. rewrite <- (app_nil_r k) at 1 2.
    rewrite firstn_app_length. reflexivity.
  - reflexivity.
  - discriminate.
Qed.

Lemma Section_new_ok (k : str) :
  k <> [] -> forallb is_section_chr k = true ->
  Section_new k = Ok (mkSection k []).
Proof.
  intros N F. unfold Section_new.
  rewrite (forallb_not_ws _ _ section_chr_not_ws F).
  destruct k; [contradiction|reflexivity].
Qed.

(** A section header opens a new section after those of the record. *)
Lemma header_step (done : jsmap record) (key e : str) (p v d : option str)
    (sdone : jsmap section) (sn : str) (fields : jsmap field) (k : str) :
  map_has key done = false ->
  map_has k (sdone ++ [(sn, mkSection sn fields)]) = false ->
  k <> [] -> forallb is_section_chr k = true ->
  has_chr newline (padding4 ++ lit "@" ++ k) = false
  /\ parse_line (cur_state done key e p v d sdone sn fields)
       (padding4 ++ lit "@" ++ k)
     = Ok (cur_state done key e p v d
             (sdone ++ [(sn, mkSection sn fields)]) k []).
Proof.
  intros Hk Hs N F.
  assert (T : tight (lit "@" ++ k)).
  { destruct (exists_last N) as (k' & z & ->).
    rewrite forallb_app in F. apply andb_true_iff in F as [_ F].
    simpl in F. rewrite andb_true_r in F.
    rewrite app_assoc, <- (app_nil_l (lit "@" ++ k')), <- app_assoc.
    change ([] ++ lit "@" ++ k') with (lit "@" ++ k').
    replace ((lit "@" ++ k') ++ [z]) with (lit "@" ++ k' ++ [z])
      by now rewrite app_assoc.
    apply tight_wrap; [discriminate|reflexivity|].
    now apply section_chr_not_ws. }
  split.
  - rewrite !has_chr_app.
    now rewrite (forallb_no_chr is_section_chr newline k eq_refl F).
  - unfold parse_line.
    rewrite (trim_core_eq padding4 (lit "@" ++ k) [] _ eq_refl eq_refl T)
      by now rewrite app_nil_r.
    change (str_eqb (lit "@" ++ k) []) with false.
    rewrite indent_not_record.
    unfold cur_state. cbn [ps_currentRecord ps_tree ps_currentSectionName].
    change (isSectionDeclaration (lit "@" ++ k)) with true. cbv iota.
    change (lit "@" ++ k) with ("@"%char :: k).
    rewrite section_decl_forward by assumption.
    destruct k as [|x k'] eqn:Ek; [contradiction|]. rewrite <- Ek in *.
    unfold on_record. cbn [Tree_records].
    rewrite map_get_last by exact Hk.
    unfold Record_addSection, Record_hasSection. cbn [Record_sections].
    rewrite Hs, Section_new_ok by assumption.
    unfold Record_set_sections.
    cbn [Record_entityName Record_propertyName Record_verb Record_description
         Record_sections].
    rewrite (map_set_absent _ k _ _ Hs).
    rewrite (map_set_last _ key _ _ done Hk). reflexivity.
Qed.

Lemma section_ok_inv (k : str) (s : section) :
  section_ok (k, s) = true ->
  Section_name s = k /\ k <> [] /\ forallb is_section_chr k = true
  /\ nodup_keys (Section_fields s) = true
  /\ forallb (fun e => str_eqb (fst e) (Field_name (snd e)) && field_ok (snd e))
       (Section_fields s) = true.
Proof.
  unfold section_ok. intros H.
  repeat (apply andb_true_iff in H as [H ?]).
  apply str_eqb_eq in H. symmetry in H. repeat split; trivial.
  destruct k; discriminate.
Qed.

(** The text of a section after its header: the fields, then a line
    break. *)
Lemma section_body_steps (done : jsmap record) (key e : str) (p v d : option str)
    (sdone : jsmap section) (sn : str) (fs : jsmap field) :
  map_has key done = false -> map_has sn sdone = false ->
  nodup_keys fs = true ->
  forallb (fun e => str_eqb (fst e) (Field_name (snd e)) && field_ok (snd e)) fs
  = true ->
  exists fs',
    fields_shape fs' = fields_shape fs
    /\ parse_text (cur_state done key e p v d sdone sn [])
         (join [newline]
            (map (fun f => padding4 ++ f)
               (map Field_stringify (map_values fs))) ++ [newline])
       = Ok (cur_state done key e p v d sdone sn fs').
Proof.
  intros Hk Hs Nd Ok.
  destruct (fields_steps done key e p v d sdone sn fs Hk Hs Ok [] Nd)
    as (fs' & Sh & St).
  exists fs'. split; [exact Sh|].
  change (?a ++ [newline]) with (a ++ newline :: []).
  rewrite parse_text_app, St. reflexivity.
Qed.

Lemma section_shape_built (k : str) (s : section) (fs' : jsmap field) :
  Section_name s = k -> fields_shape fs' = fields_shape (Section_fields s) ->
  section_shape (mkSection k fs') = section_shape s.
Proof.
  intros E Sh. unfold section_shape. cbn [Section_name Section_fields].
  unfold fields_shape in Sh. now rewrite E, Sh.
Qed.

(** The sections after the first, each with its header. *)
Lemma sections_steps (done : jsmap record) (key e : str) (p v d : option str)
    (l : jsmap section) :
  map_has key done = false ->
  forall (sdone : jsmap section) (sn : str) (fields : jsmap field),
    forallb section_ok l = true ->
    forallb (fun e => negb (str_eqb (fst e) (lit "main"))) l = true ->
    nodup_keys (sdone ++ (sn, mkSection sn fields) :: l) = true ->
    l <> [] ->
    exists sdone' sn' fields',
      parse_text (cur_state done key e p v d sdone sn fields)
        (join [newline] (map (Section_stringify padding4) (map_values l)))
      = Ok (cur_state done key e p v d sdone' sn' fields')
      /\ sections_shape (sdone' ++ [(sn', mkSection sn' fields')])
         = sections_shape (sdone ++ [(sn, mkSection sn fields)])
           ++ sections_shape l.
Proof.
  intros Hk. induction l as [|[k s] l IH]; intros sdone sn fields Hok Nm Nd Ne;
    [contradiction|].
  cbn [forallb fst] in Hok, Nm.
  apply andb_true_iff in Hok as [Os Hok]. apply andb_true_iff in Nm as [Nk Nm].
  apply negb_true_iff in Nk.
  apply section_ok_inv in Os as (En & Nn & Fk & Ndf & Okf).
  assert (Nd2 : nodup_keys ((sdone ++ [(sn, mkSection sn fields)])
                            ++ (k, s) :: l) = true)
    by now rewrite <- app_assoc.
  destruct (nodup_keys_mid _ _ _ _ _ Nd2) as [Hs _].
  destruct (header_step done key e p v d sdone sn fields k Hk Hs Nn Fk)
    as [Nl Hd].
  destruct (section_body_steps done key e p v d
              (sdone ++ [(sn, mkSection sn fields)]) k (Section_fields s)
              Hk Hs Ndf Okf) as (fs' & Sh & Bd).
  assert (Tx : Section_stringify padding4 s
               = (padding4 ++ lit "@" ++ k) ++ newline
                 :: (join [newline]
                       (map (fun f => padding4 ++ f)
                          (map Field_stringify (map_values (Section_fields s))))
                     ++ [newline])).
  { unfold Section_stringify. rewrite En, Nk.
    rewrite <- !app_assoc. reflexivity. }
  assert (P1 : parse_text (cur_state done key e p v d sdone sn fields)
                 (Section_stringify padding4 s)
               = Ok (cur_state done key e p v d
                       (sdone ++ [(sn, mkSection sn fields)]) k fs')).
  { rewrite Tx, parse_text_app, parse_text_line by exact Nl.
    now rewrite Hd. }
  assert (Sh1 : sections_shape
                  ((sdone ++ [(sn, mkSection sn fields)])
                   ++ [(k, mkSection k fs')])
                = sections_shape (sdone ++ [(sn, mkSection sn fields)])
                  ++ sections_shape [(k, s)]).
  { unfold sections_shape. rewrite map_app. cbn [map fst snd].
    now rewrite (section_shape_built k s fs' En Sh). }
  unfold map_values in *. cbn [map snd].
  destruct l as [|e2 l].
  - exists (sdone ++ [(sn, mkSection sn fields)]), k, fs'.
    cbn [map join]. split; [exact P1|exact Sh1].
  - assert (Nd3 : nodup_keys ((sdone ++ [(sn, mkSection sn fields)])
                              ++ (k, mkSection k fs') :: e2 :: l) = true).
    { rewrite <- Nd2. apply nodup_keys_keys. rewrite !map_app. reflexivity. }
    destruct (IH (sdone ++ [(sn, mkSection sn fields)]) k fs' Hok Nm Nd3)
      as (sdone' & sn' & fields' & P2 & Sh2); [discriminate|].
    exists sdone', sn', fields'. split.
    + cbn [map snd] in P2 |- *. rewrite join_cons2.
      change ([newline] ++ ?x) with (newline :: x).
      rewrite parse_text_app, P1. exact P2.
    + rewrite Sh2, Sh1. unfold sections_shape.
      rewrite <- app_assoc. reflexivity.
Qed.

(** ** The declaration line of a record *)

Lemma join_split (c : ascii) (s : str) : join [c] (split_chr c s) = s.
Proof.
  induction s as [|x s IH]; [reflexivity|]. simpl.
  pose proof (split_chr_ne c s) as N.
  destruct (chr_eqb x c) eqn:E.
  - apply chr_eqb_eq in E. subst x.
    destruct (split_chr c s) as [|q ps]; [contradiction|].
    rewrite join_cons2, IH. reflexivity.
  - destruct (split_chr c s) as [|q ps]; [contradiction|].
    simpl cons_head. destruct ps as [|q2 ps].
    + simpl in *. now rewrite IH.
    + rewrite join_cons2 in IH |- *.
      change ((x :: q) ++ [c] ++ join [c] (q2 :: ps))
        with (x :: (q ++ [c] ++ join [c] (q2 :: ps))).
      now rewrite IH.
Qed.

Lemma has_ws_app (a b : str) : has_ws (a ++ b) = has_ws a || has_ws b.
Proof. apply existsb_app. Qed.

Lemma has_ws_join_dot (l : list str) :
  has_ws (join (lit ".") l) = existsb has_ws l.
Proof.
  induction l as [|p l IH]; [reflexivity|].
  destruct l as [|q l].
  - simpl. now rewrite orb_false_r.
  - rewrite join_cons2, !has_ws_app, IH. reflexivity.
Qed.

Lemma join_snoc (sep : str) (l : list str) (a : str) :
  l <> [] -> join sep (l ++ [a]) = join sep l ++ sep ++ a.
Proof.
  induction l as [|p l IH]; intros N; [contradiction|].
  destruct l as [|q l].
  - reflexivity.
  - change ((p :: q :: l) ++ [a]) with (p :: q :: (l ++ [a])).
    rewrite !join_cons2.
    change (q :: l ++ [a]) with ((q :: l) ++ [a]).
    rewrite IH by discriminate. now rewrite <- !app_assoc.
Qed.

Lemma truthy_length (o : option str) :
  truthy o && Nat.eqb (length (interpolate o)) 0 = false.
Proof. destruct o as [[|x s]|]; reflexivity. Qed.

Lemma Record_new_ok (e : str) (p v d : option str) :
  e <> [] -> has_ws e = false ->
  has_ws (interpolate p) = false -> has_ws (interpolate v) = false ->
  Record_new e p v d = Ok (fresh_record e p v d).
Proof.
  intros N He Hp Hv. unfold Record_new.
  rewrite He, Hp, Hv, !andb_false_r, !truthy_length.
  destruct e; [contradiction|reflexivity].
Qed.

Lemma join_nonempty (sep : str) (l : list str) :
  l <> [] -> forallb nonempty l = true -> join sep l <> [].
Proof.
  destruct l as [|p l]; [contradiction|]. intros _ H.
  simpl in H. apply andb_true_iff in H as [Hp _].
  destruct p; [discriminate|]. destruct l; discriminate.
Qed.

(** The names taken from a full name whose parts are not empty make a
    record with that full name. *)
Lemma Record_new_parts (parts : list str) (dd : option str) :
  parts <> [] -> forallb nonempty parts = true ->
  existsb has_ws parts = false ->
  Record_new (decl_entity parts) (decl_property parts) (decl_action parts) dd
  = Ok (fresh_record (decl_entity parts) (decl_property parts)
          (decl_action parts) dd)
  /\ Record_getFullName
       (fresh_record (decl_entity parts) (decl_property parts)
          (decl_action parts) dd)
     = join (lit ".") parts.
Proof.
  intros N Ne Ws. destruct parts as [|p0 rest]; [contradiction|].
  cbn [forallb existsb] in Ne, Ws.
  apply andb_true_iff in Ne as [N0 Ne]. apply orb_false_iff in Ws as [W0 Ws].
  assert (P0 : p0 <> []) by (destruct p0; discriminate).
  unfold decl_entity, decl_property, decl_action. cbn [hd tl].
  destruct rest as [|r1 rest'] eqn:Er.
  - cbn [removelast]. split; [now apply Record_new_ok|].
    rewrite Record_getFullName_spec. unfold fullName_truthy. cbn.
    now rewrite app_nil_r.
  - rewrite <- Er in *.
    assert (Nr : rest <> []) by (rewrite Er; discriminate).
    destruct (exists_last Nr) as (mid & a & Em).
    rewrite Em in *. rewrite last_last, removelast_last.
    rewrite forallb_app in Ne. apply andb_true_iff in Ne as [Nm Na].
    rewrite existsb_app in Ws. apply orb_false_iff in Ws as [Wm Wa].
    cbn [forallb existsb] in Na, Wa.
    rewrite andb_true_r in Na. rewrite orb_false_r in Wa.
    assert (Hv : has_ws (interpolate (Some a)) = false) by exact Wa.
    destruct mid as [|m1 mid'] eqn:Emid.
    + split; [now apply Record_new_ok|].
      rewrite Record_getFullName_spec. unfold fullName_truthy.
      cbn [Record_entityName Record_propertyName Record_verb fresh_record].
      cbn [dotted]. destruct a as [|x a']; [discriminate|].
      cbn [app]. rewrite join_cons2. reflexivity.
    + rewrite <- Emid in *.
      assert (Nmid : mid <> []) by (rewrite Emid; discriminate).
      assert (Hp : has_ws (interpolate (Some (join (lit ".") mid))) = false).
      { cbn [interpolate]. now rewrite has_ws_join_dot. }
      split; [now apply Record_new_ok|].
      rewrite Record_getFullName_spec. unfold fullName_truthy.
      cbn [Record_entityName Record_propertyName Record_verb fresh_record].
      pose proof (join_nonempty (lit ".") mid Nmid Nm) as Nj.
      unfold dotted.
      destruct (join (lit ".") mid) as [|j js] eqn:Ej; [contradiction|].
      destruct a as [|x a']; [discriminate|].
      rewrite <- Ej.
      assert (E2 : join (lit ".") (p0 :: mid ++ [x :: a'])
                   = p0 ++ lit "." ++ join (lit ".") (mid ++ [x :: a'])).
      { destruct mid; [contradiction|]. apply join_cons2. }
      rewrite E2, join_snoc by exact Nmid.
      now rewrite <- !app_assoc.
Qed.

Lemma has_ws_parts (c : ascii) (s : str) :
  has_ws s = false -> existsb has_ws (split_chr c s) = false.
Proof.
  induction s as [|x s IH]; [reflexivity|].
  simpl. intros H. apply orb_false_iff in H as [Hx H].
  specialize (IH H). pose proof (split_chr_ne c s) as N.
  destruct (chr_eqb x c); [exact IH|].
  destruct (split_chr c s) as [|q ps]; [contradiction|].
  simpl in *. now rewrite Hx.
Qed.

Lemma before_ws_app (F Y : str) :
  has_ws F = false -> (Y = [] \/ exists Y', Y = space :: Y') ->
  before_ws (F ++ Y) = F.
Proof.
  intros H HY. induction F as [|x F IH].
  - destruct HY as [->|[Y' ->]]; reflexivity.
  - simpl in H. apply orb_false_iff in H as [Hx H].
    simpl. rewrite Hx. now rewrite IH.
Qed.

Lemma full_name_ok_inv (F : str) :
  full_name_ok F = true ->
  has_ws F = false /\ startsWith (lit "@") F = false
  /\ forallb nonempty (split_chr "."%char F) = true /\ F <> [].
Proof.
  unfold full_name_ok. intros H.
  repeat (apply andb_true_iff in H as [H ?]).
  repeat split; try now apply negb_true_iff.
  - assumption.
  - intros ->. discriminate.
Qed.

Lemma no_ws_tight (F : str) : F <> [] -> has_ws F = false -> tight F.
Proof.
  intros N H. apply (tight_of_class (fun c => negb (is_ws c))); trivial.
  - intros c Hc. now apply negb_true_iff.
  - clear N. induction F as [|x F IH]; [reflexivity|].
    simpl in *. apply orb_false_iff in H as [Hx H]. now rewrite Hx, IH.
Qed.

Lemma no_ws_no_newline (F : str) : has_ws F = false -> has_chr newline F = false.
Proof.
  induction F as [|x F IH]; [reflexivity|].
  simpl. intros H. apply orb_false_iff in H as [Hx H].
  rewrite (IH H), orb_false_r. unfold is_chr.
  destruct (chr_eqb x newline) eqn:E; trivial.
  apply chr_eqb_eq in E. subst x. discriminate Hx.
Qed.

(** The first line of the text of a record: the full name, then nothing
    or white space and the comment. *)
Lemma record_line_form (F : str) (desc : option str) :
  full_name_ok F = true -> description_ok desc = true ->
  exists Y,
    trim (F ++ lit "    " ++ descriptionToString desc) = F ++ Y
    /\ (Y = [] \/ exists Y', Y = space :: Y')
    /\ has_chr newline (F ++ Y) = false
    /\ tight (F ++ Y).
Proof.
  intros Hf Hd. apply full_name_ok_inv in Hf as (Hw & _ & _ & N).
  pose proof (no_ws_tight F N Hw) as T.
  pose proof (no_ws_no_newline F Hw) as Nl.
  destruct (descriptionToString_form desc Hd) as [E|(d' & E & Td & Nd)].
  - exists []. rewrite E, (app_nil_r F). repeat split; auto; try apply T.
    apply (trim_core_eq [] F (lit "    ")); trivial; reflexivity.
  - exists (lit "    " ++ descriptionToString desc).
    assert (Tz : tight (F ++ lit "    " ++ descriptionToString desc))
      by now apply tight_app.
    split; [|split; [|split]]; trivial.
    + apply (trim_core_eq [] _ []); trivial; try reflexivity.
      now rewrite app_nil_r.
    + right. now eexists.
    + rewrite !has_chr_app, Nl, E. exact Nd.
Qed.

Lemma parseRecordDeclaration_names (F Y : str) :
  has_ws F = false -> (Y = [] \/ exists Y', Y = space :: Y') ->
  tight (F ++ Y) ->
  d_entityName (parseRecordDeclaration (F ++ Y))
  = decl_entity (split_chr "."%char F)
  /\ d_propertyName (parseRecordDeclaration (F ++ Y))
     = decl_property (split_chr "."%char F)
  /\ d_actionName (parseRecordDeclaration (F ++ Y))
     = decl_action (split_chr "."%char F).
Proof.
  intros Hw HY T. unfold parseRecordDeclaration.
  rewrite (trim_core_eq [] (F ++ Y) [] (F ++ Y) eq_refl eq_refl T)
    by now rewrite app_nil_r.
  rewrite before_ws_app by assumption.
  repeat split.
Qed.

(** A declaration line adds a record with the full name it carries, and
    makes its main section the current one. *)
Lemma record_step (done : jsmap record) (cr : option str) (sn : str)
    (F : str) (desc : option str) :
  map_has F done = false ->
  full_name_ok F = true -> description_ok desc = true ->
  exists e p v d,
    has_chr newline (trim (F ++ lit "    " ++ descriptionToString desc)) = false
    /\ parse_line (mkState (mkTree done) cr sn)
         (trim (F ++ lit "    " ++ descriptionToString desc))
       = Ok (cur_state done F e p v d [] (lit "main") [])
    /\ fullName_truthy e p v = F.
Proof.
  intros Hk Hf Hd.
  destruct (record_line_form F desc Hf Hd) as (Y & E & HY & Nl & T).
  apply full_name_ok_inv in Hf as (Hw & Ha & Np & N).
  destruct (parseRecordDeclaration_names F Y Hw HY T) as (E1 & E2 & E3).
  set (parts := split_chr "."%char F) in *.
  set (dd := d_description (parseRecordDeclaration (F ++ Y))).
  destruct (Record_new_parts parts dd (split_chr_ne _ _) Np
              (has_ws_parts _ _ Hw)) as [Rn Fn].
  unfold parts in Fn. change (lit ".") with ["."%char] in Fn.
  rewrite (join_split "."%char F) in Fn. fold parts in Fn.
  exists (decl_entity parts), (decl_property parts), (decl_action parts), dd.
  rewrite E. split; [exact Nl|]. split.
  - unfold parse_line.
    rewrite (trim_core_eq [] (F ++ Y) [] (F ++ Y) eq_refl eq_refl T)
      by now rewrite app_nil_r.
    assert (Ne : str_eqb (F ++ Y) [] = false).
    { apply str_eqb_neq. destruct F; [contradiction|discriminate]. }
    assert (Rd : isRecordDeclaration (F ++ Y) = true).
    { destruct F as [|x F']; [contradiction|].
      simpl in Hw. apply orb_false_iff in Hw as [Hx _].
      unfold isRecordDeclaration, test_start, match_here.
      change ((x :: F') ++ Y) with (x :: F' ++ Y).
      rewrite rmatch_Chr_cons, Hx.
      change (isSectionDeclaration (x :: F' ++ Y))
        with (startsWith (lit "@") (x :: F')).
      now rewrite Ha. }
    rewrite Ne, Rd. cbn [ps_tree]. rewrite E1, E2, E3. fold dd.
    unfold Tree_addRecord. rewrite Rn, Fn. cbn [Tree_records].
    rewrite Hk. rewrite map_set_absent by exact Hk.
    rewrite Fn. reflexivity.
  - rewrite Record_getFullName_spec in Fn. exact Fn.
Qed.

Lemma absent_all_differ (V : Type) (k : str) (l : jsmap V) :
  map_has k l = false ->
  forallb (fun e => negb (str_eqb (fst e) k)) l = true.
Proof.
  induction l as [|[k' v'] l IH]; [reflexivity|].
  rewrite map_has_cons. intros H. apply orb_false_iff in H as [E H].
  cbn [forallb fst]. now rewrite E, IH.
Qed.

Lemma record_ok_inv (k : str) (r : record) :
  record_ok (k, r) = true ->
  Record_getFullName r = k /\ full_name_ok k = true
  /\ description_ok (Record_description r) = true
  /\ (exists s0 l, Record_sections r = (lit "main", s0) :: l)
  /\ nodup_keys (Record_sections r) = true
  /\ forallb section_ok (Record_sections r) = true.
Proof.
  unfold record_ok. intros H.
  repeat (apply andb_true_iff in H as [H ?]).
  apply str_eqb_eq in H. symmetry in H. repeat split; trivial.
  destruct (Record_sections r) as [|[k0 s0] l]; [discriminate|].
  match goal with Hm : str_eqb k0 _ = true |- _ => apply str_eqb_eq in Hm; subst k0 end.
  eauto.
Qed.

(** The text of a record adds a record with the same full name, the same
    sections and in them fields of the same shape. *)
Lemma record_steps (done : jsmap record) (cr : option str) (sn : str)
    (key : str) (r : record) :
  map_has key done = false -> record_ok (key, r) = true ->
  exists r' sn',
    parse_text (mkState (mkTree done) cr sn) (Record_stringify r)
    = Ok (mkState (mkTree (done ++ [(key, r')])) (Some key) sn')
    /\ record_shape r' = record_shape r.
Proof.
  intros Hk Hr.
  apply record_ok_inv in Hr as (Ek & Hf & Hd & (s0 & l & Es) & Nd & Hs).
  destruct (record_step done cr sn key (Record_description r) Hk Hf Hd)
    as (e & p & v & d & Nl & St & Fn).
  rewrite Es in Nd, Hs. cbn [forallb] in Hs.
  apply andb_true_iff in Hs as [H0 Hs].
  apply section_ok_inv in H0 as (En0 & _ & _ & Ndf & Okf).
  assert (Hm : map_has (lit "main") (@nil (str * section)) = false)
    by reflexivity.
  destruct (section_body_steps done key e p v d [] (lit "main")
              (Section_fields s0) Hk Hm Ndf Okf) as (fs' & Sh0 & Bd).
  assert (T0 : Section_stringify padding4 s0
               = join [newline]
                   (map (fun f => padding4 ++ f)
                      (map Field_stringify (map_values (Section_fields s0))))
                 ++ [newline]).
  { unfold Section_stringify. rewrite En0. reflexivity. }
  assert (Tr : Record_stringify r
               = trim (key ++ lit "    "
                       ++ descriptionToString (Record_description r))
                 ++ newline
                 :: join [newline]
                      (map (Section_stringify padding4)
                         (map_values ((lit "main", s0) :: l)))).
  { unfold Record_stringify. rewrite Ek, Es. unfold map_values.
    cbn [map snd]. rewrite join_cons2. reflexivity. }
  rewrite Tr, parse_text_app, parse_text_line by exact Nl. rewrite St.
  assert (Sh1 : sections_shape [(lit "main", mkSection (lit "main") fs')]
                = sections_shape [(lit "main", s0)]).
  { unfold sections_shape. cbn [map fst snd].
    now rewrite (section_shape_built (lit "main") s0 fs' En0 Sh0). }
  unfold map_values. cbn [map snd].
  destruct l as [|e2 l].
  - cbn [map join]. rewrite T0, Bd.
    exists (mkRecord e p v ([] ++ [(lit "main", mkSection (lit "main") fs')]) d),
      (lit "main").
    split; [reflexivity|].
    unfold record_shape. rewrite !Record_getFullName_spec.
    cbn [Record_entityName Record_propertyName Record_verb Record_sections].
    rewrite Fn, <- Record_getFullName_spec, Ek, Es.
    f_equal. exact Sh1.
  - rewrite join_cons_ne by (cbn; discriminate).
    change ([newline] ++ ?x) with (newline :: x).
    rewrite parse_text_app, T0, Bd.
    assert (Nm : forallb (fun e => negb (str_eqb (fst e) (lit "main")))
                   (e2 :: l) = true).
    { apply absent_all_differ. pose proof Nd as Nd'. simpl in Nd'.
      apply andb_true_iff in Nd' as [Nd' _]. now apply negb_true_iff. }
    assert (Nd2 : nodup_keys ([] ++ (lit "main", mkSection (lit "main") fs')
                              :: e2 :: l) = true).
    { erewrite nodup_keys_keys; [exact Nd|reflexivity]. }
    destruct (sections_steps done key e p v d (e2 :: l) Hk []
                (lit "main") fs' Hs Nm Nd2) as (sdone' & sn' & fields' & P2 & Sh2);
      [discriminate|].
    unfold map_values in P2. rewrite P2.
    exists (mkRecord e p v (sdone' ++ [(sn', mkSection sn' fields')]) d), sn'.
    split; [reflexivity|].
    unfold record_shape. rewrite !Record_getFullName_spec.
    cbn [Record_entityName Record_propertyName Record_verb Record_sections].
    rewrite Fn, <- Record_getFullName_spec, Ek, Es.
    f_equal. fold (sections_shape (sdone' ++ [(sn', mkSection sn' fields')])).
    rewrite Sh2. cbn [app]. rewrite Sh1. reflexivity.
Qed.

(** The text of a tree adds its records one after the other. *)
Lemma records_steps (recs : jsmap record) :
  forall (done : jsmap record) (cr : option str) (sn : str),
    forallb record_ok recs = true ->
    nodup_keys (done ++ recs) = true ->
    recs <> [] ->
    exists recs' cr' sn',
      parse_text (mkState (mkTree done) cr sn)
        (join [newline; newline] (map Record_stringify (map_values recs)))
      = Ok (mkState (mkTree (done ++ recs')) cr' sn')
      /\ records_shape recs' = records_shape recs.
Proof.
  induction recs as [|[key r] recs IH]; intros done cr sn Hok Nd Ne;
    [contradiction|].
  cbn [forallb] in Hok. apply andb_true_iff in Hok as [Hr Hok].
  destruct (nodup_keys_mid _ _ _ _ _ Nd) as [Hk _].
  destruct (record_steps done cr sn key r Hk Hr) as (r' & sn' & P1 & Sh1).
  unfold map_values in *. cbn [map snd].
  destruct recs as [|e2 recs].
  - exists [(key, r')], (Some key), sn'. cbn [map join].
    split; [exact P1|]. unfold records_shape. cbn [map fst snd].
    now rewrite Sh1.
  - assert (Nd2 : nodup_keys ((done ++ [(key, r')]) ++ e2 :: recs) = true).
    { rewrite <- Nd. apply nodup_keys_keys.
      rewrite <- app_assoc, !map_app. reflexivity. }
    destruct (IH (done ++ [(key, r')]) (Some key) sn' Hok Nd2)
      as (recs' & cr' & sn'' & P2 & Sh2); [discriminate|].
    exists ((key, r') :: recs'), cr', sn''. split.
    + rewrite join_cons_ne by (cbn; discriminate).
      change ([newline; newline] ++ ?x) with (newline :: [] ++ newline :: x).
      rewrite parse_text_app, P1, parse_text_app, parse_text_nil.
      rewrite P2. now rewrite <- app_assoc.
    + unfold records_shape in *. cbn [map fst snd]. now rewrite Sh1, Sh2.
Qed.

(** ** Round trip *)

(** X29: a tree that the text format can carry is written and read back
    with the same structure: parsing the text of the tree succeeds, and
    gives the same full names, section names, field names, optional
    flags, default values and attributes, in the same order.  The
    conditions on the tree: records, sections, fields and attributes are
    stored under their names, no name twice in a map; a full name has no
    white space, does not start with @, and is made of parts between dots
    that are not empty; a section name is a non-empty text of word
    characters and dots, and the first section of a record is main; a
    required field has no default value and a non-empty name of letters,
    digits, underscores and dots; an optional field has a default value
    that is a string with no double quote, line feed, closing bracket or
    backslash right before a quote, and a non-empty name with no white
    space, equals sign or closing bracket that does not start with the
    comment marker and is not [__proto__]; an attribute name is not empty,
    has no white space or equals sign, does not start with the comment
    marker, and is neither [__proto__] nor an array index; an attribute
    value is [null] or a non-empty string with no double quote or line
    feed that does not end with a backslash; a description has no double
    quote and no line feed. *)
Theorem round_trip_on_structure (t : tree) (Hok : tree_ok t = true) :
  exists t',
    treeFromString (Tree_stringify t) = Ok t'
    /\ tree_shape t' = tree_shape t.
Proof.
  unfold tree_ok in Hok. apply andb_true_iff in Hok as [Nd Hr].
  unfold treeFromString, Tree_stringify, tree_shape.
  destruct (Tree_records t) as [|e recs] eqn:Er.
  - exists Tree_new. split; reflexivity.
  - destruct (records_steps (e :: recs) [] None (lit "main") Hr Nd)
      as (recs' & cr' & sn' & P & Sh); [discriminate|].
    unfold parse_text in P. unfold Tree_new. rewrite P.
    exists (mkTree recs'). split; [reflexivity|exact Sh].
Qed.

Lemma round_trip_on_structure_witness :
  tree_ok example_tree = true
  /\ exists t',
       treeFromString (Tree_stringify example_tree) = Ok t'
       /\ tree_shape t' = tree_shape example_tree.
Proof.
  split; [vm_compute; reflexivity|].
  apply (round_trip_on_structure example_tree). vm_compute. reflexivity.
Defined.

(** C1: the round trip loses an optional field without a default value.
    The tree that the parser builds from the end-to-end example of the
    specification has no double quote and no line feed in any value or
    description; [stringify] writes its field password, optional with
    the default value [null], as the name and the text null between
    quotes in brackets, and the parser reads that line as a field whose
    default value is the string null, so that the tree read back has not
    the default values of the tree written.  The parser reads both
    [password?] and the name alone between brackets as the optional
    field without a default value; [stringify] writes neither. *)
Lemma optional_field_without_default_not_kept :
  treeFromString example_update = Ok example_update_tree
  /\ plain_tree example_update_tree = true
  /\ ~ (exists t',
          treeFromString (Tree_stringify example_update_tree) = Ok t'
          /\ tree_shape t' = tree_shape example_update_tree)
  /\ Field_stringify (mkField (lit "password") [] true None None)
     = lit "[password=" ++ dq "null" ++ lit "]"
  /\ parseField (lit "[password=" ++ dq "null" ++ lit "]")
     = Ok (mkField (lit "password") [] true (Some (lit "null")) None)
  /\ parseField (lit "password?")
     = Ok (mkField (lit "password") [] true None None)
  /\ parseField (lit "[password]")
     = Ok (mkField (lit "password") [] true None None).
Proof.
  split; [vm_compute; reflexivity|]. split; [vm_compute; reflexivity|].
  split; [|repeat split; vm_compute; reflexivity].
  intros (t' & E & S). vm_compute in E. injection E as <-.
  vm_compute in S. discriminate S.
Qed.

(** * Further properties of the code *)

(** ** The classifier *)

Lemma getVerbFromActionName_range (a : option str) :
  getVerbFromActionName a = None
  \/ exists v, getVerbFromActionName a = Some v /\ In v verbs.
Proof.
  unfold getVerbFromActionName, verbs.
  destruct a as [[|x s]|]; auto.
  right.
  repeat match goal with
         | |- context [if ?b then _ else _] => destruct b
         end;
    eexists; (split; [reflexivity|]); cbn [In];
    repeat (first [left; reflexivity | right]).
Qed.

(** X1: the classifier sends each of its own results to itself, so that
    classifying the result of a classification changes nothing. *)
Theorem getVerbFromActionName_idempotent (a : option str) :
  getVerbFromActionName (getVerbFromActionName a) = getVerbFromActionName a.
Proof.
  destruct (getVerbFromActionName_range a) as [E|(v & E & I)]; rewrite E;
    [reflexivity|].
  unfold verbs in I. cbn [In] in I.
  repeat destruct I as [<-|I]; try (vm_compute; reflexivity).
  contradiction.
Qed.

(** X2: the classifier returns [null] for [null] and for the empty string
    and for nothing else; a name made of white space only is not empty, and
    is classified check; every other result is one of the six verbs. *)
Theorem getVerbFromActionName_null :
  (forall a, getVerbFromActionName a = None <-> a = None \/ a = Some [])
  /\ (forall w, w <> [] -> forallb is_ws w = true ->
                getVerbFromActionName (Some w) = Some CHECK)
  /\ (forall a v, getVerbFromActionName a = Some v -> In v verbs).
Proof.
  split; [|split].
  - intros a. split.
    + destruct a as [[|x s]|]; auto.
      unfold getVerbFromActionName.
      repeat match goal with
             | |- context [if ?b then _ else _] => destruct b
             end; discriminate.
    + intros [->| ->]; reflexivity.
  - intros w N B. destruct w as [|x s]; [contradiction|].
    unfold getVerbFromActionName. now rewrite (trim_blank (x :: s) B).
  - intros a v E.
    destruct (getVerbFromActionName_range a) as [E'|(v' & E' & I)];
      rewrite E' in E; [discriminate|]. now injection E as <-.
Qed.

Lemma getVerbFromActionName_null_witness :
  lit "  " <> [] /\ forallb is_ws (lit "  ") = true
  /\ getVerbFromActionName (Some (lit "  ")) = Some CHECK.
Proof.
  split; [discriminate|]. split; [reflexivity|].
  destruct getVerbFromActionName_null as (_ & W & _).
  apply (W (lit "  ")); [discriminate|reflexivity].
Defined.

Lemma startsWith_prefix_ci (p s : str) :
  startsWith p s = true -> prefix_ci p s = true.
Proof.
  revert s. induction p as [|x p IH]; intros [|y s]; simpl; trivial.
  intros H. apply andb_true_iff in H as [A B].
  apply chr_eqb_eq in A. subst y.
  unfold chr_eqb_ci. rewrite chr_eqb_refl. simpl. now apply IH.
Qed.

Lemma startsWith_contains_ci (p s : str) :
  startsWith p s = true -> contains_ci p s = true.
Proof.
  intros H. apply startsWith_prefix_ci in H.
  destruct s; simpl; now rewrite H.
Qed.

Lemma bundle_classifier_cases (s : str) :
  (startsWith (lit "get") (trim s) = false
   /\ startsWith (lit "set") (trim s) = false
   /\ startsWith (lit "add") (trim s) = false
   /\ startsWith (lit "delete") (trim s) = false
   /\ startsWith (lit "list") (trim s) = false
   /\ contains_ci (lit "list") (trim s) = true
   /\ getVerbFromActionName (Some s) = Some LIST
   /\ Bundle.getVerbFromActionName (Some s) = Some CHECK)
  \/ ((startsWith (lit "get") (trim s) = true
       \/ startsWith (lit "set") (trim s) = true
       \/ startsWith (lit "add") (trim s) = true
       \/ startsWith (lit "delete") (trim s) = true
       \/ startsWith (lit "list") (trim s) = true
       \/ contains_ci (lit "list") (trim s) = false)
      /\ Bundle.getVerbFromActionName (Some s)
         = getVerbFromActionName (Some s)).
Proof.
  destruct s as [|x s].
  { right. split; [|reflexivity]. repeat right. reflexivity. }
  unfold Bundle.getVerbFromActionName, getVerbFromActionName.
  set (n := trim (x :: s)).
  destruct (startsWith (lit "get") n); [right; auto|].
  destruct (startsWith (lit "set") n); [right; auto|].
  destruct (startsWith (lit "add") n); [right; auto|].
  destruct (startsWith (lit "delete") n); [right; auto 6|].
  unfold re_list_i. rewrite test_Lit_ci.
  destruct (startsWith (lit "list") n) eqn:L.
  - rewrite (startsWith_contains_ci _ _ L). right. auto 7.
  - destruct (contains_ci (lit "list") n) eqn:T.
    + left. repeat split; trivial.
      now destruct (startsWith (lit "check") n).
    + right. split; [|reflexivity]. repeat right. reflexivity.
Qed.

(** X3: the two builds of the classifier in [dist/] differ on exactly the
    names that no earlier rule takes (the trimmed name does not start
    with get, set, add or delete) and that have list in them, in any case
    of the letters, without starting with list in lower case.  On such a
    name the build with the regular expression says list and the build
    with the prefix test says check; on every other input the two builds
    give the same result.  The name userList is such a name. *)
Theorem bundle_classifier_differs_on_list :
  (forall a : option str,
      Bundle.getVerbFromActionName a <> getVerbFromActionName a
      <-> exists s,
            a = Some s
            /\ startsWith (lit "get") (trim s) = false
            /\ startsWith (lit "set") (trim s) = false
            /\ startsWith (lit "add") (trim s) = false
            /\ startsWith (lit "delete") (trim s) = false
            /\ startsWith (lit "list") (trim s) = false
            /\ contains_ci (lit "list") (trim s) = true)
  /\ (forall a : option str,
        Bundle.getVerbFromActionName a <> getVerbFromActionName a ->
        getVerbFromActionName a = Some LIST
        /\ Bundle.getVerbFromActionName a = Some CHECK)
  /\ getVerbFromActionName (Some (lit "userList")) = Some LIST
  /\ Bundle.getVerbFromActionName (Some (lit "userList")) = Some CHECK.
Proof.
  split; [|split; [|split; reflexivity]].
  - intros a. split.
    + intros D. destruct a as [s|]; [|now contradiction D].
      destruct (bundle_classifier_cases s)
        as [(G & S & A & Dl & L & C & _)|[_ E]]; [|contradiction].
      exists s. repeat split; assumption.
    + intros (s & -> & G & S & A & Dl & L & C).
      destruct (bundle_classifier_cases s)
        as [(_ & _ & _ & _ & _ & _ & E1 & E2)|[O _]].
      * rewrite E1, E2. intros E. vm_compute in E. discriminate E.
      * destruct O as [O|[O|[O|[O|[O|O]]]]]; congruence.
  - intros a D. destruct a as [s|]; [|now contradiction D].
    destruct (bundle_classifier_cases s)
      as [(_ & _ & _ & _ & _ & _ & E1 & E2)|[_ E]]; [|contradiction].
    now split.
Qed.

(** ** Maps, again *)

Section MapMore.
Variable V : Type.
Implicit Types (m : jsmap V) (k : str) (v : V).

Lemma map_has_set_other k k' v m :
  k <> k' -> map_has k (map_set k' v m) = map_has k m.
Proof. intros N. unfold map_has. now rewrite (map_get_set_other V k k' v m N). Qed.

Lemma map_has_delete_other k k' m :
  k <> k' -> map_has k (map_delete k' m) = map_has k m.
Proof. intros N. unfold map_has. now rewrite (map_get_delete_other V k k' m N). Qed.

Lemma map_keys_set k v m :
  map_keys (map_set k v m)
  = if map_has k m then map_keys m else map_keys m ++ [k].
Proof.
  unfold map_keys. induction m as [|[k' v'] m IH]; simpl; trivial.
  rewrite map_has_cons. destruct (str_eqb k' k) eqn:E; simpl; trivial.
  rewrite IH. now destruct (map_has k m).
Qed.

Lemma map_delete_absent k m : map_has k m = false -> map_delete k m = m.
Proof.
  induction m as [|[k' v'] m IH]; simpl; trivial.
  rewrite map_has_cons. intros H. apply orb_false_iff in H as [A B].
  rewrite A. now rewrite IH.
Qed.

Lemma map_has_delete_same k m :
  nodup_keys m = true -> map_has k (map_delete k m) = false.
Proof.
  induction m as [|[k' v'] m IH]; simpl; trivial.
  intros Nd. apply andb_true_iff in Nd as [A B].
  destruct (str_eqb k' k) eqn:E.
  - apply str_eqb_eq in E. subst k'. now apply negb_true_iff in A.
  - rewrite map_has_cons, E. simpl. auto.
Qed.

Lemma nodup_keys_set k v m :
  nodup_keys m = true -> nodup_keys (map_set k v m) = true.
Proof.
  induction m as [|[k' v'] m IH]; simpl; trivial.
  intros Nd. apply andb_true_iff in Nd as [A B].
  destruct (str_eqb k' k) eqn:E; simpl.
  - now rewrite A, B.
  - apply str_eqb_neq in E. rewrite (map_has_set_other k' k v m E), A. simpl. auto.
Qed.

Lemma nodup_keys_delete k m :
  nodup_keys m = true -> nodup_keys (map_delete k m) = true.
Proof.
  induction m as [|[k' v'] m IH]; simpl; trivial.
  intros Nd. apply andb_true_iff in Nd as [A B].
  destruct (str_eqb k' k) eqn:E; simpl; trivial.
  apply str_eqb_neq in E. rewrite (map_has_delete_other k' k m E), A. simpl. auto.
Qed.

Lemma map_get_has k m v : map_get k m = Some v -> map_has k m = true.
Proof. unfold map_has. now intros ->. Qed.

Lemma map_has_get_none k m : map_has k m = false -> map_get k m = None.
Proof. unfold map_has. now destruct (map_get k m). Qed.

End MapMore.

(** ** Fields *)

(** X4: after [setAttribute(name, value)] the field has the attribute;
    [getAttribute(name)] gives the value back when it is a non-empty
    string, and [null] when it is [null] or the empty string; an attribute
    that was there keeps its place in the order and a new one goes last;
    the other attributes are as they were. *)
Theorem Field_setAttribute_then_get (name : str) (value : option str)
    (f : field) :
  Field_hasAttribute name (Field_setAttribute name value f) = true
  /\ Field_getAttribute name (Field_setAttribute name value f)
     = (if truthy value then value else None)
  /\ map_keys (Field_attributes (Field_setAttribute name value f))
     = (if Field_hasAttribute name f then map_keys (Field_attributes f)
        else map_keys (Field_attributes f) ++ [name])
  /\ (forall other,
         other <> name ->
         Field_hasAttribute other (Field_setAttribute name value f)
         = Field_hasAttribute other f
         /\ Field_getAttribute other (Field_setAttribute name value f)
            = Field_getAttribute other f).
Proof.
  unfold Field_hasAttribute, Field_getAttribute, Field_setAttribute.
  cbn [Field_attributes]. repeat split.
  - apply map_has_set_same.
  - now rewrite map_get_set_same.
  - apply map_keys_set.
  - now apply map_has_set_other.
  - now rewrite (map_get_set_other _ other name value _ H).
Qed.

Lemma Field_setAttribute_then_get_witness :
  lit "min" <> lit "max"
  /\ Field_getAttribute (lit "min")
       (Field_setAttribute (lit "max") (Some (lit "9"))
          (Field_setAttribute (lit "min") (Some (lit "1"))
             (Field_new (lit "port") false None None)))
     = Some (lit "1").
Proof.
  split; [discriminate|].
  destruct (Field_setAttribute_then_get (lit "max") (Some (lit "9"))
              (Field_setAttribute (lit "min") (Some (lit "1"))
                 (Field_new (lit "port") false None None)))
    as (_ & _ & _ & F).
  destruct (F (lit "min")) as [_ G]; [discriminate|].
  rewrite G. reflexivity.
Defined.

(** X5: after [deleteAttribute(name)] the field no longer has the
    attribute, the other attributes are as they were, and deleting an
    attribute that the field does not have changes nothing.  (The keys of
    the map of attributes are distinct, as the keys of a [Map] are.) *)
Theorem Field_deleteAttribute_then_has (name : str) (f : field)
    (Hkeys : nodup_keys (Field_attributes f) = true) :
  Field_hasAttribute name (Field_deleteAttribute name f) = false
  /\ Field_getAttribute name (Field_deleteAttribute name f) = None
  /\ (Field_hasAttribute name f = false -> Field_deleteAttribute name f = f)
  /\ (forall other,
         other <> name ->
         Field_hasAttribute other (Field_deleteAttribute name f)
         = Field_hasAttribute other f
         /\ Field_getAttribute other (Field_deleteAttribute name f)
            = Field_getAttribute other f).
Proof.
  unfold Field_hasAttribute, Field_getAttribute, Field_deleteAttribute.
  cbn [Field_attributes]. repeat split.
  - now apply map_has_delete_same.
  - now rewrite (map_has_get_none _ _ _ (map_has_delete_same _ name _ Hkeys)).
  - intros A. rewrite (map_delete_absent _ _ _ A). now destruct f.
  - now apply map_has_delete_other.
  - now rewrite (map_get_delete_other _ other name _ H).
Qed.

Lemma Field_deleteAttribute_then_has_witness :
  nodup_keys
    (Field_attributes
       (Field_setAttribute (lit "min") (Some (lit "1"))
          (Field_new (lit "port") false None None))) = true
  /\ Field_hasAttribute (lit "min")
       (Field_deleteAttribute (lit "min")
          (Field_setAttribute (lit "min") (Some (lit "1"))
             (Field_new (lit "port") false None None))) = false.
Proof.
  split; [reflexivity|].
  apply (Field_deleteAttribute_then_has (lit "min")
           (Field_setAttribute (lit "min") (Some (lit "1"))
              (Field_new (lit "port") false None None)) eq_refl).
Defined.

(** ** Sections *)

(** X6: [addField] of a field whose name the section does not have
    succeeds; the field is then the last of [getFields()], after the
    fields that were there, in their order, and [getField] finds it under
    its name. *)
Theorem Section_addField_appends (f : field) (s : section)
    (Hnew : Section_hasField (Field_name f) s = false) :
  exists s',
    Section_addField f s = (s', Ok tt)
    /\ Section_name s' = Section_name s
    /\ Section_getFields s' = Section_getFields s ++ [f]
    /\ Section_getField (Field_name f) s' = Some f
    /\ (forall other,
           other <> Field_name f ->
           Section_getField other s' = Section_getField other s).
Proof.
  unfold Section_addField. rewrite Hnew. eexists. split; [reflexivity|].
  unfold Section_hasField in Hnew.
  unfold Section_getFields, Section_getField, map_values.
  cbn [Section_name Section_fields].
  repeat split.
  - rewrite (map_set_absent _ _ _ _ Hnew). now rewrite map_app.
  - apply map_get_set_same.
  - intros other N. now apply map_get_set_other.
Qed.

Lemma Section_addField_appends_witness :
  Section_hasField (Field_name (Field_new (lit "b") false None None))
    (mkSection (lit "main") [(lit "a", Field_new (lit "a") false None None)])
  = false
  /\ exists s',
       Section_addField (Field_new (lit "b") false None None)
         (mkSection (lit "main")
            [(lit "a", Field_new (lit "a") false None None)])
       = (s', Ok tt)
       /\ Section_getFields s'
          = [Field_new (lit "a") false None None;
             Field_new (lit "b") false None None].
Proof.
  split; [reflexivity|].
  destruct (Section_addField_appends (Field_new (lit "b") false None None)
              (mkSection (lit "main")
                 [(lit "a", Field_new (lit "a") false None None)]) eq_refl)
    as (s' & A & _ & G & _).
  exists s'. split; [exact A|exact G].
Defined.

(** X7: [setField] never throws (the comment in the source says it does
    when the field exists); [getField] then finds the field under its
    name; a field of that name that was there is replaced in its place,
    a new name goes last; the other fields are as they were. *)
Theorem Section_setField_overwrites (f : field) (s : section) :
  exists s',
    Section_setField f s = (s', Ok tt)
    /\ Section_name s' = Section_name s
    /\ Section_getField (Field_name f) s' = Some f
    /\ map_keys (Section_fields s')
       = (if Section_hasField (Field_name f) s
          then map_keys (Section_fields s)
          else map_keys (Section_fields s) ++ [Field_name f])
    /\ (forall other,
           other <> Field_name f ->
           Section_getField other s' = Section_getField other s).
Proof.
  unfold Section_setField. eexists. split; [reflexivity|].
  unfold Section_getField, Section_hasField.
  cbn [Section_name Section_fields]. repeat split.
  - apply map_get_set_same.
  - apply map_keys_set.
  - intros other N. now apply map_get_set_other.
Qed.

(** ** Records *)

Lemma opt_has_ws_truthy (o : option str) :
  truthy o && has_ws (interpolate o) = opt_has_ws o.
Proof. destruct o as [[|x s]|]; reflexivity. Qed.

Lemma Section_new_main : Section_new (lit "main") = Ok (mkSection (lit "main") []).
Proof. reflexivity. Qed.

Lemma Record_new_cases (e : str) (p v d : option str) :
  Record_new e p v d
  = if has_ws e then Throw (EntityNameSpaces e)
    else match e with
         | [] => Throw EntityNameEmpty
         | _ :: _ =>
             if opt_has_ws p then Throw (PropertyNameSpaces (interpolate p))
             else if opt_has_ws v then Throw (VerbSpaces (interpolate v))
             else Ok (fresh_record e p v d)
         end.
Proof.
  unfold Record_new. rewrite !truthy_length, !opt_has_ws_truthy.
  rewrite Section_new_main.
  destruct (has_ws e); trivial. destruct e; reflexivity.
Qed.

Lemma has_ws_dotted (o : option str) : has_ws (dotted o) = opt_has_ws o.
Proof. destruct o as [[|x s]|]; reflexivity. Qed.

(** X8: the constructor of [Record] never reports an empty property name
    or an empty verb (the two tests are made on a value already known
    not to be empty), and it succeeds exactly when the entity name is not
    empty and neither it, the property name nor the verb has white space;
    an empty property name or verb is accepted. *)
Theorem Record_new_checks (e : str) (p v d : option str) :
  Record_new e p v d <> Throw PropertyNameEmpty
  /\ Record_new e p v d <> Throw VerbEmpty
  /\ ((exists r, Record_new e p v d = Ok r)
      <-> e <> [] /\ has_ws e = false
          /\ opt_has_ws p = false /\ opt_has_ws v = false).
Proof.
  rewrite Record_new_cases.
  destruct (has_ws e) eqn:We.
  { split; [discriminate|]. split; [discriminate|]. split.
    - intros [r Hr]. discriminate.
    - intros (_ & Hc & _). discriminate. }
  destruct e as [|x e'].
  { split; [discriminate|]. split; [discriminate|]. split.
    - intros [r Hr]. discriminate.
    - intros (Hc & _). contradiction. }
  destruct (opt_has_ws p) eqn:Wp.
  { split; [discriminate|]. split; [discriminate|]. split.
    - intros [r Hr]. discriminate.
    - intros (_ & _ & Hc & _). discriminate. }
  destruct (opt_has_ws v) eqn:Wv.
  { split; [discriminate|]. split; [discriminate|]. split.
    - intros [r Hr]. discriminate.
    - intros (_ & _ & _ & Hc). discriminate. }
  split; [discriminate|]. split; [discriminate|]. split.
  - intros _. repeat split. discriminate.
  - intros _. now eexists.
Qed.

(** X9: a record that the constructor returns has the three names and the
    description it was given and one section, main, which is empty; its
    full name is not empty and has no white space. *)
Theorem Record_new_full_name (e : str) (p v d : option str) (r : record)
    (Hnew : Record_new e p v d = Ok r) :
  r = fresh_record e p v d
  /\ Record_getFullName r <> []
  /\ has_ws (Record_getFullName r) = false
  /\ Record_getFields (lit "main") r = Some [].
Proof.
  rewrite Record_new_cases in Hnew.
  destruct (has_ws e) eqn:We; [discriminate|].
  destruct e as [|x e']; [discriminate|].
  destruct (opt_has_ws p) eqn:Wp; [discriminate|].
  destruct (opt_has_ws v) eqn:Wv; [discriminate|].
  injection Hnew as <-. split; [reflexivity|].
  rewrite Record_getFullName_spec. unfold fullName_truthy, fresh_record.
  cbn [Record_entityName Record_propertyName Record_verb]. repeat split.
  - discriminate.
  - now rewrite !has_ws_app, !has_ws_dotted, We, Wp, Wv.
Qed.

Lemma Record_new_full_name_witness :
  Record_new (lit "user") (Some (lit "profile")) (Some (lit "update")) None
  = Ok (fresh_record (lit "user") (Some (lit "profile"))
          (Some (lit "update")) None)
  /\ has_ws
       (Record_getFullName
          (fresh_record (lit "user") (Some (lit "profile"))
             (Some (lit "update")) None)) = false.
Proof.
  split; [reflexivity|].
  apply (Record_new_full_name (lit "user") (Some (lit "profile"))
           (Some (lit "update")) None _ eq_refl).
Defined.

Lemma Section_new_good (name : str) :
  name <> [] -> has_ws name = false ->
  Section_new name = Ok (mkSection name []).
Proof.
  intros N W. unfold Section_new. rewrite W. now destruct name.
Qed.

Lemma on_section_present (A : Type) (name : str) (m : M section A)
    (r : record) (s : section) :
  map_get name (Record_sections r) = Some s ->
  on_section name m r
  = (Record_set_sections (map_set name (fst (m s)) (Record_sections r)) r,
     snd (m s)).
Proof. intros G. unfold on_section. rewrite G. now destruct (m s). Qed.

(** X10: [addField] into a section that the record does not have creates
    the section, last in the order of the sections, with the field as its
    only field, when the section name is not empty and has no white space;
    when it is not such a name the call throws what the constructor of
    [Section] throws and the record is as it was. *)
Theorem Record_addField_new_section (f : field) (sn : str) (r : record)
    (Hmiss : Record_hasSection sn r = false) :
  (sn <> [] -> has_ws sn = false ->
   exists r',
     Record_addField f sn r = (r', Ok tt)
     /\ Record_getSections r'
        = Record_getSections r ++ [mkSection sn [(Field_name f, f)]]
     /\ Record_getFields sn r' = Some [f])
  /\ (has_ws sn = true ->
      Record_addField f sn r = (r, Throw (SectionNameSpaces sn)))
  /\ (sn = [] -> Record_addField f sn r = (r, Throw SectionNameEmpty)).
Proof.
  unfold Record_hasSection in Hmiss.
  pose proof (map_has_get_none _ _ _ Hmiss) as G.
  unfold Record_addField. rewrite G. unfold bind, Record_addSection.
  unfold Record_hasSection. rewrite Hmiss.
  split; [|split].
  - intros N W. rewrite (Section_new_good sn N W).
    rewrite (map_set_absent _ _ _ _ Hmiss).
    rewrite (on_section_present _ _ _ _ (mkSection sn [])).
    2:{ cbn [Record_set_sections Record_sections].
        apply (map_get_last _ _ _ _ Hmiss). }
    eexists. split; [reflexivity|].
    cbn [Record_set_sections Record_sections].
    unfold Section_addField, Section_hasField. cbn [Section_fields fst].
    change (map_has (Field_name f) (@nil (str * field))) with false.
    cbn iota. cbn [fst Section_name].
    rewrite (map_set_last _ _ _ _ _ Hmiss).
    unfold Record_getSections, Record_getFields, map_values.
    unfold Record_set_sections. cbn [Record_sections map_set]. split.
    + now rewrite map_app.
    + now rewrite (map_get_last _ _ _ _ Hmiss).
  - intros W. unfold Section_new. now rewrite W.
  - intros ->. reflexivity.
Qed.

Lemma Record_addField_new_section_witness :
  Record_hasSection (lit "returns") (fresh_record (lit "user") None None None)
  = false
  /\ exists r',
       Record_addField (Field_new (lit "ok") false None None) (lit "returns")
         (fresh_record (lit "user") None None None) = (r', Ok tt)
       /\ Record_getFields (lit "returns") r'
          = Some [Field_new (lit "ok") false None None].
Proof.
  split; [reflexivity|].
  destruct (Record_addField_new_section (Field_new (lit "ok") false None None)
              (lit "returns") (fresh_record (lit "user") None None None)
              eq_refl) as (H & _).
  destruct H as (r' & A & _ & G); [discriminate|reflexivity|].
  exists r'. split; [exact A|exact G].
Defined.

Lemma Record_getField_set (n s sn : str) (x : section) (r : record) :
  Record_getField n s
    (Record_set_sections (map_set sn x (Record_sections r)) r)
  = if str_eqb s sn then Section_getField n x else Record_getField n s r.
Proof.
  unfold Record_getField. cbn [Record_set_sections Record_sections].
  destruct (str_eqb s sn) eqn:E.
  - apply str_eqb_eq in E. subst s. now rewrite map_get_set_same.
  - apply str_eqb_neq in E. now rewrite (map_get_set_other _ s sn x _ E).
Qed.

Lemma Record_write_field (f : field) (sn : str) (r r' : record)
    (m : M section unit) :
  (forall s, fst (m s)
             = mkSection (Section_name s)
                 (map_set (Field_name f) f (Section_fields s))) ->
  match map_get sn (Record_sections r) with
  | Some _ => on_section sn m r
  | None => (_ <- Record_addSection sn ;; on_section sn m) r
  end = (r', Ok tt) ->
  forall n s,
    Record_getField n s r'
    = if str_eqb s sn && str_eqb n (Field_name f) then Some f
      else Record_getField n s r.
Proof.
  intros Hm Hrun n s.
  assert (Hwrite : forall x : section,
             Section_getField n (fst (m x))
             = if str_eqb n (Field_name f) then Some f
               else Section_getField n x).
  { intros x. rewrite Hm. unfold Section_getField. cbn [Section_fields].
    destruct (str_eqb n (Field_name f)) eqn:E.
    - apply str_eqb_eq in E. subst n. apply map_get_set_same.
    - apply str_eqb_neq in E. now apply map_get_set_other. }
  destruct (map_get sn (Record_sections r)) as [s0|] eqn:G.
  - rewrite (on_section_present _ _ _ _ _ G) in Hrun.
    pose proof (f_equal fst Hrun) as Hr. cbn [fst] in Hr. subst r'.
    rewrite Record_getField_set.
    destruct (str_eqb s sn) eqn:E; trivial. cbn [andb].
    rewrite Hwrite. apply str_eqb_eq in E. subst s.
    unfold Record_getField. now rewrite G.
  - unfold bind, Record_addSection, Record_hasSection in Hrun.
    unfold map_has in Hrun. rewrite G in Hrun.
    destruct (Section_new sn) as [s1|err] eqn:S1; [|discriminate].
    assert (s1 = mkSection sn []) as ->.
    { unfold Section_new in S1. destruct (has_ws sn); [discriminate|].
      destruct (Nat.eqb (length sn) 0); [discriminate|]. now injection S1. }
    rewrite (on_section_present _ _ _ _ (mkSection sn [])) in Hrun.
    2:{ cbn [Record_set_sections Record_sections]. apply map_get_set_same. }
    pose proof (f_equal fst Hrun) as Hr. cbn [fst] in Hr. subst r'.
    rewrite Record_getField_set.
    destruct (str_eqb s sn) eqn:E; cbn [andb].
    + rewrite Hwrite. apply str_eqb_eq in E. subst s.
      unfold Record_getField at 1. rewrite G.
      now destruct (str_eqb n (Field_name f)).
    + rewrite Record_getField_set, E. reflexivity.
Qed.

Lemma on_section_add_as_set (f : field) (sn : str) (r r' : record) :
  on_section sn (Section_addField f) r = (r', Ok tt) ->
  on_section sn (Section_setField f) r = (r', Ok tt).
Proof.
  unfold on_section. destruct (map_get sn (Record_sections r)) as [s0|]; trivial.
  unfold Section_addField, Section_setField.
  now destruct (Section_hasField (Field_name f) s0).
Qed.

Lemma Record_addField_as_set (f : field) (sn : str) (r r' : record) :
  Record_addField f sn r = (r', Ok tt) -> Record_setField f sn r = (r', Ok tt).
Proof.
  unfold Record_addField, Record_setField.
  destruct (map_get sn (Record_sections r)) as [s0|].
  - apply on_section_add_as_set.
  - unfold bind. destruct (Record_addSection sn r) as [r1 [s1|err]]; trivial.
    apply on_section_add_as_set.
Qed.

(** X11: after an [addField] or a [setField] that returns, [getField]
    with the name of the field and the section name gives the field, and
    with any other pair of names gives what it gave before the call. *)
Theorem Record_field_written_is_read (f : field) (sn : str) (r r' : record)
    (Hrun : Record_addField f sn r = (r', Ok tt)
            \/ Record_setField f sn r = (r', Ok tt)) :
  forall n s,
    Record_getField n s r'
    = if str_eqb s sn && str_eqb n (Field_name f) then Some f
      else Record_getField n s r.
Proof.
  assert (Hset : Record_setField f sn r = (r', Ok tt)).
  { destruct Hrun as [Hrun|Hrun]; [now apply Record_addField_as_set|exact Hrun]. }
  unfold Record_setField in Hset.
  apply (Record_write_field f sn r r' (Section_setField f));
    [reflexivity|exact Hset].
Qed.

Lemma Record_field_written_is_read_witness :
  Record_addField (Field_new (lit "id") false None None) (lit "main")
    (fresh_record (lit "user") None None None)
  = (mkRecord (lit "user") None None
       [(lit "main",
         mkSection (lit "main")
           [(lit "id", Field_new (lit "id") false None None)])] None,
     Ok tt)
  /\ Record_getField (lit "id") (lit "main")
       (mkRecord (lit "user") None None
          [(lit "main",
            mkSection (lit "main")
              [(lit "id", Field_new (lit "id") false None None)])] None)
     = Some (Field_new (lit "id") false None None).
Proof.
  split; [reflexivity|].
  apply (Record_field_written_is_read (Field_new (lit "id") false None None)
           (lit "main") (fresh_record (lit "user") None None None) _
           (or_introl eq_refl) (lit "id") (lit "main")).
Defined.

(** X12: [deleteField] never throws; when the record has no such section
    or the section no such field, the record is as it was; otherwise the
    section no longer has the field; the order of the sections and the
    other fields are as they were. *)
Theorem Record_deleteField_effect (name sn : str) (r : record) :
  exists r',
    Record_deleteField name sn r = (r', Ok tt)
    /\ (Record_hasField name sn r = false -> r' = r)
    /\ (forall s,
           Record_getSection sn r = Some s ->
           nodup_keys (Section_fields s) = true ->
           Record_hasField name sn r' = false)
    /\ (forall n s,
           s <> sn \/ n <> name ->
           Record_getField n s r' = Record_getField n s r)
    /\ map_keys (Record_sections r') = map_keys (Record_sections r).
Proof.
  unfold Record_deleteField.
  destruct (map_get sn (Record_sections r)) as [s0|] eqn:G.
  - rewrite (on_section_present _ _ _ _ _ G). eexists.
    split; [reflexivity|]. unfold Section_deleteField. cbn [fst].
    split; [|split; [|split]].
    + unfold Record_hasField. rewrite G. unfold Section_hasField. intros A.
      rewrite (map_delete_absent _ _ _ A).
      replace (mkSection (Section_name s0) (Section_fields s0)) with s0
        by now destruct s0.
      rewrite (map_set_get_id _ _ _ _ G). now destruct r.
    + intros s Gs Nd. unfold Record_getSection in Gs. rewrite G in Gs.
      injection Gs as <-. unfold Record_hasField.
      cbn [Record_set_sections Record_sections]. rewrite map_get_set_same.
      unfold Section_hasField. cbn [Section_fields].
      now apply map_has_delete_same.
    + intros n s H. rewrite Record_getField_set.
      destruct (str_eqb s sn) eqn:E; trivial.
      apply str_eqb_eq in E. subst s. destruct H as [H|H]; [contradiction|].
      unfold Record_getField, Section_getField. rewrite G.
      cbn [Section_fields]. now apply map_get_delete_other.
    + cbn [Record_set_sections Record_sections]. rewrite map_keys_set.
      now rewrite (map_get_has _ _ _ _ G).
  - exists r. split; [reflexivity|]. repeat split.
    intros s Gs. unfold Record_getSection in Gs. rewrite G in Gs. discriminate.
Qed.

Lemma Record_deleteField_effect_witness :
  Record_getSection (lit "main")
    (mkRecord (lit "user") None None
       [(lit "main",
         mkSection (lit "main")
           [(lit "id", Field_new (lit "id") false None None)])] None)
  = Some (mkSection (lit "main")
            [(lit "id", Field_new (lit "id") false None None)])
  /\ exists r',
       Record_deleteField (lit "id") (lit "main")
         (mkRecord (lit "user") None None
            [(lit "main",
              mkSection (lit "main")
                [(lit "id", Field_new (lit "id") false None None)])] None)
       = (r', Ok tt)
       /\ Record_hasField (lit "id") (lit "main") r' = false.
Proof.
  split; [reflexivity|].
  destruct (Record_deleteField_effect (lit "id") (lit "main")
              (mkRecord (lit "user") None None
                 [(lit "main",
                   mkSection (lit "main")
                     [(lit "id", Field_new (lit "id") false None None)])]
                 None))
    as (r' & D & _ & H & _).
  exists r'. split; [exact D|].
  apply (H (mkSection (lit "main")
              [(lit "id", Field_new (lit "id") false None None)]));
    reflexivity.
Defined.

(** ** Trees *)

Lemma Record_new_fresh (e : str) (p v d : option str) (r : record) :
  Record_new e p v d = Ok r -> r = fresh_record e p v d.
Proof.
  rewrite Record_new_cases.
  destruct (has_ws e); [discriminate|]. destruct e; [discriminate|].
  destruct (opt_has_ws p); [discriminate|].
  destruct (opt_has_ws v); [discriminate|]. now intros [= <-].
Qed.

(** X13: an [addRecord] that returns puts the new record last:
    [getRecordNames()] and [getRecords()] are what they were with the new
    full name and the new record at the end, and the records under the
    other names are as they were. *)
Theorem Tree_addRecord_appends (e : str) (p v d : option str) (t t' : tree)
    (r : record) (Hadd : Tree_addRecord e p v d t = (t', Ok r)) :
  r = fresh_record e p v d
  /\ Tree_getRecordNames t' = Tree_getRecordNames t ++ [Record_getFullName r]
  /\ Tree_getRecords t' = Tree_getRecords t ++ [r]
  /\ (forall n,
         n <> Record_getFullName r ->
         Tree_getRecord n t' = Tree_getRecord n t).
Proof.
  unfold Tree_addRecord in Hadd.
  destruct (Record_new e p v d) as [r0|err] eqn:N; [|discriminate].
  destruct (map_has (Record_getFullName r0) (Tree_records t)) eqn:H;
    [discriminate|].
  injection Hadd as <- <-.
  unfold Tree_getRecordNames, Tree_getRecords, Tree_getRecord, map_keys,
    map_values.
  cbn [Tree_records]. rewrite (map_set_absent _ _ _ _ H), !map_app.
  repeat split.
  - now apply Record_new_fresh.
  - intros n Hn. rewrite <- (map_set_absent _ _ r0 _ H).
    now apply map_get_set_other.
Qed.

Lemma Tree_addRecord_appends_witness :
  Tree_addRecord (lit "ping") None None None
    (mkTree [(lit "user", fresh_record (lit "user") None None None)])
  = (mkTree [(lit "user", fresh_record (lit "user") None None None);
             (lit "ping", fresh_record (lit "ping") None None None)],
     Ok (fresh_record (lit "ping") None None None))
  /\ Tree_getRecordNames
       (mkTree [(lit "user", fresh_record (lit "user") None None None);
                (lit "ping", fresh_record (lit "ping") None None None)])
     = Tree_getRecordNames
         (mkTree [(lit "user", fresh_record (lit "user") None None None)])
       ++ [Record_getFullName (fresh_record (lit "ping") None None None)].
Proof.
  split; [reflexivity|].
  apply (Tree_addRecord_appends (lit "ping") None None None
           (mkTree [(lit "user", fresh_record (lit "user") None None None)])
           _ _ eq_refl).
Defined.

(** X14: [setRecord] never throws and stores the record under its full
    name, in the place of a record of that name or else last;
    [deleteRecord] never throws, leaves a tree without the name, and
    changes nothing when the tree has no such name; neither touches the
    records under other names. *)
Theorem Tree_setRecord_deleteRecord (t : tree) :
  (forall r,
      exists t',
        Tree_setRecord r t = (t', Ok tt)
        /\ Tree_getRecord (Record_getFullName r) t' = Some r
        /\ Tree_getRecordNames t'
           = (if Tree_hasRecord (Record_getFullName r) t
              then Tree_getRecordNames t
              else Tree_getRecordNames t ++ [Record_getFullName r])
        /\ (forall n,
               n <> Record_getFullName r ->
               Tree_getRecord n t' = Tree_getRecord n t))
  /\ (forall name,
         exists t',
           Tree_deleteRecord name t = (t', Ok tt)
           /\ (nodup_keys (Tree_records t) = true ->
               Tree_hasRecord name t' = false)
           /\ (Tree_hasRecord name t = false -> t' = t)
           /\ (forall n,
                  n <> name -> Tree_getRecord n t' = Tree_getRecord n t)).
Proof.
  split.
  - intros r. eexists. split; [reflexivity|].
    unfold Tree_getRecord, Tree_getRecordNames, Tree_hasRecord.
    cbn [Tree_records]. repeat split.
    + apply map_get_set_same.
    + apply map_keys_set.
    + intros n Hn. now apply map_get_set_other.
  - intros name. eexists. split; [reflexivity|].
    unfold Tree_getRecord, Tree_hasRecord. cbn [Tree_records]. repeat split.
    + now apply map_has_delete_same.
    + intros A. rewrite (map_delete_absent _ _ _ A). now destruct t.
    + intros n Hn. now apply map_get_delete_other.
Qed.

Lemma Tree_setRecord_deleteRecord_witness :
  nodup_keys
    (Tree_records
       (mkTree [(lit "user", fresh_record (lit "user") None None None)]))
  = true
  /\ exists t',
       Tree_deleteRecord (lit "user")
         (mkTree [(lit "user", fresh_record (lit "user") None None None)])
       = (t', Ok tt)
       /\ Tree_hasRecord (lit "user") t' = false.
Proof.
  split; [reflexivity|].
  destruct (Tree_setRecord_deleteRecord
              (mkTree [(lit "user", fresh_record (lit "user") None None None)]))
    as [_ D].
  destruct (D (lit "user")) as (t' & E & H & _).
  exists t'. split; [exact E|]. apply H. reflexivity.
Defined.

(** ** The serializer *)

Lemma has_chr_replace_go (r : re) (f : caps -> str) (q : ascii) :
  (forall c, has_chr q (f c) = false) ->
  forall s skip,
    has_chr q s = false -> has_chr q (replace_go r f skip s) = false.
Proof.
  intros Hf. induction s as [|x s IH]; intros skip H; [reflexivity|].
  unfold has_chr in H. simpl existsb in H.
  apply orb_false_iff in H as [Hx H]. cbn [replace_go].
  destruct skip as [|k]; [|now apply IH].
  assert (Hcons : has_chr q (x :: replace_go r f 0 s) = false).
  { unfold has_chr. simpl existsb. rewrite Hx. now apply IH. }
  destruct (match_here r (x :: s)) as [[rest c]|]; [|exact Hcons].
  destruct (length (x :: s) - length rest) as [|k]; [exact Hcons|].
  rewrite has_chr_app, Hf. now apply IH.
Qed.

Lemma match_here_newline (s : str) :
  match_here re_newline s
  = match s with
    | [] => None
    | x :: s' =>
        if is_chr newline x then Some (s', [])
        else if is_chr carriage x then
          match s' with
          | y :: s'' => if is_chr newline y then Some (s'', []) else None
          | [] => None
          end
        else None
    end.
Proof.
  unfold match_here, re_newline. rewrite rmatch_Seq, rmatch_Opt.
  destruct s as [|x s]; [reflexivity|].
  rewrite !rmatch_Chr_cons.
  destruct (is_chr carriage x) eqn:Cx.
  - unfold is_chr in Cx. apply chr_eqb_eq in Cx. subst x.
    change (is_chr newline carriage) with false. cbv iota.
    rewrite shorter_cons. destruct s as [|y s]; [reflexivity|].
    rewrite rmatch_Chr_cons. now destruct (is_chr newline y).
  - rewrite orelse_None. now destruct (is_chr newline x).
Qed.

Lemma newline_replaced (w : str) :
  has_chr newline w = false ->
  forall n s,
    length s <= n ->
    has_chr newline (replace_go re_newline (fun _ => w) 0 s) = false.
Proof.
  intros Hw. induction n as [|n IH]; intros s L.
  { destruct s; [reflexivity|simpl in L; lia]. }
  destruct s as [|x s]; [reflexivity|]. cbn [length] in L.
  cbn [replace_go]. rewrite match_here_newline.
  destruct (is_chr newline x) eqn:Nx.
  - replace (length (x :: s) - length s) with 1 by (cbn [length]; lia).
    rewrite has_chr_app, Hw. apply IH. lia.
  - assert (Hcons : has_chr newline
                      (x :: replace_go re_newline (fun _ => w) 0 s) = false).
    { unfold has_chr. simpl existsb. rewrite Nx. apply IH. lia. }
    destruct (is_chr carriage x); [|exact Hcons].
    destruct s as [|y s]; [exact Hcons|].
    destruct (is_chr newline y); [|exact Hcons].
    replace (length (x :: y :: s) - length s) with 2 by (cbn [length]; lia).
    rewrite has_chr_app, Hw. cbn [replace_go]. apply IH.
    cbn [length] in L. lia.
Qed.

Lemma replace_all_chr (p : ascii -> bool) (w : str) (s : str) :
  replace_all (Chr p) (fun _ => w) s
  = flat_map (fun x => if p x then w else [x]) s.
Proof.
  unfold replace_all. induction s as [|x s IH]; [reflexivity|].
  cbn [flat_map]. destruct (p x) eqn:Px.
  - rewrite (replace_go_match _ _ x s s [] 0).
    + now rewrite IH.
    + unfold match_here. now rewrite rmatch_Chr_cons, Px.
    + cbn [length]. lia.
  - rewrite replace_go_nomatch.
    + now rewrite IH.
    + unfold match_here. now rewrite rmatch_Chr_cons, Px.
Qed.

Lemma has_chr_flat_map (q : ascii) (g : ascii -> str) (s : str) :
  (forall x, has_chr q (g x) = false) -> has_chr q (flat_map g s) = false.
Proof.
  intros Hg. induction s as [|x s IH]; [reflexivity|].
  cbn [flat_map]. now rewrite has_chr_app, Hg.
Qed.

Lemma has_chr_trim (q : ascii) (s : str) :
  has_chr q s = false -> has_chr q (trim s) = false.
Proof.
  intros H. unfold trim.
  destruct (trimStart_suffix s) as (w1 & E1 & _).
  destruct (trimEnd_prefix (trimStart s)) as (w2 & E2 & _).
  rewrite E1, E2, !has_chr_app in H.
  apply orb_false_iff in H as [_ H]. now apply orb_false_iff in H.
Qed.

Lemma has_chr_join (q : ascii) (sep : str) (l : list str) :
  has_chr q sep = false ->
  forallb (fun p => negb (has_chr q p)) l = true ->
  has_chr q (join sep l) = false.
Proof.
  intros Hs. induction l as [|p l IH]; [reflexivity|].
  simpl forallb. intros H. apply andb_true_iff in H as [Hp H].
  apply negb_true_iff in Hp. destruct l as [|p' l]; [exact Hp|].
  rewrite join_cons2, !has_chr_app, Hp, Hs. now apply IH.
Qed.

Lemma escape_description_clean (d : str) :
  has_chr dquote (escape_description d) = false
  /\ has_chr newline (escape_description d) = false.
Proof.
  unfold escape_description, replace_all at 1 3. split.
  - apply has_chr_replace_go; [reflexivity|].
    unfold re_dquote. rewrite replace_all_chr.
    apply has_chr_flat_map. intros x. destruct (is_chr dquote x) eqn:E; trivial.
    unfold has_chr. simpl. now rewrite E.
  - now apply (newline_replaced (lit "\n") eq_refl _ _ (Nat.le_refl _)).
Qed.

Lemma descriptionToString_marks (d : option str) :
  has_chr dquote (descriptionToString d) = false
  /\ has_chr newline (descriptionToString d) = false.
Proof.
  destruct d as [[|x d]|]; try (split; reflexivity).
  unfold descriptionToString.
  destruct (escape_description_clean (x :: d)) as [Hq Hn]. split.
  - apply has_chr_trim. now rewrite has_chr_app, Hq.
  - apply has_chr_trim. now rewrite has_chr_app, Hn.
Qed.

(** X15: the text that the serializer writes for a description has no
    double quote and no line feed, whatever the description; it is empty
    for [null] and for the empty description, and for no other; for every
    other description it starts with the comment marker. *)
Theorem descriptionToString_clean :
  (forall d : option str,
      has_chr dquote (descriptionToString d) = false
      /\ has_chr newline (descriptionToString d) = false)
  /\ (forall d : option str,
        descriptionToString d = [] <-> d = None \/ d = Some [])
  /\ (forall (x : ascii) (d : str),
        startsWith (lit "//") (descriptionToString (Some (x :: d))) = true).
Proof.
  assert (S : forall x d,
             startsWith (lit "//") (descriptionToString (Some (x :: d)))
             = true).
  { intros x d. unfold descriptionToString, trim.
    change (trimStart (lit "// " ++ escape_description (x :: d)))
      with (lit "//" ++ (space :: escape_description (x :: d))).
    rewrite trimEnd_app_core; [reflexivity|].
    repeat split; discriminate. }
  split; [exact descriptionToString_marks|]. split; [|exact S].
  intros d. split.
  - destruct d as [[|x d]|]; auto.
    intros E. pose proof (S x d) as H. rewrite E in H. discriminate H.
  - intros [->| ->]; reflexivity.
Qed.

Lemma forallb_of_map (A B : Type) (p : B -> bool) (g : A -> B) (l : list A) :
  forallb p (map g l) = forallb (fun x => p (g x)) l.
Proof. induction l as [|x l IH]; simpl; [reflexivity|now rewrite IH]. Qed.

Lemma escape_value_no_newline (v : str) :
  has_chr newline (escape_value v) = false.
Proof.
  unfold escape_value, replace_all at 1.
  now apply (newline_replaced (lit "\n") eq_refl _ _ (Nat.le_refl _)).
Qed.

Lemma attr_to_string_no_newline (e : str * option str) :
  has_chr newline (fst e) = false ->
  has_chr newline (attr_to_string e) = false.
Proof.
  destruct e as [name [[|x v]|]]; simpl fst; intros H; trivial.
  unfold attr_to_string.
  now rewrite !has_chr_app, H, escape_value_no_newline.
Qed.

(** X16: the text of a field is one line: it has no line feed when the
    name of the field, the names of its attributes and, for an optional
    field, its default value have none, whatever the values of the
    attributes and the description are. *)
Theorem Field_stringify_one_line (f : field)
    (Hname : has_chr newline (Field_name f) = false)
    (Hdef : Field_isOptional f = true ->
            has_chr newline (interpolate (Field_defaultValue f)) = false)
    (Hattrs : forallb (fun e => negb (has_chr newline (fst e)))
                (Field_attributes f) = true) :
  has_chr newline (Field_stringify f) = false.
Proof.
  rewrite Field_stringify_eq. apply has_chr_trim.
  destruct (descriptionToString_marks (Field_description f)) as (_ & Hd).
  rewrite has_chr_app. apply orb_false_iff. split.
  { unfold field_nameStr. destruct (Field_isOptional f); [|exact Hname].
    now rewrite !has_chr_app, Hname, (Hdef eq_refl). }
  rewrite has_chr_app. apply orb_false_iff. split; [reflexivity|].
  rewrite has_chr_app. apply orb_false_iff. split.
  2:{ rewrite has_chr_app. apply orb_false_iff. split; [reflexivity|exact Hd]. }
  unfold Field_attrsToString. apply has_chr_join; [reflexivity|].
  rewrite forallb_of_map. revert Hattrs. apply forallb_impl.
  intros e He. apply negb_true_iff in He. apply negb_true_iff.
    now apply attr_to_string_no_newline.
Qed.

Lemma Field_stringify_one_line_witness :
  has_chr newline (Field_name example_noisy_field) = false
  /\ forallb (fun e => negb (has_chr newline (fst e)))
       (Field_attributes example_noisy_field) = true
  /\ has_chr newline (Field_stringify example_noisy_field) = false.
Proof.
  split; [reflexivity|]. split; [reflexivity|].
  apply (Field_stringify_one_line example_noisy_field eq_refl);
    [discriminate|reflexivity].
Defined.

Lemma esc_quotes_cons (x : ascii) (v : str) :
  esc_quotes (x :: v)
  = (if chr_eqb x dquote || chr_eqb x squote then [backslash; x] else [x])
    ++ esc_quotes v.
Proof. reflexivity. Qed.

Lemma escape_quotes_eq (v : str) :
  replace_all re_squote (fun _ => [backslash; squote])
    (replace_all re_dquote (fun _ => [backslash; dquote]) v)
  = esc_quotes v.
Proof.
  unfold re_squote, re_dquote. rewrite !replace_all_chr.
  induction v as [|x v IH]; [reflexivity|].
  rewrite esc_quotes_cons. cbn [flat_map]. rewrite flat_map_app, IH.
  f_equal. unfold is_chr.
  destruct (chr_eqb x dquote) eqn:D.
  - apply chr_eqb_eq in D. subst x. reflexivity.
  - cbn [flat_map orb]. destruct (chr_eqb x squote) eqn:S; [|reflexivity].
    apply chr_eqb_eq in S. subst x. reflexivity.
Qed.

Lemma has_chr_esc_quotes (v : str) :
  has_chr newline (esc_quotes v) = has_chr newline v.
Proof.
  induction v as [|x v IH]; [reflexivity|].
  rewrite esc_quotes_cons, has_chr_app, IH.
  change (has_chr newline (x :: v)) with (is_chr newline x || has_chr newline v).
  f_equal.
  destruct (chr_eqb x dquote || chr_eqb x squote) eqn:Q.
  - apply orb_true_iff in Q as [Q|Q]; apply chr_eqb_eq in Q; subst x; reflexivity.
  - unfold has_chr. simpl. apply orb_false_r.
Qed.

Lemma unescape_esc_quotes (v : str) :
  replace_all re_escaped_quote group1 (esc_quotes v) = v.
Proof.
  unfold replace_all. induction v as [|x v IH]; [reflexivity|].
  rewrite esc_quotes_cons.
  destruct (chr_eqb x dquote || chr_eqb x squote) eqn:Qx.
  - change ([backslash; x] ++ esc_quotes v)
      with (backslash :: x :: esc_quotes v).
    rewrite (replace_go_match _ _ _ _ (esc_quotes v) [(1, [x])] 1).
    + cbn [replace_go]. change (group1 [(1, [x])]) with [x].
      simpl. now rewrite IH.
    + unfold match_here, re_escaped_quote.
      rewrite rmatch_Seq, rmatch_Chr_cons.
      change (is_chr backslash backslash) with true.
      cbv iota beta. rewrite rmatch_Grp, rmatch_Chr_cons. rewrite Qx.
      unfold accept. do 3 f_equal.
      replace (length (x :: esc_quotes v) - length (esc_quotes v)) with 1
        by (cbn [length]; lia).
      reflexivity.
    + cbn [length]. lia.
  - change ([x] ++ esc_quotes v) with (x :: esc_quotes v).
    rewrite replace_go_nomatch; [now rewrite IH|].
    unfold match_here, re_escaped_quote.
    rewrite rmatch_Seq, rmatch_Chr_cons.
    destruct (is_chr backslash x) eqn:Bx; [|reflexivity].
    rewrite rmatch_Grp. destruct v as [|y v]; [reflexivity|].
    rewrite esc_quotes_cons.
    destruct (chr_eqb y dquote || chr_eqb y squote) eqn:Qy.
    + reflexivity.
    + change ([y] ++ esc_quotes v) with (y :: esc_quotes v).
      rewrite rmatch_Chr_cons. now rewrite Qy.
Qed.

(** X17: writing and reading the value of an attribute are inverse to
    each other on every value without a line feed, quotes and
    backslashes included: the serializer puts a backslash in front of
    every quote of either kind, and the parser, given that text between
    double quotes, gives the value back. *)
Theorem attribute_value_escape_unescape (v : str)
    (Hn : has_chr newline v = false) :
  escape_value v = esc_quotes v
  /\ attr_value (Some ([dquote] ++ escape_value v ++ [dquote])) = Some v.
Proof.
  assert (E : escape_value v = esc_quotes v).
  { unfold escape_value. rewrite escape_quotes_eq.
    apply replace_all_newline_absent. now rewrite has_chr_esc_quotes. }
  split; [exact E|].
  change ([dquote] ++ escape_value v ++ [dquote])
    with (dquote :: escape_value v ++ [dquote]).
  rewrite attr_value_quoted, E. f_equal. apply unescape_esc_quotes.
Qed.

Lemma attribute_value_escape_unescape_witness :
  has_chr newline (lit "say " ++ dq "it's" ++ [backslash]) = false
  /\ attr_value
       (Some ([dquote] ++ escape_value (lit "say " ++ dq "it's" ++ [backslash])
              ++ [dquote]))
     = Some (lit "say " ++ dq "it's" ++ [backslash]).
Proof.
  split; [reflexivity|].
  apply (attribute_value_escape_unescape
           (lit "say " ++ dq "it's" ++ [backslash]) eq_refl).
Defined.

(** ** The scanner of attributes *)

Lemma search_rest_shorter (s from rest : str) (c : caps) :
  search attrRegex s = Some (from, rest, c) -> length rest < length s.
Proof.
  intros E. apply search_inv in E as [M [u ->]].
  apply attrRegex_match in M as (name & s1 & -> & [N _] & [u' ->] & _).
  rewrite !length_app. destruct name; [contradiction|]. cbn [length]. lia.
Qed.

Lemma attrs_loop_fuel (n : nat) :
  forall m s o,
    length s < n -> length s < m -> attrs_loop n s o = attrs_loop m s o.
Proof.
  induction n as [|n IH]; intros m s o Ln Lm; [lia|].
  destruct m as [|m]; [lia|]. cbn [attrs_loop].
  destruct (search attrRegex s) as [[[from rest] c]|] eqn:E; trivial.
  destruct (startsWith (lit "//") (group1 c)); trivial.
  apply search_rest_shorter in E. apply IH; lia.
Qed.

(** X18: the loop of [parseHtmlAttributes] ends: a match of the pattern
    takes at least one character, so on an input of [n] characters the
    loop makes at most [n] rounds, and the result is the same for every
    bound on the rounds above [n]. *)
Theorem attrs_loop_enough_fuel (s : str) (o : jsobj) (n : nat)
    (Hn : length s < n) :
  attrs_loop n s o = attrs_loop (S (length s)) s o
  /\ (forall from rest c,
         search attrRegex s = Some (from, rest, c) ->
         length rest < length s).
Proof.
  split.
  - apply attrs_loop_fuel; lia.
  - intros from rest c. apply search_rest_shorter.
Qed.

Lemma attrs_loop_enough_fuel_witness :
  length (lit "min=1 max") < 100
  /\ attrs_loop 100 (lit "min=1 max") obj_empty
     = attrs_loop (S (length (lit "min=1 max"))) (lit "min=1 max") obj_empty.
Proof.
  split; [vm_compute; lia|].
  apply (attrs_loop_enough_fuel (lit "min=1 max") obj_empty 100).
  vm_compute. lia.
Defined.

(** ** Lines *)

Lemma trim_trimEnd (d : str) : trim (trimEnd d) = trim d.
Proof.
  destruct (trimStart_suffix d) as (w1 & E1 & B1).
  destruct (trimEnd_prefix (trimStart d)) as (w2 & E2 & B2).
  fold (trim d) in E2.
  destruct (trim_tight d) as [T|T].
  - rewrite T in *. simpl in E2.
    assert (B : blank d).
    { rewrite E1, E2. unfold blank. now rewrite forallb_app, B1, B2. }
    rewrite <- (app_nil_l d) at 1. now rewrite (trimEnd_app_ws [] d B).
  - assert (E : trimEnd d = w1 ++ trim d).
    { rewrite E1 at 1. rewrite E2 at 1. rewrite app_assoc.
      rewrite (trimEnd_app_ws _ _ B2).
      destruct (tight_snoc _ T) as (c' & x & Ec & Wx).
      rewrite Ec, app_assoc. now apply trimEnd_snoc. }
    rewrite E. apply (trim_core_eq w1 (trim d) [] _ B1 eq_refl T).
    now rewrite app_nil_r.
Qed.

Lemma parseHtmlAttributes_comment (d : str) :
  parseHtmlAttributes ("/"%char :: "/"%char :: d)
  = (obj_empty,
     match trim d with
     | [] => None
     | _ :: _ => Some (trim d)
     end).
Proof.
  unfold parseHtmlAttributes. cbn [attrs_loop].
  destruct (match_comment d) as (rest & c & M & S).
  rewrite (search_here _ _ _ _ M), S. reflexivity.
Qed.

(** X19: in a field line the comment is all the text after the first
    comment marker, trimmed, with whatever it holds (more markers, equals
    signs, quotes); a comment that is empty or blank gives the
    description [null]. *)
Theorem field_comment_takes_rest (name d : str)
    (Hne : name <> [])
    (Hcls : forallb is_field_name_chr name = true) :
  parseField (name ++ lit " //" ++ d)
  = Ok (mkField name [] false None
          (match trim d with
           | [] => None
           | _ :: _ => Some (trim d)
           end)).
Proof.
  change (lit " //" ++ d) with (space :: (lit "//" ++ d)).
  rewrite parseField_required; trivial; [|right; eauto].
  assert (T : trim (space :: (lit "//" ++ d)) = lit "//" ++ trimEnd d).
  { unfold trim.
    change (trimStart (space :: (lit "//" ++ d))) with (lit "//" ++ d).
    apply trimEnd_app_core. repeat split; discriminate. }
  rewrite T. unfold parseField_finish.
  change (lit "//" ++ trimEnd d) with ("/"%char :: "/"%char :: trimEnd d).
  rewrite parseHtmlAttributes_comment, trim_trimEnd. reflexivity.
Qed.

Lemma field_comment_takes_rest_witness :
  lit "id" <> [] /\ forallb is_field_name_chr (lit "id") = true
  /\ parseField (lit "id" ++ lit " //" ++ lit " a // b=" ++ dq "c")
     = Ok (mkField (lit "id") [] false None
             (Some (lit "a // b=" ++ dq "c"))).
Proof.
  split; [discriminate|]. split; [reflexivity|].
  apply (field_comment_takes_rest (lit "id") (lit " a // b=" ++ dq "c"));
    [discriminate|reflexivity].
Defined.

Lemma parse_line_no_record (st : pstate) (line : str) :
  ps_currentRecord st = None ->
  negb (isRecordDeclaration line) || str_eqb (trim line) [] = true ->
  parse_line st line = Ok st.
Proof.
  intros C H. unfold parse_line.
  destruct (str_eqb (trim line) []); trivial.
  rewrite orb_false_r in H. apply negb_true_iff in H. now rewrite H, C.
Qed.

(** X20: the lines before the first record declaration are ignored: a
    text all of whose lines are blank, start with white space or start
    with @ gives the empty tree, whatever the lines hold. *)
Theorem lines_before_first_record_ignored (text : str)
    (Hlines : forallb
                (fun l => negb (isRecordDeclaration l) || str_eqb (trim l) [])
                (split_chr newline text) = true) :
  treeFromString text = Ok Tree_new.
Proof.
  unfold treeFromString.
  assert (P : forall lines,
             forallb
               (fun l => negb (isRecordDeclaration l) || str_eqb (trim l) [])
               lines = true ->
             parse_lines (mkState Tree_new None (lit "main")) lines
             = Ok (mkState Tree_new None (lit "main"))).
  { induction lines as [|l lines IH]; [reflexivity|].
    simpl forallb. intros H. apply andb_true_iff in H as [Hl H].
    cbn [parse_lines].
    rewrite (parse_line_no_record (mkState Tree_new None (lit "main")) l
               eq_refl Hl).
    now apply IH. }
  now rewrite (P _ Hlines).
Qed.

Lemma lines_before_first_record_ignored_witness :
  treeFromString
    (lit "    id maxLength=3" ++ [newline] ++ lit "@returns" ++ [newline]
     ++ lit "  [broken")
  = Ok Tree_new.
Proof.
  apply (lines_before_first_record_ignored
           (lit "    id maxLength=3" ++ [newline] ++ lit "@returns"
            ++ [newline] ++ lit "  [broken")).
  vm_compute. reflexivity.
Defined.

Lemma parseSectionDeclaration_inv (l name : str) :
  parseSectionDeclaration l = Some name ->
  exists rest,
    l = "@"%char :: name ++ rest /\ name <> []
    /\ forallb is_section_chr name = true.
Proof.
  unfold parseSectionDeclaration.
  destruct (match_here re_section l) as [[rest c]|] eqn:E; [|discriminate].
  intros C. apply rmatch_sound in E as (s' & c' & M & [= -> ->]).
  destruct M as (s1 & c1 & (x & -> & Px & ->) & c2
                 & (s2 & c3 & (y & -> & Py & ->) & Mi) & ->).
  apply iter_chr in Mi as (-> & w & -> & F).
  change (y :: w ++ rest) with ((y :: w) ++ rest) in C.
  rewrite firstn_app_length in C. simpl in C. injection C as <-.
  unfold is_chr in Px. apply chr_eqb_eq in Px. subst x.
  exists rest. repeat split; try discriminate. simpl. now rewrite Py.
Qed.

(** X21: a section cannot be declared twice in a record: a section line
    that names a section the current record has makes the parser throw;
    this holds for main too, which every record has from the start. *)
Theorem section_declared_twice_throws
    (st : pstate) (line key name : str) (r : record)
    (Hopen : ps_currentRecord st = Some key)
    (Hrec : Tree_getRecord key (ps_tree st) = Some r)
    (Hname : parseSectionDeclaration (trim line) = Some name)
    (Hhas : Record_hasSection name r = true) :
  parse_line st line = Throw (SectionExists name).
Proof.
  destruct (parseSectionDeclaration_inv _ _ Hname) as (rest & Hat & Nn & _).
  unfold parse_line. rewrite Hname. rewrite Hat. cbn [str_eqb].
  assert (R : isRecordDeclaration line = false).
  { destruct (trim_head _ _ _ Hat) as (y & l & -> & [W| ->]).
    - unfold isRecordDeclaration, test_start, match_here. simpl. now rewrite W.
    - unfold isRecordDeclaration. apply andb_false_iff. right. reflexivity. }
  rewrite R, Hopen.
  change (isSectionDeclaration ("@"%char :: name ++ rest)) with true.
  cbv iota. destruct name as [|x name]; [contradiction|].
  unfold on_record. unfold Tree_getRecord in Hrec. rewrite Hrec.
  unfold Record_addSection. now rewrite Hhas.
Qed.

Lemma section_declared_twice_throws_witness :
  Tree_getRecord (lit "user")
    (mkTree [(lit "user", fresh_record (lit "user") None None None)])
  = Some (fresh_record (lit "user") None None None)
  /\ parseSectionDeclaration (trim (lit "    @main")) = Some (lit "main")
  /\ parse_line
       (mkState (mkTree [(lit "user", fresh_record (lit "user") None None None)])
          (Some (lit "user")) (lit "main"))
       (lit "    @main")
     = Throw (SectionExists (lit "main")).
Proof.
  split; [reflexivity|]. split; [reflexivity|].
  apply (section_declared_twice_throws
           (mkState
              (mkTree [(lit "user", fresh_record (lit "user") None None None)])
              (Some (lit "user")) (lit "main"))
           (lit "    @main") (lit "user") (lit "main")
           (fresh_record (lit "user") None None None));
    reflexivity.
Defined.

(** ** The trees that the parser builds *)

Lemma name_ok_good (n : str) : name_ok n = true <-> good_name n.
Proof.
  unfold name_ok, good_name. rewrite andb_true_iff, negb_true_iff.
  split; intros [A B]; split; trivial.
  - now destruct n.
  - now destruct n.
Qed.

Lemma forallb_map_set (V : Type) (P : str * V -> bool) (k : str) (v : V)
    (m : jsmap V) :
  forallb P m = true -> P (k, v) = true -> forallb P (map_set k v m) = true.
Proof.
  intros H Hk. induction m as [|[k' v'] m IH]; simpl.
  - now rewrite Hk.
  - simpl in H. apply andb_true_iff in H as [A B].
    destruct (str_eqb k' k) eqn:E; simpl.
    + apply str_eqb_eq in E. subst k'. now rewrite Hk, B.
    + rewrite A. now apply IH.
Qed.

Lemma forallb_map_get (V : Type) (P : str * V -> bool) (k : str) (v : V)
    (m : jsmap V) :
  forallb P m = true -> map_get k m = Some v -> P (k, v) = true.
Proof.
  induction m as [|[k' v'] m IH]; simpl; [discriminate|].
  intros H G. apply andb_true_iff in H as [A B].
  destruct (str_eqb k' k) eqn:E.
  - apply str_eqb_eq in E. subst k'. now injection G as <-.
  - now apply IH.
Qed.

Lemma map_set_head (V : Type) (k : str) (v : V) (m : jsmap V) :
  match m with
  | (k0, _) :: _ =>
      match map_set k v m with
      | (k1, _) :: _ => k1 = k0
      | [] => False
      end
  | [] => True
  end.
Proof.
  destruct m as [|[k0 v0] m]; simpl; trivial.
  now destruct (str_eqb k0 k).
Qed.

Lemma fold_map_set_keys (V : Type) (P : str -> bool) (l : list (str * V)) :
  forall acc,
    nodup_keys acc = true ->
    forallb (fun e => P (fst e)) acc = true ->
    forallb (fun e => P (fst e)) l = true ->
    nodup_keys (fold_left (fun m e => map_set (fst e) (snd e) m) l acc) = true
    /\ forallb (fun e => P (fst e))
         (fold_left (fun m e => map_set (fst e) (snd e) m) l acc) = true.
Proof.
  induction l as [|[k v] l IH]; intros acc Nd Pa Pl; simpl; [now split|].
  simpl in Pl. apply andb_true_iff in Pl as [Pk Pl].
  apply IH; trivial.
  - now apply nodup_keys_set.
  - now apply forallb_map_set.
Qed.

Lemma parseField_finish_parsed (n : str) (o : bool) (d : option str)
    (a : str) :
  good_name n -> o = true \/ d = None ->
  field_parsed (parseField_finish n o d a) = true.
Proof.
  intros Gn Hd. unfold parseField_finish.
  destruct (parseHtmlAttributes a) as [attrs comment] eqn:E.
  unfold field_parsed, Field_set_description.
  cbn [Field_name Field_isOptional Field_defaultValue Field_attributes].
  destruct (Field_setAttribute_all (Object_entries attrs)
              (Field_new n o d None)) as (Ea & Eo & Ed & En).
  rewrite Ea, Eo, Ed, En. cbn [Field_new Field_name Field_isOptional
    Field_defaultValue Field_attributes].
  assert (G : good_keys (props attrs)).
  { change attrs with (fst (attrs, comment)). rewrite <- E.
    apply attrs_loop_good_keys. constructor. }
  assert (K : forallb (fun e : str * option str => name_ok (fst e))
                (Object_entries attrs) = true).
  { apply forallb_forall. intros e I. apply Object_entries_In in I.
    unfold good_keys in G. rewrite Forall_forall in G.
    apply name_ok_good. exact (G _ I). }
  destruct (fold_map_set_keys _ name_ok (Object_entries attrs) []
              eq_refl eq_refl K) as [Nd Fk].
  rewrite Nd, Fk. apply name_ok_good in Gn. rewrite Gn.
  destruct Hd as [->| ->]; [reflexivity|now destruct o].
Qed.

Lemma parseField_parsed (line : str) (f : field) :
  parseField line = Ok f -> field_parsed f = true.
Proof.
  unfold parseField.
  destruct (startsWith (lit "[") line).
  - destruct (indexOf "]" line) as [end_|]; [|discriminate].
    destruct (parseHtmlAttributes (slice 1 end_ line)) as [attrs cm] eqn:E.
    destruct (Object_entries attrs) as [|[n v] l] eqn:Eo; [discriminate|].
    intros [= <-]. apply parseField_finish_parsed; [|now left].
    assert (G : good_keys (props attrs)).
    { change attrs with (fst (attrs, cm)). rewrite <- E.
      apply attrs_loop_good_keys. constructor. }
    assert (I : In (n, v) (props attrs)).
    { apply Object_entries_In. rewrite Eo. now left. }
    unfold good_keys in G. rewrite Forall_forall in G. exact (G _ I).
  - destruct (match_here re_field_name line) as [[rest c]|] eqn:E;
      [|discriminate].
    apply re_field_name_match in E as (n & _ & -> & N & F).
    cbn [cap Nat.eqb]. destruct n as [|x w]; [contradiction|].
    intros [= <-]. apply parseField_finish_parsed; [|now right].
    split; [discriminate|].
    apply (forallb_not_ws _ _ field_name_chr_not_ws F).
Qed.

Lemma section_setField_parsed (k : str) (s : section) (f : field) :
  section_parsed (k, s) = true -> field_parsed f = true ->
  section_parsed
    (k, mkSection (Section_name s)
          (map_set (Field_name f) f (Section_fields s))) = true.
Proof.
  unfold section_parsed. cbn [fst snd Section_name Section_fields].
  intros H Hf.
  apply andb_true_iff in H as [H H4]. apply andb_true_iff in H as [H H3].
  apply andb_true_iff in H as [H1 H2].
  rewrite H1, H2, (nodup_keys_set _ _ _ _ H3). cbn [andb].
  apply forallb_map_set; trivial. cbn [fst snd].
  now rewrite str_eqb_refl, Hf.
Qed.

Lemma record_set_section_parsed (key : str) (r : record) (sn : str)
    (s' : section) :
  record_parsed (key, r) = true ->
  section_parsed (sn, s') = true ->
  record_parsed
    (key, Record_set_sections (map_set sn s' (Record_sections r)) r) = true.
Proof.
  unfold record_parsed. cbn [fst snd]. intros H Hs.
  apply andb_true_iff in H as [H H5]. apply andb_true_iff in H as [H H4].
  apply andb_true_iff in H as [H H3]. apply andb_true_iff in H as [H1 H2].
  change (Record_getFullName
            (Record_set_sections (map_set sn s' (Record_sections r)) r))
    with (Record_getFullName r).
  cbn [Record_set_sections Record_sections].
  rewrite H1, H2, (nodup_keys_set _ _ _ _ H4),
    (forallb_map_set _ _ _ _ _ H5 Hs).
  cbn [andb]. rewrite andb_true_r.
  pose proof (map_set_head _ sn s' (Record_sections r)) as Hh.
  destruct (Record_sections r) as [|[k0 s0] l]; [discriminate|].
  destruct (map_set sn s' ((k0, s0) :: l)) as [|[k1 s1] l1]; [contradiction|].
  subst k1. now rewrite H3.
Qed.

Lemma Section_new_inv (name : str) (s : section) :
  Section_new name = Ok s -> s = mkSection name [].
Proof.
  unfold Section_new. destruct (has_ws name); [discriminate|].
  destruct (Nat.eqb (length name) 0); [discriminate|]. now intros [= <-].
Qed.

Lemma Record_addSection_parsed (key name : str) (r r' : record) (s : section) :
  record_parsed (key, r) = true -> section_name_ok name = true ->
  Record_addSection name r = (r', Ok s) ->
  record_parsed (key, r') = true.
Proof.
  intros Hr Hn. unfold Record_addSection.
  destruct (Record_hasSection name r); [discriminate|].
  destruct (Section_new name) as [s1|err] eqn:S1; [|discriminate].
  apply Section_new_inv in S1. subst s1. intros [= <- _].
  apply record_set_section_parsed; trivial.
  unfold section_parsed. cbn [fst snd Section_name Section_fields].
  now rewrite str_eqb_refl, Hn.
Qed.

Lemma on_section_setField_parsed (key sn : str) (r r' : record) (f : field) :
  record_parsed (key, r) = true -> field_parsed f = true ->
  on_section sn (Section_setField f) r = (r', Ok tt) ->
  record_parsed (key, r') = true.
Proof.
  intros Hr Hf. unfold on_section.
  destruct (map_get sn (Record_sections r)) as [s0|] eqn:G; [|discriminate].
  unfold Section_setField. intros [= <-].
  apply record_set_section_parsed; trivial.
  apply section_setField_parsed; trivial.
  unfold record_parsed in Hr. apply andb_true_iff in Hr as [_ Hs].
  exact (forallb_map_get _ _ _ _ _ Hs G).
Qed.

Lemma Record_addField_parsed (key sn : str) (r r' : record) (f : field) :
  record_parsed (key, r) = true -> field_parsed f = true ->
  section_name_ok sn = true ->
  Record_addField f sn r = (r', Ok tt) ->
  record_parsed (key, r') = true.
Proof.
  intros Hr Hf Hn A. apply Record_addField_as_set in A.
  unfold Record_setField in A.
  destruct (map_get sn (Record_sections r)) as [s0|].
  - exact (on_section_setField_parsed _ _ _ _ _ Hr Hf A).
  - unfold bind in A.
    destruct (Record_addSection sn r) as [r1 [s1|err]] eqn:A1; [|discriminate].
    apply (on_section_setField_parsed key sn r1 r' f); trivial.
    exact (Record_addSection_parsed _ _ _ _ _ Hr Hn A1).
Qed.

Lemma on_record_parsed (A : Type) (key : str) (m : M record A) (t t' : tree)
    (x : A) :
  tree_parsed t = true ->
  (forall r r', record_parsed (key, r) = true -> m r = (r', Ok x) ->
                record_parsed (key, r') = true) ->
  on_record key m t = (t', Ok x) ->
  tree_parsed t' = true.
Proof.
  unfold tree_parsed. intros H Hm.
  apply andb_true_iff in H as [Nd Hr]. unfold on_record.
  destruct (map_get key (Tree_records t)) as [r|] eqn:G; [|discriminate].
  destruct (m r) as [r' out] eqn:Er. intros [= <- ->]. cbn [Tree_records].
  rewrite (nodup_keys_set _ _ _ _ Nd). cbn [andb].
  apply forallb_map_set; trivial.
  apply (Hm r r'); trivial. exact (forallb_map_get _ _ _ _ _ Hr G).
Qed.

Lemma Record_new_name_ok (e : str) (p v d : option str) (r : record) :
  Record_new e p v d = Ok r ->
  r = fresh_record e p v d /\ name_ok (Record_getFullName r) = true.
Proof.
  rewrite Record_new_cases.
  destruct (has_ws e) eqn:We; [discriminate|].
  destruct e as [|x e']; [discriminate|].
  destruct (opt_has_ws p) eqn:Wp; [discriminate|].
  destruct (opt_has_ws v) eqn:Wv; [discriminate|].
  intros [= <-]. split; [reflexivity|].
  rewrite Record_getFullName_spec. unfold fullName_truthy, fresh_record.
  cbn [Record_entityName Record_propertyName Record_verb].
  unfold name_ok. rewrite !has_ws_app, !has_ws_dotted, We, Wp, Wv.
  reflexivity.
Qed.

Lemma Tree_addRecord_parsed (e : str) (p v d : option str) (t t' : tree)
    (r : record) :
  tree_parsed t = true ->
  Tree_addRecord e p v d t = (t', Ok r) ->
  tree_parsed t' = true.
Proof.
  unfold tree_parsed. intros H. apply andb_true_iff in H as [Nd Hr].
  unfold Tree_addRecord.
  destruct (Record_new e p v d) as [r0|err] eqn:N; [|discriminate].
  destruct (map_has (Record_getFullName r0) (Tree_records t)); [discriminate|].
  intros [= <- <-]. cbn [Tree_records].
  rewrite (nodup_keys_set _ _ _ _ Nd). cbn [andb].
  apply forallb_map_set; trivial.
  apply Record_new_name_ok in N as [-> Hn].
  unfold record_parsed. cbn [fst snd]. now rewrite str_eqb_refl, Hn.
Qed.

Lemma parse_line_parsed (st st' : pstate) (line : str) :
  tree_parsed (ps_tree st) = true ->
  section_name_ok (ps_currentSectionName st) = true ->
  parse_line st line = Ok st' ->
  tree_parsed (ps_tree st') = true
  /\ section_name_ok (ps_currentSectionName st') = true.
Proof.
  intros Ht Hs. unfold parse_line.
  destruct (str_eqb (trim line) []); [now intros [= <-]|].
  destruct (isRecordDeclaration line).
  { destruct (Tree_addRecord _ _ _ _ (ps_tree st)) as [t [r|err]] eqn:A;
      [|discriminate].
    intros [= <-]. cbn [ps_tree ps_currentSectionName]. split; [|reflexivity].
    exact (Tree_addRecord_parsed _ _ _ _ _ _ _ Ht A). }
  destruct (ps_currentRecord st) as [key|]; [|now intros [= <-]].
  destruct (isSectionDeclaration (trim line)).
  { destruct (parseSectionDeclaration (trim line)) as [[|x name]|] eqn:P;
      try (now intros [= <-]).
    destruct (on_record key (Record_addSection (x :: name)) (ps_tree st))
      as [t [s|err]] eqn:A; [|discriminate].
    intros [= <-]. cbn [ps_tree ps_currentSectionName].
    apply parseSectionDeclaration_inv in P as (rest & _ & _ & F).
    assert (Hn : section_name_ok (x :: name) = true) by exact F.
    split; [|exact Hn].
    apply (on_record_parsed _ _ _ _ _ _ Ht) in A; trivial.
    intros r r' Hr A'. exact (Record_addSection_parsed _ _ _ _ _ Hr Hn A'). }
  destruct (parseField (trim line)) as [f|err] eqn:P; [|discriminate].
  destruct (on_record key (Record_addField f (ps_currentSectionName st))
              (ps_tree st)) as [t [u|err]] eqn:A; [|discriminate].
  intros [= <-]. cbn [ps_tree ps_currentSectionName]. split; [|exact Hs].
  destruct u.
  apply (on_record_parsed _ _ _ _ _ _ Ht) in A; trivial.
  intros r r' Hr A'.
  exact (Record_addField_parsed _ _ _ _ _ Hr (parseField_parsed _ _ P) Hs A').
Qed.

Lemma parse_lines_parsed (lines : list str) :
  forall st st',
    tree_parsed (ps_tree st) = true ->
    section_name_ok (ps_currentSectionName st) = true ->
    parse_lines st lines = Ok st' ->
    tree_parsed (ps_tree st') = true.
Proof.
  induction lines as [|l lines IH]; intros st st' Ht Hs; cbn [parse_lines].
  - now intros [= <-].
  - destruct (parse_line st l) as [st1|err] eqn:P; [|discriminate].
    destruct (parse_line_parsed _ _ _ Ht Hs P) as [Ht1 Hs1].
    now apply IH.
Qed.

(** X22: every tree that [treeFromString] returns is well formed: the
    records are stored under their full names, which are distinct, not
    empty and without white space; every record has main as its first
    section; the sections are stored under their names, distinct and
    made of word characters and dots; the fields are stored under their
    names, distinct within a section, not empty and without white space;
    a field with a default value is optional; the names of the attributes
    of a field are distinct, not empty and without white space. *)
Theorem parsed_tree_is_well_formed (text : str) (t : tree)
    (Hparse : treeFromString text = Ok t) :
  tree_parsed t = true.
Proof.
  unfold treeFromString in Hparse.
  destruct (parse_lines (mkState Tree_new None (lit "main"))
              (split_chr newline text)) as [st|err] eqn:P; [|discriminate].
  injection Hparse as <-.
  exact (parse_lines_parsed _ (mkState Tree_new None (lit "main")) _
           eq_refl eq_refl P).
Qed.

Lemma parsed_tree_is_well_formed_witness :
  treeFromString example_update = Ok example_update_tree
  /\ tree_parsed example_update_tree = true.
Proof.
  split; [vm_compute; reflexivity|].
  apply (parsed_tree_is_well_formed example_update).
  vm_compute. reflexivity.
Defined.

(** ** The exact round trip: fields *)

Lemma desc_exact_inv (d : str) :
  desc_exact (Some d) = true ->
  tight d /\ has_chr dquote d = false /\ has_chr newline d = false.
Proof.
  unfold desc_exact, tight. intros H.
  repeat (apply andb_true_iff in H as [H ?]).
  repeat split; try now apply negb_true_iff.
  destruct d; discriminate.
Qed.

Lemma desc_exact_ok (d : option str) :
  desc_exact d = true -> description_ok d = true.
Proof.
  destruct d as [d|]; trivial. intros H.
  apply desc_exact_inv in H as (_ & Hq & Hn).
  unfold description_ok. now rewrite Hq, Hn.
Qed.

Lemma descriptionToString_exact (d : str) :
  desc_exact (Some d) = true ->
  descriptionToString (Some d) = lit "// " ++ d.
Proof.
  intros H. apply desc_exact_inv in H as (T & Hq & Hn).
  unfold descriptionToString.
  destruct d as [|x d'] eqn:E; [destruct T; contradiction|]. rewrite <- E in *.
  rewrite escape_description_plain by assumption.
  apply (trim_core_eq [] (lit "// " ++ d) [] _ eq_refl eq_refl);
    [|now rewrite app_nil_r].
  change (lit "// " ++ d) with (lit "//" ++ [space] ++ d).
  apply tight_app; [repeat split; discriminate|exact T].
Qed.

Lemma opt_text_trim_exact (d : str) :
  tight d -> opt_text (trim (space :: d)) = Some d.
Proof.
  intros T.
  rewrite (trim_core_eq [space] d [] (space :: d) eq_refl eq_refl T)
    by now rewrite app_nil_r.
  destruct T as (N & _). destruct d; [contradiction|reflexivity].
Qed.

Lemma attrs_loop_comment_pair (n : nat) (d : str) (o : jsobj) :
  attrs_loop (S n) ("/"%char :: "/"%char :: d) o = (o, opt_text (trim d)).
Proof.
  cbn [attrs_loop]. destruct (match_comment d) as (rest & c & M & C).
  rewrite (search_here _ _ _ _ M), C. reflexivity.
Qed.

Lemma comment_tail_pair (n : nat) (tail : str) (cm : option str) (o : jsobj) :
  comment_tail_of tail cm -> length tail < n -> attrs_loop n tail o = (o, cm).
Proof.
  intros [[-> ->]|(d & -> & ->)] L.
  - apply attrs_loop_nil.
  - destruct n as [|n]; [simpl in L; lia|].
    change (space :: "/"%char :: "/"%char :: d)
      with ([space] ++ "/"%char :: "/"%char :: d).
    rewrite attrs_loop_blank by reflexivity. apply attrs_loop_comment_pair.
Qed.

Lemma comment_tail_of_tail (tail : str) (cm : option str) :
  comment_tail_of tail cm -> comment_tail tail.
Proof. intros [[-> _]|(d & -> & _)]; [now left|right; eauto]. Qed.

(** All the attributes, then the comment if there is one, with the
    comment that is read. *)
Lemma attrs_loop_list_pair (l : jsmap (option str)) :
  forall (e : str * option str) (n : nat) (o : jsobj) (tail : str)
         (cm : option str),
    forallb (fun e => attr_name_ok (fst e) && attr_value_ok (snd e)) (e :: l)
    = true ->
    comment_tail_of tail cm ->
    length (join (lit " ") (map attr_to_string (e :: l)) ++ tail) < n ->
    attrs_loop n (join (lit " ") (map attr_to_string (e :: l)) ++ tail) o
    = (set_all (e :: l) o, cm).
Proof.
  induction l as [|e2 l IH]; intros e n o tail cm Ok Ct Len.
  - simpl in Ok. rewrite andb_true_r in Ok.
    apply andb_true_iff in Ok as [On Ov].
    cbn [map join] in *. destruct n as [|n]; [lia|].
    destruct (comment_tail_stops _ (comment_tail_of_tail _ _ Ct)) as [St Eq].
    rewrite attrs_loop_token by assumption.
    cbn [set_all fold_left]. apply comment_tail_pair; trivial.
    rewrite length_app in Len.
    destruct (attr_to_string_head e On) as (y & s1 & E1 & _).
    rewrite E1 in Len. cbn [length] in Len. lia.
  - cbn [forallb] in Ok. apply andb_true_iff in Ok as [Oe Ok].
    apply andb_true_iff in Oe as [On Ov].
    change (join (lit " ") (map attr_to_string (e :: e2 :: l)))
      with (attr_to_string e ++ lit " "
            ++ join (lit " ") (map attr_to_string (e2 :: l))) in Len |- *.
    rewrite <- !app_assoc in Len |- *.
    destruct n as [|n]; [lia|].
    assert (H2 : attr_name_ok (fst e2) = true).
    { cbn [forallb] in Ok. apply andb_true_iff in Ok as [O2 _].
      now apply andb_true_iff in O2. }
    destruct (attr_to_string_head e2 H2) as (x & s2 & E2 & Fx).
    rewrite attrs_loop_token; trivial.
    + change (lit " " ++ join (lit " ") (map attr_to_string (e2 :: l)) ++ tail)
        with ([space] ++ join (lit " ") (map attr_to_string (e2 :: l)) ++ tail).
      rewrite attrs_loop_blank by reflexivity.
      rewrite (IH e2 n _ tail cm); trivial.
      rewrite length_app in Len.
      destruct (attr_to_string_head e On) as (y & s1 & E1 & _).
      rewrite E1 in Len. cbn [length] in Len.
      change (lit " " ++ join (lit " ") (map attr_to_string (e2 :: l)) ++ tail)
        with (space :: join (lit " ") (map attr_to_string (e2 :: l)) ++ tail)
        in Len.
      cbn [length] in Len. lia.
    + reflexivity.
    + destruct (join_head (lit " ") (attr_to_string e2) (map attr_to_string l))
        as [r Er].
      change (map attr_to_string (e2 :: l))
        with (attr_to_string e2 :: map attr_to_string l).
      rewrite Er, E2. apply not_eq_after_space. exact Fx.
Qed.

Lemma field_text_exact (f : field) :
  forallb (fun e => attr_name_ok (fst e) && attr_value_ok (snd e))
    (Field_attributes f) = true ->
  desc_exact (Field_description f) = true ->
  tight (field_nameStr f) ->
  exists X,
    Field_stringify f = field_nameStr f ++ X
    /\ (X = [] \/ exists X', X = space :: X')
    /\ parseHtmlAttributes (trim X)
       = (set_all (Field_attributes f) obj_empty, Field_description f).
Proof.
  intros Ok Od T. rewrite Field_stringify_eq. unfold Field_attrsToString.
  set (N := field_nameStr f) in *.
  destruct (Field_description f) as [d|] eqn:Ed;
    destruct (Field_attributes f) as [|e l] eqn:El.
  - rewrite (descriptionToString_exact d Od).
    apply desc_exact_inv in Od as (Td & _ & _).
    assert (TD : tight (lit "// " ++ d)).
    { change (lit "// " ++ d) with (lit "//" ++ [space] ++ d).
      apply tight_app; [repeat split; discriminate|exact Td]. }
    exists (lit "     " ++ lit "// " ++ d). cbn [map join].
    split; [|split].
    + apply (trim_core_eq [] (N ++ lit "     " ++ lit "// " ++ d) []).
      * reflexivity.
      * reflexivity.
      * now apply tight_app.
      * rewrite app_nil_r. reflexivity.
    + right. now eexists.
    + rewrite (trim_core_eq (lit "     ") (lit "// " ++ d) []
                 (lit "     " ++ lit "// " ++ d));
        trivial; try reflexivity; [|now rewrite app_nil_r].
      change (lit "// " ++ d) with ("/"%char :: "/"%char :: space :: d).
      unfold parseHtmlAttributes. rewrite attrs_loop_comment_pair.
      now rewrite (opt_text_trim_exact d Td).
  - rewrite (descriptionToString_exact d Od).
    apply desc_exact_inv in Od as (Td & _ & _).
    assert (TD : tight (lit "// " ++ d)).
    { change (lit "// " ++ d) with (lit "//" ++ [space] ++ d).
      apply tight_app; [repeat split; discriminate|exact Td]. }
    set (A := join (lit " ") (map attr_to_string (e :: l))).
    assert (Ta : tight A) by exact (tight_attrs l e Ok).
    assert (Tz : tight (A ++ lit " " ++ lit "// " ++ d)) by now apply tight_app.
    exists (lit "    " ++ A ++ lit " " ++ lit "// " ++ d).
    split; [|split].
    + apply (trim_core_eq [] (N ++ lit "    " ++ A ++ lit " " ++ lit "// " ++ d)
               []).
      * reflexivity.
      * reflexivity.
      * now apply tight_app.
      * rewrite app_nil_r. reflexivity.
    + right. now eexists.
    + rewrite (trim_core_eq (lit "    ") (A ++ lit " " ++ lit "// " ++ d) []
                 (lit "    " ++ A ++ lit " " ++ lit "// " ++ d));
        trivial; try reflexivity; [|now rewrite app_nil_r].
      unfold parseHtmlAttributes. apply attrs_loop_list_pair; trivial; [|unfold A; lia].
      right. exists (space :: d). split; [reflexivity|].
      symmetry. now apply opt_text_trim_exact.
  - exists []. cbn [descriptionToString map join]. rewrite (app_nil_r N).
    split; [|split; [now left|reflexivity]].
    apply (trim_core_eq [] N (lit "     ")); trivial; reflexivity.
  - set (A := join (lit " ") (map attr_to_string (e :: l))).
    assert (Ta : tight A) by exact (tight_attrs l e Ok).
    exists (lit "    " ++ A). cbn [descriptionToString].
    split; [|split].
    + apply (trim_core_eq [] (N ++ lit "    " ++ A) (lit " ")).
      * reflexivity.
      * reflexivity.
      * now apply tight_app.
      * rewrite <- !app_assoc. reflexivity.
    + right. now eexists.
    + rewrite (trim_core_eq (lit "    ") A [] (lit "    " ++ A));
        trivial; try reflexivity; [|now rewrite app_nil_r].
      replace A with (A ++ []) by apply app_nil_r.
      unfold parseHtmlAttributes. apply attrs_loop_list_pair; trivial;
        [now left|unfold A; lia].
Qed.

Lemma parseField_finish_exact (name : str) (opt : bool) (def : option str)
    (attrsStr : str) (l : jsmap (option str)) (cm : option str) :
  parseHtmlAttributes attrsStr = (set_all l obj_empty, cm) ->
  forallb (fun e => attr_name_ok (fst e) && attr_value_ok (snd e)) l = true ->
  nodup_keys l = true ->
  parseField_finish name opt def attrsStr = mkField name l opt def cm.
Proof.
  intros E Ok Nd.
  assert (S : field_shape (parseField_finish name opt def attrsStr)
              = (name, opt, def, l)).
  { apply parseField_finish_shape; trivial. now rewrite E. }
  assert (D : Field_description (parseField_finish name opt def attrsStr) = cm).
  { unfold parseField_finish. rewrite E. reflexivity. }
  destruct (parseField_finish name opt def attrsStr) as [n a o d c].
  unfold field_shape in S. cbn in S, D. injection S as -> -> -> ->.
  now subst.
Qed.

(** The text of a field that is written and read back as it is parses
    to the field. *)
Lemma parseField_stringify_exact (f : field) :
  field_exact f = true -> parseField (Field_stringify f) = Ok f.
Proof.
  intros H. apply andb_true_iff in H as [H Hd].
  pose proof (tight_nameStr f H) as T.
  apply field_ok_inv in H as (Nd & Ok & Od & K).
  destruct (field_text_exact f Ok Hd T) as (X & E & HX & P).
  rewrite E. unfold field_nameStr in *.
  destruct K as [(O & (d & Ed & Hdf) & Hn)|(O & Ed & N & F)]; rewrite O.
  - rewrite Ed. cbn [interpolate]. rewrite <- !app_assoc.
    rewrite parseField_optional by assumption.
    rewrite (parseField_finish_exact _ _ _ _ _ _ P Ok Nd).
    rewrite <- O, <- Ed. now destruct f.
  - rewrite parseField_required by assumption.
    rewrite (parseField_finish_exact _ _ _ _ _ _ P Ok Nd).
    rewrite <- O, <- Ed. now destruct f.
Qed.

(** ** The exact round trip: sections *)

Lemma field_step_exact (done : jsmap record) (key e : str) (p v d : option str)
    (sdone : jsmap section) (sn : str) (fields : jsmap field) (f : field) :
  map_has key done = false -> map_has sn sdone = false ->
  field_exact f = true -> map_has (Field_name f) fields = false ->
  parse_line (cur_state done key e p v d sdone sn fields)
    (padding4 ++ Field_stringify f)
  = Ok (cur_state done key e p v d sdone sn (fields ++ [(Field_name f, f)])).
Proof.
  intros Hk Hs Hx Hn.
  pose proof (parseField_stringify_exact f Hx) as Pf.
  apply andb_true_iff in Hx as [Hf _].
  destruct (field_line_facts f Hf) as (_ & Tl & Ne & Ns).
  unfold parse_line. rewrite Tl, Ne, indent_not_record.
  unfold cur_state. cbn [ps_currentRecord ps_tree ps_currentSectionName].
  rewrite Ns, Pf.
  unfold on_record. cbn [Tree_records].
  rewrite map_get_last by exact Hk.
  unfold Record_addField. cbn [Record_sections].
  rewrite map_get_last by exact Hs.
  unfold on_section. cbn [Record_sections].
  rewrite map_get_last by exact Hs.
  unfold Section_addField, Section_hasField. cbn [Section_fields Section_name].
  rewrite Hn.
  rewrite (map_set_absent _ (Field_name f) f fields Hn).
  rewrite (map_set_last _ sn _ _ sdone Hs).
  unfold Record_set_sections.
  cbn [Record_entityName Record_propertyName Record_verb Record_description].
  rewrite (map_set_last _ key _ _ done Hk). reflexivity.
Qed.

Lemma fields_steps_exact (done : jsmap record) (key e : str)
    (p v d : option str) (sdone : jsmap section) (sn : str)
    (fs : jsmap field) :
  map_has key done = false -> map_has sn sdone = false ->
  forallb (fun e => str_eqb (fst e) (Field_name (snd e)) && field_exact (snd e))
    fs = true ->
  forall fields0,
    nodup_keys (fields0 ++ fs) = true ->
    parse_text (cur_state done key e p v d sdone sn fields0)
      (join [newline]
         (map (fun f => padding4 ++ f) (map Field_stringify (map_values fs))))
    = Ok (cur_state done key e p v d sdone sn (fields0 ++ fs)).
Proof.
  intros Hk Hs. induction fs as [|[k f] fs IH]; intros Ok fields0 Nd.
  - now rewrite app_nil_r.
  - cbn [forallb fst snd] in Ok. apply andb_true_iff in Ok as [Ok1 Ok].
    apply andb_true_iff in Ok1 as [Ek Of].
    apply str_eqb_eq in Ek. subst k.
    destruct (nodup_keys_mid _ _ _ _ _ Nd) as [Hn _].
    pose proof (field_step_exact done key e p v d sdone sn fields0 f
                  Hk Hs Of Hn) as St.
    assert (Hf : field_ok f = true) by now apply andb_true_iff in Of.
    destruct (field_line_facts f Hf) as (Nl & _).
    assert (Nd' : nodup_keys ((fields0 ++ [(Field_name f, f)]) ++ fs) = true)
      by now rewrite <- app_assoc.
    pose proof (IH Ok _ Nd') as St'.
    unfold map_values in *. cbn [map snd].
    destruct fs as [|e2 fs].
    + cbn [map join]. rewrite parse_text_line by exact Nl. exact St.
    + cbn [map snd] in St' |- *. rewrite join_cons2.
      change ([newline] ++ ?x) with (newline :: x).
      rewrite parse_text_app, parse_text_line by exact Nl.
      rewrite St, St'. now rewrite <- app_assoc.
Qed.

Lemma section_exact_inv (k : str) (s : section) :
  section_exact (k, s) = true ->
  s = mkSection k (Section_fields s) /\ k <> []
  /\ forallb is_section_chr k = true
  /\ nodup_keys (Section_fields s) = true
  /\ forallb (fun e => str_eqb (fst e) (Field_name (snd e))
                       && field_exact (snd e))
       (Section_fields s) = true.
Proof.
  unfold section_exact. intros H.
  repeat (apply andb_true_iff in H as [H ?]).
  apply str_eqb_eq in H. subst k. repeat split; trivial.
  - now destruct s.
  - destruct (Section_name s); discriminate.
Qed.

Lemma sections_steps_exact (done : jsmap record) (key e : str)
    (p v d : option str) (l : jsmap section) :
  map_has key done = false ->
  forall (sdone : jsmap section) (sn : str) (fields : jsmap field),
    forallb section_exact l = true ->
    forallb (fun e => negb (str_eqb (fst e) (lit "main"))) l = true ->
    nodup_keys (sdone ++ (sn, mkSection sn fields) :: l) = true ->
    l <> [] ->
    exists sdone' sn' fields',
      parse_text (cur_state done key e p v d sdone sn fields)
        (join [newline] (map (Section_stringify padding4) (map_values l)))
      = Ok (cur_state done key e p v d sdone' sn' fields')
      /\ sdone' ++ [(sn', mkSection sn' fields')]
         = (sdone ++ [(sn, mkSection sn fields)]) ++ l.
Proof.
  intros Hk. induction l as [|[k s] l IH]; intros sdone sn fields Hok Nm Nd Ne;
    [contradiction|].
  cbn [forallb fst] in Hok, Nm.
  apply andb_true_iff in Hok as [Os Hok]. apply andb_true_iff in Nm as [Nk Nm].
  apply negb_true_iff in Nk.
  apply section_exact_inv in Os as (Es & Nn & Fk & Ndf & Okf).
  assert (En : Section_name s = k) by (rewrite Es; reflexivity).
  assert (Nd2 : nodup_keys ((sdone ++ [(sn, mkSection sn fields)])
                            ++ (k, s) :: l) = true)
    by now rewrite <- app_assoc.
  destruct (nodup_keys_mid _ _ _ _ _ Nd2) as [Hs _].
  destruct (header_step done key e p v d sdone sn fields k Hk Hs Nn Fk)
    as [Nl Hd].
  pose proof (fields_steps_exact done key e p v d
                (sdone ++ [(sn, mkSection sn fields)]) k (Section_fields s)
                Hk Hs Okf [] Ndf) as Bd.
  assert (Tx : Section_stringify padding4 s
               = (padding4 ++ lit "@" ++ k) ++ newline
                 :: (join [newline]
                       (map (fun f => padding4 ++ f)
                          (map Field_stringify (map_values (Section_fields s))))
                     ++ newline :: [])).
  { unfold Section_stringify. rewrite En, Nk.
    rewrite <- !app_assoc. reflexivity. }
  assert (P1 : parse_text (cur_state done key e p v d sdone sn fields)
                 (Section_stringify padding4 s)
               = Ok (cur_state done key e p v d
                       (sdone ++ [(sn, mkSection sn fields)]) k
                       (Section_fields s))).
  { rewrite Tx, parse_text_app, parse_text_line by exact Nl.
    rewrite Hd, parse_text_app, Bd. reflexivity. }
  unfold map_values in *. cbn [map snd].
  destruct l as [|e2 l].
  - exists (sdone ++ [(sn, mkSection sn fields)]), k, (Section_fields s).
    cbn [map join]. split; [exact P1|]. now rewrite <- Es.
  - assert (Nd3 : nodup_keys ((sdone ++ [(sn, mkSection sn fields)])
                              ++ (k, mkSection k (Section_fields s))
                              :: e2 :: l) = true)
      by now rewrite <- Es.
    destruct (IH (sdone ++ [(sn, mkSection sn fields)]) k (Section_fields s)
                Hok Nm Nd3)
      as (sdone' & sn' & fields' & P2 & Sh2); [discriminate|].
    exists sdone', sn', fields'. split.
    + cbn [map snd] in P2 |- *. rewrite join_cons2.
      change ([newline] ++ ?x) with (newline :: x).
      rewrite parse_text_app, P1. exact P2.
    + rewrite Sh2, <- Es. rewrite <- !app_assoc. reflexivity.
Qed.

(** ** The exact round trip: records *)

Lemma has_slashes_cons (x y : ascii) (s : str) :
  has_slashes (x :: y :: s)
  = (chr_eqb x "/"%char && chr_eqb y "/"%char) || has_slashes (y :: s).
Proof. reflexivity. Qed.

Lemma split_slashes_cons (x y : ascii) (s : str) :
  split_slashes (x :: y :: s)
  = if chr_eqb x "/"%char && chr_eqb y "/"%char then [] :: split_slashes s
    else cons_head x (split_slashes (y :: s)).
Proof. reflexivity. Qed.

Lemma split_slashes_absent (s : str) :
  has_slashes s = false -> split_slashes s = [s].
Proof.
  induction s as [|x s IH]; [reflexivity|].
  destruct s as [|y s']; [reflexivity|].
  rewrite has_slashes_cons, split_slashes_cons. intros H.
  apply orb_false_iff in H as [A B]. now rewrite A, (IH B).
Qed.

Lemma split_slashes_mid (a b : str) :
  has_slashes a = false -> last a space <> "/"%char ->
  split_slashes (a ++ "/"%char :: "/"%char :: b) = a :: split_slashes b.
Proof.
  induction a as [|x a IH]; intros H L; [reflexivity|].
  destruct a as [|y a'].
  - cbn [last] in L.
    change ([x] ++ "/"%char :: "/"%char :: b)
      with (x :: "/"%char :: "/"%char :: b).
    rewrite split_slashes_cons.
    assert (E : chr_eqb x "/"%char = false).
    { destruct (chr_eqb x "/"%char) eqn:E; trivial.
      apply chr_eqb_eq in E. contradiction. }
    rewrite E. reflexivity.
  - rewrite has_slashes_cons in H. apply orb_false_iff in H as [A B].
    change (last (x :: y :: a') space) with (last (y :: a') space) in L.
    change ((x :: y :: a') ++ "/"%char :: "/"%char :: b)
      with (x :: y :: (a' ++ "/"%char :: "/"%char :: b)).
    rewrite split_slashes_cons, A.
    change (y :: a' ++ "/"%char :: "/"%char :: b)
      with ((y :: a') ++ "/"%char :: "/"%char :: b).
    now rewrite (IH B L).
Qed.

Lemma has_slashes_app (a b : str) :
  has_slashes a = false -> has_slashes b = false ->
  stops (is_chr "/"%char) b ->
  has_slashes (a ++ b) = false.
Proof.
  induction a as [|x a IH]; intros Ha Hb St; [exact Hb|].
  destruct a as [|y a'].
  - destruct b as [|z b']; [reflexivity|].
    change ([x] ++ z :: b') with (x :: z :: b').
    rewrite has_slashes_cons. simpl in St. unfold is_chr in St.
    now rewrite St, andb_false_r.
  - rewrite has_slashes_cons in Ha. apply orb_false_iff in Ha as [A B].
    change ((x :: y :: a') ++ b) with (x :: y :: (a' ++ b)).
    rewrite has_slashes_cons, A.
    change (y :: a' ++ b) with ((y :: a') ++ b). now apply IH.
Qed.

Lemma record_line_exact (F : str) (desc : option str) :
  full_name_ok F = true -> desc_exact desc = true ->
  trim (F ++ lit "    " ++ descriptionToString desc)
  = F ++ record_line_tail desc.
Proof.
  intros Hf Hd. apply full_name_ok_inv in Hf as (Hw & _ & _ & N).
  pose proof (no_ws_tight F N Hw) as T.
  destruct desc as [d|].
  - rewrite (descriptionToString_exact d Hd). unfold record_line_tail.
    apply desc_exact_inv in Hd as (Td & _).
    change (lit "    " ++ lit "// " ++ d) with (lit "    // " ++ d).
    apply (trim_core_eq [] (F ++ lit "    // " ++ d) []); try reflexivity.
    + now apply tight_app.
    + now rewrite app_nil_r.
  - cbn [descriptionToString record_line_tail]. rewrite !app_nil_r.
    apply (trim_core_eq [] F (lit "    ")); trivial; reflexivity.
Qed.

Lemma record_description_exact (F : str) (desc : option str) :
  tight (F ++ record_line_tail desc) ->
  has_slashes F = false ->
  desc_exact desc = true -> opt_has_slashes desc = false ->
  d_description (parseRecordDeclaration (F ++ record_line_tail desc)) = desc.
Proof.
  intros T Hs Hd Hds. unfold parseRecordDeclaration. cbn [d_description].
  rewrite (trim_core_eq [] _ [] _ eq_refl eq_refl T) by now rewrite app_nil_r.
  destruct desc as [d|]; unfold record_line_tail.
  - apply desc_exact_inv in Hd as (Td & _). cbn [opt_has_slashes] in Hds.
    replace (F ++ lit "    // " ++ d)
      with ((F ++ lit "    ") ++ "/"%char :: "/"%char :: space :: d)
      by (rewrite <- app_assoc; reflexivity).
    rewrite split_slashes_mid.
    + assert (Hsd : has_slashes (space :: d) = false).
      { destruct d as [|x d']; [reflexivity|].
        rewrite has_slashes_cons. exact Hds. }
      rewrite (split_slashes_absent _ Hsd). cbn [nth_error option_map].
      f_equal. apply (trim_core_eq [space] d []); trivial; try reflexivity.
      now rewrite app_nil_r.
    + apply has_slashes_app; trivial; reflexivity.
    + rewrite last_app_ne by discriminate. discriminate.
  - rewrite app_nil_r. now rewrite (split_slashes_absent _ Hs).
Qed.

Lemma decl_names_exact (r : record) :
  names_exact r = true ->
  decl_entity (split_chr "."%char (Record_getFullName r))
  = Record_entityName r
  /\ decl_property (split_chr "."%char (Record_getFullName r))
     = Record_propertyName r
  /\ decl_action (split_chr "."%char (Record_getFullName r))
     = Record_verb r.
Proof.
  rewrite Record_getFullName_spec. unfold names_exact, fullName_truthy.
  destruct r as [e p v secs d].
  cbn [Record_entityName Record_propertyName Record_verb].
  intros H. apply andb_true_iff in H as [H Hv].
  apply andb_true_iff in H as [He Hp]. apply negb_true_iff in He.
  destruct v as [[|y v']|]; [discriminate| |].
  - apply negb_true_iff in Hv.
    destruct p as [[|x p']|]; [discriminate| |].
    + change (e ++ dotted (Some (x :: p')) ++ dotted (Some (y :: v')))
        with (e ++ "."%char :: ((x :: p') ++ "."%char :: (y :: v'))).
      rewrite !split_chr_app, (split_chr_absent _ _ He),
        (split_chr_absent _ _ Hv).
      pose proof (split_chr_ne "."%char (x :: p')) as Nsp.
      pose proof (join_split "."%char (x :: p')) as Js.
      set (sp := split_chr "."%char (x :: p')) in *.
      unfold decl_entity, decl_property, decl_action.
      cbn [app hd tl]. rewrite last_last, removelast_last.
      destruct sp as [|q sp']; [contradiction|].
      cbn [app]. repeat split. f_equal. exact Js.
    + change (e ++ dotted None ++ dotted (Some (y :: v')))
        with (e ++ "."%char :: (y :: v')).
      rewrite split_chr_app, (split_chr_absent _ _ He),
        (split_chr_absent _ _ Hv).
      repeat split.
  - destruct p as [p'|]; [discriminate|].
    cbn [dotted]. rewrite !app_nil_r, (split_chr_absent _ _ He).
    repeat split.
Qed.

Lemma record_step_exact (done : jsmap record) (cr : option str) (sn : str)
    (key : str) (r : record) :
  map_has key done = false ->
  Record_getFullName r = key ->
  full_name_ok key = true -> has_slashes key = false ->
  names_exact r = true ->
  desc_exact (Record_description r) = true ->
  opt_has_slashes (Record_description r) = false ->
  has_chr newline (key ++ record_line_tail (Record_description r)) = false
  /\ parse_line (mkState (mkTree done) cr sn)
       (key ++ record_line_tail (Record_description r))
     = Ok (cur_state done key (Record_entityName r) (Record_propertyName r)
             (Record_verb r) (Record_description r) [] (lit "main") []).
Proof.
  intros Hk Ek Hf Hsl Hn Hd Hds.
  destruct (record_line_form key (Record_description r) Hf
              (desc_exact_ok _ Hd)) as (Y & E & HY & Nl & T).
  rewrite (record_line_exact key _ Hf Hd) in E.
  apply app_inv_head in E. rewrite <- E in *. clear E Y.
  pose proof (record_description_exact key _ T Hsl Hd Hds) as Ed.
  apply full_name_ok_inv in Hf as (Hw & Ha & Np & N).
  destruct (parseRecordDeclaration_names key _ Hw HY T) as (E1 & E2 & E3).
  destruct (decl_names_exact r Hn) as (D1 & D2 & D3).
  rewrite Ek in D1, D2, D3. rewrite D1 in E1. rewrite D2 in E2.
  rewrite D3 in E3.
  pose proof (Record_new_parts (split_chr "."%char key)
                (Record_description r) (split_chr_ne _ _) Np
                (has_ws_parts _ _ Hw)) as [Rn Fn].
  rewrite D1, D2, D3 in Rn, Fn.
  change (lit ".") with ["."%char] in Fn.
  rewrite (join_split "."%char key) in Fn.
  split; [exact Nl|].
  unfold parse_line.
  rewrite (trim_core_eq [] _ [] _ eq_refl eq_refl T) by now rewrite app_nil_r.
  assert (Ne : str_eqb (key ++ record_line_tail (Record_description r)) []
               = false).
  { apply str_eqb_neq. destruct key; [contradiction|discriminate]. }
  assert (Rd : isRecordDeclaration
                 (key ++ record_line_tail (Record_description r)) = true).
  { destruct key as [|x F']; [contradiction|].
    simpl in Hw. apply orb_false_iff in Hw as [Hx _].
    unfold isRecordDeclaration, test_start, match_here.
    change ((x :: F') ++ record_line_tail (Record_description r))
      with (x :: F' ++ record_line_tail (Record_description r)).
    rewrite rmatch_Chr_cons, Hx.
    change (isSectionDeclaration
              (x :: F' ++ record_line_tail (Record_description r)))
      with (startsWith (lit "@") (x :: F')).
    now rewrite Ha. }
  rewrite Ne, Rd. cbn [ps_tree]. rewrite E1, E2, E3, Ed.
  unfold Tree_addRecord. rewrite Rn, Fn. cbn [Tree_records].
  rewrite Hk. rewrite map_set_absent by exact Hk.
  rewrite Fn. reflexivity.
Qed.

Lemma record_exact_inv (k : str) (r : record) :
  record_exact (k, r) = true ->
  Record_getFullName r = k /\ full_name_ok k = true
  /\ has_slashes k = false /\ names_exact r = true
  /\ desc_exact (Record_description r) = true
  /\ opt_has_slashes (Record_description r) = false
  /\ (exists s0 l, Record_sections r = (lit "main", s0) :: l)
  /\ nodup_keys (Record_sections r) = true
  /\ forallb section_exact (Record_sections r) = true.
Proof.
  unfold record_exact. intros H.
  repeat (apply andb_true_iff in H as [H ?]).
  apply str_eqb_eq in H. symmetry in H.
  repeat split; trivial; try now apply negb_true_iff.
  destruct (Record_sections r) as [|[k0 s0] l]; [discriminate|].
  match goal with
  | Hm : str_eqb k0 _ = true |- _ => apply str_eqb_eq in Hm; subst k0
  end.
  eauto.
Qed.

(** The text of a record that is written and read back as it is adds the
    record to the tree. *)
Lemma record_steps_exact (done : jsmap record) (cr : option str) (sn : str)
    (key : str) (r : record) :
  map_has key done = false -> record_exact (key, r) = true ->
  exists sn',
    parse_text (mkState (mkTree done) cr sn) (Record_stringify r)
    = Ok (mkState (mkTree (done ++ [(key, r)])) (Some key) sn').
Proof.
  intros Hk Hr.
  apply record_exact_inv in Hr
    as (Ek & Hf & Hsl & Hn & Hd & Hds & (s0 & l & Es) & Nd & Hs).
  destruct (record_step_exact done cr sn key r Hk Ek Hf Hsl Hn Hd Hds)
    as (Nl & St).
  rewrite Es in Nd, Hs. cbn [forallb] in Hs.
  apply andb_true_iff in Hs as [H0 Hs].
  apply section_exact_inv in H0 as (E0 & _ & _ & Ndf & Okf).
  assert (En0 : Section_name s0 = lit "main") by (rewrite E0; reflexivity).
  assert (Hm : map_has (lit "main") (@nil (str * section)) = false)
    by reflexivity.
  pose proof (fields_steps_exact done key (Record_entityName r)
                (Record_propertyName r) (Record_verb r) (Record_description r)
                [] (lit "main") (Section_fields s0) Hk Hm Okf [] Ndf) as Bd.
  assert (T0 : Section_stringify padding4 s0
               = join [newline]
                   (map (fun f => padding4 ++ f)
                      (map Field_stringify (map_values (Section_fields s0))))
                 ++ newline :: []).
  { unfold Section_stringify. rewrite En0. reflexivity. }
  assert (Tr : Record_stringify r
               = (key ++ record_line_tail (Record_description r))
                 ++ newline
                 :: join [newline]
                      (map (Section_stringify padding4)
                         (map_values ((lit "main", s0) :: l)))).
  { unfold Record_stringify. rewrite Ek, Es.
    rewrite (record_line_exact key _ Hf Hd). unfold map_values.
    cbn [map snd]. rewrite join_cons2. reflexivity. }
  assert (Er : forall secs,
             secs = Record_sections r ->
             mkRecord (Record_entityName r) (Record_propertyName r)
               (Record_verb r) secs (Record_description r) = r).
  { intros secs ->. now destruct r. }
  rewrite Tr, parse_text_app, parse_text_line by exact Nl. rewrite St.
  unfold map_values. cbn [map snd].
  destruct l as [|e2 l].
  - cbn [map join]. rewrite T0, parse_text_app, Bd.
    exists (lit "main"). unfold parse_text, cur_state. cbn [split_chr parse_lines
      parse_line trim trimStart trimEnd rev str_eqb app].
    rewrite Er; [reflexivity|]. rewrite Es, E0. reflexivity.
  - rewrite join_cons_ne by (cbn; discriminate).
    change ([newline] ++ ?x) with (newline :: x).
    rewrite parse_text_app, T0, parse_text_app, Bd.
    change (parse_text
              (cur_state done key (Record_entityName r) (Record_propertyName r)
                 (Record_verb r) (Record_description r) [] (lit "main")
                 ([] ++ Section_fields s0)) [])
      with (Ok (cur_state done key (Record_entityName r)
                  (Record_propertyName r) (Record_verb r)
                  (Record_description r) [] (lit "main") (Section_fields s0))).
    assert (Nm : forallb (fun e => negb (str_eqb (fst e) (lit "main")))
                   (e2 :: l) = true).
    { apply absent_all_differ. pose proof Nd as Nd'. simpl in Nd'.
      apply andb_true_iff in Nd' as [Nd' _]. now apply negb_true_iff. }
    assert (Nd2 : nodup_keys ([] ++ (lit "main",
                                     mkSection (lit "main") (Section_fields s0))
                              :: e2 :: l) = true)
      by (rewrite <- E0; exact Nd).
    destruct (sections_steps_exact done key (Record_entityName r)
                (Record_propertyName r) (Record_verb r) (Record_description r)
                (e2 :: l) Hk [] (lit "main") (Section_fields s0) Hs Nm Nd2)
      as (sdone' & sn' & fields' & P2 & Sh2); [discriminate|].
    unfold map_values in P2. rewrite P2.
    exists sn'. unfold cur_state. rewrite Sh2.
    rewrite Er; [reflexivity|]. rewrite Es, <- E0. reflexivity.
Qed.

(** The text of a tree adds its records one after the other. *)
Lemma records_steps_exact (recs : jsmap record) :
  forall (done : jsmap record) (cr : option str) (sn : str),
    forallb record_exact recs = true ->
    nodup_keys (done ++ recs) = true ->
    recs <> [] ->
    exists cr' sn',
      parse_text (mkState (mkTree done) cr sn)
        (join [newline; newline] (map Record_stringify (map_values recs)))
      = Ok (mkState (mkTree (done ++ recs)) cr' sn').
Proof.
  induction recs as [|[key r] recs IH]; intros done cr sn Hok Nd Ne;
    [contradiction|].
  cbn [forallb] in Hok. apply andb_true_iff in Hok as [Hr Hok].
  destruct (nodup_keys_mid _ _ _ _ _ Nd) as [Hk _].
  destruct (record_steps_exact done cr sn key r Hk Hr) as (sn' & P1).
  unfold map_values in *. cbn [map snd].
  destruct recs as [|e2 recs].
  - exists (Some key), sn'. cbn [map join]. exact P1.
  - assert (Nd2 : nodup_keys ((done ++ [(key, r)]) ++ e2 :: recs) = true)
      by now rewrite <- app_assoc.
    destruct (IH (done ++ [(key, r)]) (Some key) sn' Hok Nd2)
      as (cr' & sn'' & P2); [discriminate|].
    exists cr', sn''.
    rewrite join_cons_ne by (cbn; discriminate).
    change ([newline; newline] ++ ?x) with (newline :: [] ++ newline :: x).
    rewrite parse_text_app, P1, parse_text_app, parse_text_nil.
    rewrite P2. now rewrite <- app_assoc.
Qed.

(** X23: writing a tree and reading the text back gives the tree itself,
    descriptions included, for every tree that satisfies [tree_exact].
    The conditions: records, sections, fields and attributes are stored
    under their names, no name twice in a map; a full name has no white
    space and no two slashes in a row, does not start with @, and is made
    of parts between dots that are not empty; the entity name has no dot;
    a verb that is not [null] is not empty and has no dot; a property name
    that is not [null] is not empty and comes with a verb that is not
    [null]; a section name is a non-empty text of word characters and
    dots, and the first section of a record is main; a required field has
    no default value and a non-empty name of letters, digits, underscores
    and dots; an optional field has a default value that is a string with
    no double quote, line feed, closing bracket or backslash right before
    a quote, and a non-empty name with no white space, equals sign or
    closing bracket that does not start with the comment marker and is
    not [__proto__]; an attribute name is not empty, has no white space or
    equals sign, does not start with the comment marker, and is neither
    [__proto__] nor an array index; an attribute value is [null] or a
    non-empty string with no double quote or line feed that does not end
    with a backslash; a description is [null] or a text that is not
    empty, has no white space at either end, no double quote and no line
    feed, and the description of a record has no two slashes in a row. *)
Theorem round_trip_exact (t : tree) (Hex : tree_exact t = true) :
  treeFromString (Tree_stringify t) = Ok t.
Proof.
  unfold tree_exact in Hex. apply andb_true_iff in Hex as [Nd Hr].
  unfold treeFromString, Tree_stringify.
  destruct t as [recs]. cbn [Tree_records] in *.
  destruct recs as [|e recs]; [reflexivity|].
  destruct (records_steps_exact (e :: recs) [] None (lit "main") Hr Nd)
    as (cr' & sn' & P); [discriminate|].
  unfold parse_text in P. unfold Tree_new. now rewrite P.
Qed.

Lemma round_trip_exact_witness :
  tree_exact example_exact_tree = true
  /\ treeFromString (Tree_stringify example_exact_tree) = Ok example_exact_tree.
Proof.
  split; [vm_compute; reflexivity|].
  apply (round_trip_exact example_exact_tree). vm_compute. reflexivity.
Defined.

(** ** The errors of the parser *)

Lemma has_ws_before_ws (s : str) : has_ws (before_ws s) = false.
Proof.
  induction s as [|x s IH]; [reflexivity|]. simpl.
  destruct (is_ws x) eqn:E; [reflexivity|]. simpl. now rewrite E.
Qed.

Lemma existsb_tl (A : Type) (p : A -> bool) (l : list A) :
  existsb p l = false -> existsb p (tl l) = false.
Proof.
  destruct l as [|x l]; trivial. simpl. intros H.
  now apply orb_false_iff in H.
Qed.

Lemma existsb_removelast (A : Type) (p : A -> bool) (l : list A) :
  existsb p l = false -> existsb p (removelast l) = false.
Proof.
  induction l as [|x l IH]; trivial. intros H.
  simpl in H. apply orb_false_iff in H as [Hx H].
  destruct l as [|y l]; [reflexivity|].
  change (removelast (x :: y :: l)) with (x :: removelast (y :: l)).
  simpl existsb. rewrite Hx. now apply IH.
Qed.

Lemma existsb_hd (A : Type) (p : A -> bool) (l : list A) (d : A) :
  p d = false -> existsb p l = false -> p (hd d l) = false.
Proof.
  intros Hd. destruct l as [|x l]; trivial. simpl. intros H.
  now apply orb_false_iff in H.
Qed.

Lemma existsb_last (A : Type) (p : A -> bool) (l : list A) (d : A) :
  p d = false -> existsb p l = false -> p (last l d) = false.
Proof.
  intros Hd. induction l as [|x l IH]; trivial. intros H.
  simpl in H. apply orb_false_iff in H as [Hx H].
  destruct l as [|y l]; [exact Hx|].
  change (last (x :: y :: l) d) with (last (y :: l) d). now apply IH.
Qed.

Lemma parseRecordDeclaration_no_ws (line : str) :
  has_ws (d_entityName (parseRecordDeclaration line)) = false
  /\ opt_has_ws (d_propertyName (parseRecordDeclaration line)) = false
  /\ opt_has_ws (d_actionName (parseRecordDeclaration line)) = false.
Proof.
  unfold parseRecordDeclaration.
  cbn [d_entityName d_propertyName d_actionName].
  pose proof (has_ws_parts "."%char _ (has_ws_before_ws (trim line))) as W.
  set (parts := split_chr "."%char (before_ws (trim line))) in *.
  pose proof (existsb_tl _ _ _ W) as Wt.
  pose proof (existsb_removelast _ _ _ Wt) as Wr.
  split; [|split].
  - now apply existsb_hd.
  - destruct (removelast (tl parts)) as [|q l] eqn:E; [reflexivity|].
    cbn [opt_has_ws]. now rewrite has_ws_join_dot.
  - destruct (tl parts) as [|q l] eqn:E; [reflexivity|].
    cbn [opt_has_ws]. now apply existsb_last.
Qed.

Lemma section_name_ok_good (n : str) :
  section_name_ok n = true -> n <> [] /\ has_ws n = false.
Proof.
  unfold section_name_ok. intros H. apply andb_true_iff in H as [N F].
  split; [now destruct n|].
  exact (forallb_not_ws _ _ section_chr_not_ws F).
Qed.

Lemma parseField_error (line : str) (e : error) :
  parseField line = Throw e -> e = InvalidField line \/ e = TypeError.
Proof.
  unfold parseField.
  destruct (startsWith (lit "[") line).
  - destruct (indexOf "]" line) as [end_|]; [|intros [= <-]; now left].
    destruct (parseHtmlAttributes (slice 1 end_ line)) as [attrs cm].
    destruct (Object_entries attrs) as [|[n v] l]; [|discriminate].
    intros [= <-]. now right.
  - destruct (match_here re_field_name line) as [[rest c]|];
      [|intros [= <-]; now left].
    destruct (cap 1 c) as [[|x w]|]; try discriminate;
      intros [= <-]; now left.
Qed.

Lemma Record_addField_error (f : field) (sn : str) (r r' : record)
    (e : error) :
  section_name_ok sn = true ->
  Record_addField f sn r = (r', Throw e) ->
  e = FieldExists (Field_name f).
Proof.
  intros Hn. destruct (section_name_ok_good _ Hn) as [N W].
  unfold Record_addField.
  destruct (map_get sn (Record_sections r)) as [s0|] eqn:G.
  - rewrite (on_section_present _ _ _ _ _ G). unfold Section_addField.
    destruct (Section_hasField (Field_name f) s0); [|discriminate].
    now intros [= _ <-].
  - unfold bind, Record_addSection, Record_hasSection, map_has. rewrite G.
    rewrite (Section_new_good sn N W).
    rewrite (on_section_present _ _ _ _ (mkSection sn []));
      [discriminate|].
    cbn [Record_set_sections Record_sections]. apply map_get_set_same.
Qed.

Lemma parse_line_outcome (st : pstate) (line : str) :
  (forall key, ps_currentRecord st = Some key ->
               map_has key (Tree_records (ps_tree st)) = true) ->
  section_name_ok (ps_currentSectionName st) = true ->
  match parse_line st line with
  | Ok st' =>
      (forall key, ps_currentRecord st' = Some key ->
                   map_has key (Tree_records (ps_tree st')) = true)
      /\ section_name_ok (ps_currentSectionName st') = true
  | Throw e =>
      parser_error e = true
      /\ (e = TypeError -> parseField (trim line) = Throw TypeError)
  end.
Proof.
  intros Hc Hs. unfold parse_line.
  destruct (str_eqb (trim line) []); [now split|].
  destruct (isRecordDeclaration line).
  { unfold Tree_addRecord.
    destruct (parseRecordDeclaration_no_ws line) as (We & Wp & Wv).
    set (dcl := parseRecordDeclaration line) in *.
    rewrite Record_new_cases, We, Wp, Wv.
    destruct (d_entityName dcl) as [|x en] eqn:Ee;
      [split; [reflexivity|discriminate]|].
    set (r := fresh_record (x :: en) (d_propertyName dcl) (d_actionName dcl)
                (d_description dcl)).
    destruct (map_has (Record_getFullName r) (Tree_records (ps_tree st)));
      [split; [reflexivity|discriminate]|].
    cbn [ps_currentRecord ps_tree ps_currentSectionName Tree_records].
    split; [|reflexivity]. intros key [= <-]. apply map_has_set_same. }
  destruct (ps_currentRecord st) as [key|] eqn:Ec;
    [|split; [intros k Hk; congruence|exact Hs]].
  specialize (Hc key eq_refl).
  destruct (map_get key (Tree_records (ps_tree st))) as [r|] eqn:G;
    [|unfold map_has in Hc; rewrite G in Hc; discriminate].
  assert (Hst : (forall k, ps_currentRecord st = Some k ->
                            map_has k (Tree_records (ps_tree st)) = true)
                /\ section_name_ok (ps_currentSectionName st) = true).
  { split; [|exact Hs]. intros k Hk. rewrite Ec in Hk.
    injection Hk as <-. exact Hc. }
  destruct (isSectionDeclaration (trim line)).
  { destruct (parseSectionDeclaration (trim line)) as [[|x name]|] eqn:P;
      try exact Hst.
    apply parseSectionDeclaration_inv in P as (rest & _ & _ & F).
    assert (Hn : section_name_ok (x :: name) = true) by exact F.
    destruct (section_name_ok_good _ Hn) as [N W].
    unfold on_record. rewrite G. unfold Record_addSection.
    destruct (Record_hasSection (x :: name) r);
      [split; [reflexivity|discriminate]|].
    rewrite (Section_new_good _ N W).
    cbn [ps_currentRecord ps_tree ps_currentSectionName Tree_records].
    split; [|exact Hn]. intros k [= <-]. apply map_has_set_same. }
  destruct (parseField (trim line)) as [f|err] eqn:P.
  2:{ destruct (parseField_error _ _ P) as [->| ->];
        (split; [reflexivity|]); [discriminate|reflexivity]. }
  unfold on_record. rewrite G.
  destruct (Record_addField f (ps_currentSectionName st) r) as [r' [u|err]]
    eqn:A.
  - cbn [ps_currentRecord ps_tree ps_currentSectionName Tree_records].
    split; [|exact Hs]. intros k [= <-]. apply map_has_set_same.
  - apply (Record_addField_error _ _ _ _ _ Hs) in A. subst err.
    split; [reflexivity|discriminate].
Qed.

Lemma parse_lines_outcome (lines : list str) :
  forall st e,
    (forall key, ps_currentRecord st = Some key ->
                 map_has key (Tree_records (ps_tree st)) = true) ->
    section_name_ok (ps_currentSectionName st) = true ->
    parse_lines st lines = Throw e ->
    parser_error e = true
    /\ (e = TypeError ->
        exists line, In line lines /\ parseField (trim line) = Throw TypeError).
Proof.
  induction lines as [|l lines IH]; intros st e Hc Hs; cbn [parse_lines];
    [discriminate|].
  pose proof (parse_line_outcome st l Hc Hs) as O.
  destruct (parse_line st l) as [st1|err].
  - destruct O as [Hc1 Hs1]. intros T.
    destruct (IH st1 e Hc1 Hs1 T) as [Pe Te]. split; [exact Pe|].
    intros Et. destruct (Te Et) as (line & I & Pl).
    exists line. split; [now right|exact Pl].
  - destruct O as [Pe Te]. intros [= <-]. split; [exact Pe|].
    intros Et. exists l. split; [now left|now apply Te].
Qed.

(** X24: when [treeFromString] throws, the error is one of: an empty
    entity name (a declaration that starts with a dot), a record, a
    section or a field that exists already, an invalid field line, or the
    type error of a bracketed field without a name; the tests for white
    space in names and for empty section names never fire, since the
    parser takes the names from text without white space; the type error
    comes from [parseField] alone. *)
Theorem treeFromString_errors (text : str) (e : error)
    (Hthrow : treeFromString text = Throw e) :
  parser_error e = true
  /\ (e = TypeError ->
      exists line,
        In line (split_chr newline text)
        /\ parseField (trim line) = Throw TypeError).
Proof.
  unfold treeFromString in Hthrow.
  destruct (parse_lines (mkState Tree_new None (lit "main"))
              (split_chr newline text)) as [st|err] eqn:P; [discriminate|].
  injection Hthrow as <-.
  apply (parse_lines_outcome _ (mkState Tree_new None (lit "main")) err);
    trivial.
  intros key. discriminate.
Qed.

Lemma treeFromString_errors_witness :
  treeFromString (lit "user" ++ [newline] ++ lit "  []") = Throw TypeError
  /\ parser_error TypeError = true.
Proof.
  split; [vm_compute; reflexivity|].
  apply (treeFromString_errors (lit "user" ++ [newline] ++ lit "  []")
           TypeError).
  vm_compute. reflexivity.
Defined.

(** ** Field lines *)

Lemma parseField_finish_flags (n : str) (o : bool) (d : option str) (a : str) :
  Field_isOptional (parseField_finish n o d a) = o
  /\ Field_defaultValue (parseField_finish n o d a) = d.
Proof.
  unfold parseField_finish.
  destruct (parseHtmlAttributes a) as [attrs comment].
  destruct (Field_setAttribute_all (Object_entries attrs)
              (Field_new n o d None)) as (_ & Eo & Ed & _).
  unfold Field_set_description. cbn [Field_isOptional Field_defaultValue].
  now rewrite Eo, Ed.
Qed.

(** X25: a field line that does not start with a bracket is read as
    follows: the name is the longest run of letters, digits, underscores
    and dots at the start of the line; when that run is empty the line is
    rejected as an invalid field; otherwise the field is optional exactly
    when a question mark follows the name, and it has no default value. *)
Theorem parseField_plain_line (line : str)
    (Hb : startsWith (lit "[") line = false) :
  let name := fst (span is_field_name_chr line) in
  let rest := snd (span is_field_name_chr line) in
  (name = [] -> parseField line = Throw (InvalidField line))
  /\ (name <> [] ->
      exists f,
        parseField line = Ok f
        /\ Field_name f = name
        /\ Field_isOptional f
           = match rest with
             | y :: _ => chr_eqb y "?"%char
             | [] => false
             end
        /\ Field_defaultValue f = None).
Proof.
  intros name rest.
  destruct (span_spec is_field_name_chr line) as (E & F & St).
  fold name in E, F. fold rest in E, St. clearbody name rest. subst line.
  unfold parseField. rewrite Hb. split.
  - intros N. subst name. cbn [app] in *.
    unfold match_here, re_field_name. rewrite rmatch_Grp.
    now rewrite (plus_chr_stops _ _ _ _ _ St).
  - intros N.
    rewrite (re_field_name_forward name rest N F St). cbn [cap Nat.eqb].
    destruct name as [|x w] eqn:En; [contradiction|]. rewrite <- En in *.
    eexists. split; [reflexivity|].
    rewrite parseField_finish_name.
    destruct (parseField_finish_flags name
                match nth_error (name ++ rest) (length name) with
                | Some x0 => chr_eqb x0 "?"%char
                | None => false
                end None
                (trim
                   (slice_from
                      (length name
                       + (if match nth_error (name ++ rest) (length name) with
                             | Some x0 => chr_eqb x0 "?"%char
                             | None => false
                             end then 1 else 0)) (name ++ rest)))) as [Eo Ed].
    rewrite Eo, Ed. repeat split.
    rewrite nth_error_app2 by lia. rewrite Nat.sub_diag.
    now destruct rest.
Qed.

Lemma parseField_plain_line_witness :
  startsWith (lit "[") (lit "name? // optional field") = false
  /\ fst (span is_field_name_chr (lit "name? // optional field")) <> []
  /\ exists f,
       parseField (lit "name? // optional field") = Ok f
       /\ Field_name f = lit "name".
Proof.
  split; [reflexivity|]. split; [vm_compute; discriminate|].
  destruct (parseField_plain_line (lit "name? // optional field") eq_refl)
    as [_ H].
  destruct H as (f & P & Hn & _); [vm_compute; discriminate|].
  exists f. split; [exact P|]. rewrite Hn. vm_compute. reflexivity.
Defined.




(** ** The JSON form *)

Lemma json_of_inj (a b : option str) : json_of a = json_of b -> a = b.
Proof. destruct a, b; simpl; intros H; try discriminate; congruence. Qed.

Lemma map_inj_on (A B : Type) (f : A -> B) (P : A -> bool) :
  (forall x y, P x = true -> P y = true -> f x = f y -> x = y) ->
  forall l l',
    forallb P l = true -> forallb P l' = true -> map f l = map f l' -> l = l'.
Proof.
  intros Hf. induction l as [|x l IH]; intros [|y l'] Pl Pl' E;
    try discriminate; trivial.
  simpl in *. apply andb_true_iff in Pl as [Px Pl].
  apply andb_true_iff in Pl' as [Py Pl']. injection E as Exy E.
  f_equal; [now apply Hf|now apply IH].
Qed.

Lemma keyed_values (V : Type) (g : V -> str) (l1 l2 : jsmap V) :
  forallb (fun e => str_eqb (fst e) (g (snd e))) l1 = true ->
  forallb (fun e => str_eqb (fst e) (g (snd e))) l2 = true ->
  map snd l1 = map snd l2 -> l1 = l2.
Proof.
  revert l2. induction l1 as [|[k1 v1] l1 IH]; intros [|[k2 v2] l2] K1 K2 E;
    try discriminate; trivial.
  simpl in *. apply andb_true_iff in K1 as [A1 K1].
  apply andb_true_iff in K2 as [A2 K2]. injection E as -> E.
  apply str_eqb_eq in A1, A2. subst k1 k2. f_equal. now apply IH.
Qed.

Lemma keyed_forall_values (V : Type) (Q : str * V -> bool) (g : V -> str)
    (l : jsmap V) :
  (forall e, Q e = true -> str_eqb (fst e) (g (snd e)) = true) ->
  forallb Q l = true ->
  forallb (fun v => Q (g v, v)) (map snd l) = true
  /\ forallb (fun e => str_eqb (fst e) (g (snd e))) l = true.
Proof.
  intros HQ. induction l as [|[k v] l IH]; [now split|].
  simpl. intros H. apply andb_true_iff in H as [Qe H].
  destruct (IH H) as [I1 I2]. pose proof (HQ _ Qe) as Ek.
  cbn [fst snd] in Ek. rewrite Ek, I1, I2.
  apply str_eqb_eq in Ek. subst k. now rewrite Qe.
Qed.

Lemma Field_toJSON_inj (f g : field) : Field_toJSON f = Field_toJSON g -> f = g.
Proof.
  unfold Field_toJSON. intros J. injection J as En Eo Ed Ec Ea.
  apply json_of_inj in Ed, Ec.
  apply (map_inj_on _ _ _ (fun _ => true)) in Ea.
  - destruct f, g. cbn in *. now subst.
  - intros [k1 v1] [k2 v2] _ _ E. cbn [fst snd] in E.
    injection E as -> E. apply json_of_inj in E. now subst.
  - apply forallb_forall. reflexivity.
  - apply forallb_forall. reflexivity.
Qed.

Lemma section_keyed_key (e : str * section) :
  section_keyed e = true -> str_eqb (fst e) (Section_name (snd e)) = true.
Proof.
  unfold section_keyed. intros H.
  apply andb_true_iff in H as [H _]. now apply andb_true_iff in H.
Qed.

Lemma record_keyed_key (e : str * record) :
  record_keyed e = true -> str_eqb (fst e) (Record_getFullName (snd e)) = true.
Proof.
  unfold record_keyed. intros H.
  apply andb_true_iff in H as [H _]. now apply andb_true_iff in H.
Qed.

Lemma Section_toJSON_inj (s1 s2 : section) :
  section_keyed (Section_name s1, s1) = true ->
  section_keyed (Section_name s2, s2) = true ->
  Section_toJSON s1 = Section_toJSON s2 -> s1 = s2.
Proof.
  unfold section_keyed. cbn [fst snd]. intros K1 K2 J.
  apply andb_true_iff in K1 as [_ K1]. apply andb_true_iff in K2 as [_ K2].
  unfold Section_toJSON in J. injection J as En Ef.
  apply (map_inj_on _ _ _ (fun _ => true)) in Ef.
  - assert (E : Section_fields s1 = Section_fields s2).
    { apply (keyed_values _ Field_name); trivial.
      - revert K1. apply forallb_impl. intros e H.
        now apply andb_true_iff in H.
      - revert K2. apply forallb_impl. intros e H.
        now apply andb_true_iff in H. }
    destruct s1, s2. cbn in *. now subst.
  - intros x y _ _. apply Field_toJSON_inj.
  - apply forallb_forall. reflexivity.
  - apply forallb_forall. reflexivity.
Qed.

Lemma Record_toJSON_inj (r1 r2 : record) :
  record_keyed (Record_getFullName r1, r1) = true ->
  record_keyed (Record_getFullName r2, r2) = true ->
  Record_toJSON r1 = Record_toJSON r2 -> r1 = r2.
Proof.
  unfold record_keyed. cbn [fst snd]. intros K1 K2 J.
  apply andb_true_iff in K1 as [_ K1]. apply andb_true_iff in K2 as [_ K2].
  destruct (keyed_forall_values _ section_keyed Section_name _
              section_keyed_key K1) as [V1 Q1].
  destruct (keyed_forall_values _ section_keyed Section_name _
              section_keyed_key K2) as [V2 Q2].
  unfold Record_toJSON in J. injection J as _ Ee Ep Ev Ed Es.
  apply json_of_inj in Ep, Ev, Ed.
  apply (map_inj_on _ _ _
           (fun s => section_keyed (Section_name s, s))) in Es; trivial.
  - assert (E : Record_sections r1 = Record_sections r2)
      by now apply (keyed_values _ Section_name).
    destruct r1, r2. cbn in *. now subst.
  - intros x y. apply Section_toJSON_inj.
Qed.

(** X27: the JSON form determines all that the methods of a tree read.
    Two trees whose records, sections and fields are stored under their
    names (as the methods store them) and that have the same [toJSON()]
    have the same records under the same names in the same order, each
    with the same entity name, property name, verb, description and
    sections; the sections have the same names and fields, and the fields
    the same names, optional flags, default values, descriptions and
    attributes.  This is the whole of a [tree] here; the field
    [mainSection] of a record in the code, which [toJSON()] does not
    write, is not part of it. *)
Theorem Tree_toJSON_injective (t1 t2 : tree)
    (H1 : tree_keyed t1 = true) (H2 : tree_keyed t2 = true)
    (Hj : Tree_toJSON t1 = Tree_toJSON t2) :
  t1 = t2.
Proof.
  unfold tree_keyed in H1, H2.
  apply andb_true_iff in H1 as [_ K1]. apply andb_true_iff in H2 as [_ K2].
  destruct (keyed_forall_values _ record_keyed Record_getFullName _
              record_keyed_key K1) as [V1 Q1].
  destruct (keyed_forall_values _ record_keyed Record_getFullName _
              record_keyed_key K2) as [V2 Q2].
  unfold Tree_toJSON in Hj. injection Hj as Er.
  apply (map_inj_on _ _ _
           (fun r => record_keyed (Record_getFullName r, r))) in Er; trivial.
  - assert (E : Tree_records t1 = Tree_records t2)
      by now apply (keyed_values _ Record_getFullName).
    destruct t1, t2. cbn in *. now subst.
  - intros x y. apply Record_toJSON_inj.
Qed.

Lemma Tree_toJSON_injective_witness :
  tree_keyed example_tree = true
  /\ Tree_toJSON example_tree = Tree_toJSON example_tree
  /\ example_tree = example_tree.
Proof.
  split; [vm_compute; reflexivity|]. split; [reflexivity|].
  apply (Tree_toJSON_injective example_tree example_tree);
    try reflexivity; vm_compute; reflexivity.
Defined.

(** ** The names as keys *)

Lemma forallb_map_delete (V : Type) (P : str * V -> bool) (k : str)
    (m : jsmap V) :
  forallb P m = true -> forallb P (map_delete k m) = true.
Proof.
  induction m as [|[k' v'] m IH]; simpl; trivial.
  intros H. apply andb_true_iff in H as [A B].
  destruct (str_eqb k' k); simpl; [exact B|].
  rewrite A. now apply IH.
Qed.

Lemma section_keyed_fields (k : str) (s : section) (m : jsmap field) :
  section_keyed (k, s) = true ->
  nodup_keys m = true ->
  forallb (fun e => str_eqb (fst e) (Field_name (snd e))
                    && field_keyed (snd e)) m = true ->
  section_keyed (k, mkSection (Section_name s) m) = true.
Proof.
  unfold section_keyed. cbn [fst snd Section_name Section_fields].
  intros H Nd Hm. apply andb_true_iff in H as [H _].
  apply andb_true_iff in H as [H1 _]. now rewrite H1, Nd, Hm.
Qed.

Lemma section_keyed_parts (k : str) (s : section) :
  section_keyed (k, s) = true ->
  nodup_keys (Section_fields s) = true
  /\ forallb (fun e => str_eqb (fst e) (Field_name (snd e))
                       && field_keyed (snd e)) (Section_fields s) = true.
Proof.
  unfold section_keyed. cbn [fst snd]. intros H.
  apply andb_true_iff in H as [H H3]. apply andb_true_iff in H as [_ H2].
  now split.
Qed.

Lemma Section_setField_keyed (k : str) (s : section) (f : field) :
  section_keyed (k, s) = true -> field_keyed f = true ->
  section_keyed (k, fst (Section_setField f s)) = true.
Proof.
  intros H Hf. destruct (section_keyed_parts _ _ H) as [Nd Hm].
  unfold Section_setField. cbn [fst].
  apply section_keyed_fields; trivial.
  - now apply nodup_keys_set.
  - apply forallb_map_set; trivial. cbn [fst snd].
    now rewrite str_eqb_refl, Hf.
Qed.

Lemma Section_addField_keyed (k : str) (s : section) (f : field) :
  section_keyed (k, s) = true -> field_keyed f = true ->
  section_keyed (k, fst (Section_addField f s)) = true.
Proof.
  intros H Hf. unfold Section_addField.
  destruct (Section_hasField (Field_name f) s); [exact H|].
  now apply (Section_setField_keyed k s f).
Qed.

Lemma Section_deleteField_keyed (k n : str) (s : section) :
  section_keyed (k, s) = true ->
  section_keyed (k, fst (Section_deleteField n s)) = true.
Proof.
  intros H. destruct (section_keyed_parts _ _ H) as [Nd Hm].
  unfold Section_deleteField. cbn [fst].
  apply section_keyed_fields; trivial.
  - now apply nodup_keys_delete.
  - now apply forallb_map_delete.
Qed.

Lemma record_keyed_sections (key : str) (r : record) (m : jsmap section) :
  record_keyed (key, r) = true ->
  nodup_keys m = true -> forallb section_keyed m = true ->
  record_keyed (key, Record_set_sections m r) = true.
Proof.
  unfold record_keyed. cbn [fst snd]. intros H Nd Hm.
  apply andb_true_iff in H as [H _]. apply andb_true_iff in H as [H1 _].
  change (Record_getFullName (Record_set_sections m r))
    with (Record_getFullName r).
  cbn [Record_set_sections Record_sections]. now rewrite H1, Nd, Hm.
Qed.

Lemma record_keyed_parts (key : str) (r : record) :
  record_keyed (key, r) = true ->
  nodup_keys (Record_sections r) = true
  /\ forallb section_keyed (Record_sections r) = true.
Proof.
  unfold record_keyed. cbn [fst snd]. intros H.
  apply andb_true_iff in H as [H H3]. apply andb_true_iff in H as [_ H2].
  now split.
Qed.

Lemma record_keyed_set_section (key sn : str) (r : record) (s : section) :
  record_keyed (key, r) = true -> section_keyed (sn, s) = true ->
  record_keyed
    (key, Record_set_sections (map_set sn s (Record_sections r)) r) = true.
Proof.
  intros H Hs. destruct (record_keyed_parts _ _ H) as [Nd Hm].
  apply record_keyed_sections; trivial.
  - now apply nodup_keys_set.
  - now apply forallb_map_set.
Qed.

Lemma Record_addSection_keyed (key name : str) (r : record) :
  record_keyed (key, r) = true ->
  record_keyed (key, fst (Record_addSection name r)) = true.
Proof.
  intros H. unfold Record_addSection.
  destruct (Record_hasSection name r); [exact H|].
  destruct (Section_new name) as [s|err] eqn:S1; [|exact H].
  apply Section_new_inv in S1. subst s. cbn [fst].
  apply record_keyed_set_section; trivial.
  unfold section_keyed. cbn [fst snd Section_name Section_fields forallb].
  now rewrite str_eqb_refl.
Qed.

Lemma on_section_keyed (A : Type) (key sn : str) (m : M section A)
    (r : record) :
  record_keyed (key, r) = true ->
  (forall s, section_keyed (sn, s) = true ->
             section_keyed (sn, fst (m s)) = true) ->
  record_keyed (key, fst (on_section sn m r)) = true.
Proof.
  intros H Hm. destruct (record_keyed_parts _ _ H) as [Nd Hs].
  unfold on_section.
  destruct (map_get sn (Record_sections r)) as [s0|] eqn:G; [|exact H].
  pose proof (Hm s0 (forallb_map_get _ _ _ _ _ Hs G)) as K.
  destruct (m s0) as [s' out]. cbn [fst] in *.
  now apply record_keyed_set_section.
Qed.

Lemma with_section_keyed (key sn : str) (m : M section unit) (r : record) :
  record_keyed (key, r) = true ->
  (forall s, section_keyed (sn, s) = true ->
             section_keyed (sn, fst (m s)) = true) ->
  record_keyed
    (key, fst ((_ <- Record_addSection sn ;; on_section sn m) r)) = true.
Proof.
  intros H Hm. unfold bind.
  pose proof (Record_addSection_keyed key sn r H) as K.
  destruct (Record_addSection sn r) as [r1 [s1|err]]; cbn [fst] in *; trivial.
  now apply on_section_keyed.
Qed.

Lemma run_op_keyed (key : str) (op : record_op) (r : record) :
  record_keyed (key, r) = true -> op_keyed op = true ->
  record_keyed (key, fst (run_op op r)) = true.
Proof.
  intros H Ho. destruct op as [name|name|s0|f o|f o|name o];
    cbn [run_op op_keyed] in *.
  - unfold bind, ret.
    pose proof (Record_addSection_keyed key name r H) as K.
    now destruct (Record_addSection name r) as [r1 [s1|err]].
  - unfold Record_deleteSection. cbn [fst].
    destruct (record_keyed_parts _ _ H) as [Nd Hs].
    apply record_keyed_sections; trivial.
    + now apply nodup_keys_delete.
    + now apply forallb_map_delete.
  - unfold Record_setSection. cbn [fst].
    now apply record_keyed_set_section.
  - unfold Record_addField.
    destruct (map_get (default_main o) (Record_sections r)).
    + apply on_section_keyed; trivial.
      intros x Hx. now apply Section_addField_keyed.
    + apply with_section_keyed; trivial.
      intros x Hx. now apply Section_addField_keyed.
  - unfold Record_setField.
    destruct (map_get (default_main o) (Record_sections r)).
    + apply on_section_keyed; trivial.
      intros x Hx. now apply Section_setField_keyed.
    + apply with_section_keyed; trivial.
      intros x Hx. now apply Section_setField_keyed.
  - unfold Record_deleteField.
    destruct (map_get (default_main o) (Record_sections r)); [|exact H].
    apply on_section_keyed; trivial.
    intros x Hx. now apply Section_deleteField_keyed.
Qed.

Lemma run_ops_keyed (key : str) (ops : list record_op) (r : record) :
  record_keyed (key, r) = true -> forallb op_keyed ops = true ->
  record_keyed (key, run_ops ops r) = true.
Proof.
  revert r. induction ops as [|op ops IH]; intros r H Ho; [exact H|].
  simpl in Ho. apply andb_true_iff in Ho as [O1 O2].
  cbn [run_ops]. apply IH; trivial. now apply run_op_keyed.
Qed.

Lemma tree_keyed_set (key : str) (r : record) (t : tree) :
  tree_keyed t = true -> record_keyed (key, r) = true ->
  tree_keyed (mkTree (map_set key r (Tree_records t))) = true.
Proof.
  unfold tree_keyed. cbn [Tree_records]. intros H Hr.
  apply andb_true_iff in H as [Nd Hm].
  now rewrite (nodup_keys_set _ _ _ _ Nd), (forallb_map_set _ _ _ _ _ Hm Hr).
Qed.

(** X28: the methods keep every record, section and field under its own
    name, with no name twice.  From a tree that is so, [addRecord] (it
    may throw), [setRecord] of a record that is so, [deleteRecord], and
    any sequence of calls of [addSection], [deleteSection], [setSection],
    [addField], [setField] and [deleteField] on a record of the tree
    (each may throw, and the next call goes on) leave a tree that is so. *)
Theorem methods_keep_names_as_keys (t : tree) (Hk : tree_keyed t = true) :
  (forall e p v d, tree_keyed (fst (Tree_addRecord e p v d t)) = true)
  /\ (forall r, record_keyed (Record_getFullName r, r) = true ->
                tree_keyed (fst (Tree_setRecord r t)) = true)
  /\ (forall k, tree_keyed (fst (Tree_deleteRecord k t)) = true)
  /\ (forall key ops,
        forallb op_keyed ops = true ->
        tree_keyed
          (fst (on_record key (fun r => (run_ops ops r, Ok tt)) t)) = true).
Proof.
  split; [|split; [|split]].
  - intros e p v d. unfold Tree_addRecord.
    destruct (Record_new e p v d) as [r0|err] eqn:N; [|exact Hk].
    destruct (map_has (Record_getFullName r0) (Tree_records t)); [exact Hk|].
    cbn [fst]. apply tree_keyed_set; trivial.
    apply Record_new_fresh in N. subst r0.
    unfold record_keyed, fresh_record.
    cbn [fst snd Record_sections forallb].
    rewrite str_eqb_refl. reflexivity.
  - intros r Hr. unfold Tree_setRecord. cbn [fst].
    now apply tree_keyed_set.
  - intros k. unfold Tree_deleteRecord. cbn [fst].
    unfold tree_keyed in *. cbn [Tree_records].
    apply andb_true_iff in Hk as [Nd Hm].
    now rewrite (nodup_keys_delete _ _ _ Nd), (forallb_map_delete _ _ _ _ Hm).
  - intros key ops Ho. unfold on_record.
    destruct (map_get key (Tree_records t)) as [r|] eqn:G; [|exact Hk].
    cbn [fst]. apply tree_keyed_set; trivial.
    apply run_ops_keyed; trivial.
    unfold tree_keyed in Hk. apply andb_true_iff in Hk as [_ Hm].
    exact (forallb_map_get _ _ _ _ _ Hm G).
Qed.

Lemma methods_keep_names_as_keys_witness :
  tree_keyed example_tree = true
  /\ tree_keyed
       (fst (on_record (lit "user.profile.update")
               (fun r =>
                  (run_ops
                     [OpAddField (mkField (lit "age") [] false None None)
                        (Some (lit "extra"));
                      OpDeleteField (lit "username") None;
                      OpAddSection (lit "extra")] r, Ok tt))
               example_tree)) = true.
Proof.
  split; [vm_compute; reflexivity|].
  apply (methods_keep_names_as_keys example_tree); vm_compute; reflexivity.
Defined.
